(** * Heap allocators: implicit and explicit free list

    A shallow embedding of [implicit_allocator.c] and [explicit_allocator.c].

    Memory is one flat, byte-addressed store.  The C code reads and writes
    8-byte words ([unsigned long], [size_t], [void *]) through raw pointers;
    a word access at address [a] touches the bytes [a .. a+7], little endian.
    Pointers and [size_t] values are 64-bit: every arithmetic result is
    reduced modulo [2^64].  The code never checks whether an address lies in
    the segment handed to [myinit], and neither does the model: a load
    returns whatever the store holds at that address, also just outside the
    segment.

    The null pointer is the exception.  Where the code stores or copies
    through a pointer that is null ([myinit] with a null [heap_start], the
    header of a null block in the implicit [mymalloc], [memcpy] after a
    failed [mymalloc]) the program faults and the call never comes back;
    the function concerned answers [None] there.  Every other address is
    taken to be mapped, and a walk that reads the header of a null block
    (one that runs past the last block of an inconsistent heap) is not
    marked: it reads the store at the wrapped address. *)

From Stdlib Require Import ZArith Lia List Bool.
Import ListNotations.
Local Open Scope Z_scope.

(** ** Machine words and the byte store *)

Definition WIDTH : Z := 8.
Definition ALLOC : Z := 1.
Definition FREE : Z := 0.
Definition NULL : Z := 0.

(** [sizeof(header)]: a [size_t] and two pointers. *)
Definition sizeof_header : Z := 24.

Definition wrap64 (z : Z) : Z := z mod 2 ^ 64.

(** Values kept in an [int], such as [nused] of the implicit variant:
    32-bit two's complement. *)
Definition wrap_int (z : Z) : Z := (z + 2 ^ 31) mod 2 ^ 32 - 2 ^ 31.

Definition mem : Type := Z -> Z.

Definition byte_of (v i : Z) : Z := (v / 2 ^ (8 * i)) mod 256.

Definition load64 (m : mem) (a : Z) : Z :=
  m a mod 256
  + 2 ^ 8 * (m (a + 1) mod 256)
  + 2 ^ 16 * (m (a + 2) mod 256)
  + 2 ^ 24 * (m (a + 3) mod 256)
  + 2 ^ 32 * (m (a + 4) mod 256)
  + 2 ^ 40 * (m (a + 5) mod 256)
  + 2 ^ 48 * (m (a + 6) mod 256)
  + 2 ^ 56 * (m (a + 7) mod 256).

Definition store64 (m : mem) (a v : Z) : mem :=
  fun x => if (a <=? x) && (x <? a + 8) then byte_of v (x - a) else m x.

(** [memcpy(dst, src, n)]: the [n] bytes at [src] land at [dst].  With a
    null [dst] or [src] the program faults, and C leaves the call undefined
    when the two ranges overlap: [None] in both cases. *)
Definition memcpy (m : mem) (dst src n : Z) : option mem :=
  if (dst =? NULL) || (src =? NULL) then None
  else if (dst <? src + n) && (src <? dst + n) then None
  else Some (fun x => if (dst <=? x) && (x <? dst + n)
                      then m (src + (x - dst)) else m x).

(** Bit operations of the header codec. *)
Definition shl2 (v : Z) : Z := wrap64 (Z.shiftl v 2).
Definition shr2 (v : Z) : Z := Z.shiftr v 2.
Definition low2 (v : Z) : Z := Z.land v 3.
(** [v & ~0x3] on 64 bits. *)
Definition clear2 (v : Z) : Z := Z.land v (2 ^ 64 - 4).

(** ** The implicit free list allocator *)

Module Implicit.

Record state : Type := mkState {
  segment_start : Z;
  segment_end : Z;
  segment_size : Z;
  nblocks : Z;
  nused : Z;
  bytes_used : Z;
  start_block : Z;
  heap : mem
}.

Definition set_heap (st : state) (m : mem) : state :=
  mkState (segment_start st) (segment_end st) (segment_size st) (nblocks st)
          (nused st) (bytes_used st) (start_block st) m.

Definition set_nblocks (st : state) (n : Z) : state :=
  mkState (segment_start st) (segment_end st) (segment_size st) n
          (nused st) (bytes_used st) (start_block st) (heap st).

Definition set_nused (st : state) (n : Z) : state :=
  mkState (segment_start st) (segment_end st) (segment_size st) (nblocks st)
          n (bytes_used st) (start_block st) (heap st).

Definition set_bytes_used (st : state) (n : Z) : state :=
  mkState (segment_start st) (segment_end st) (segment_size st) (nblocks st)
          (nused st) n (start_block st) (heap st).

Definition get_hdr (block_ptr : Z) : Z := wrap64 (block_ptr - WIDTH).

Definition get_ul (st : state) (hdr_adr : Z) : Z := load64 (heap st) hdr_adr.

Definition get_block_size (st : state) (block_ptr : Z) : Z :=
  shr2 (get_ul st (get_hdr block_ptr)).

Definition get_next_block (st : state) (block_ptr : Z) : Z :=
  let next_block := wrap64 (block_ptr + get_block_size st block_ptr + WIDTH) in
  if next_block <? segment_end st then next_block else NULL.

Definition check_alloc (st : state) (block_ptr : Z) : Z :=
  Z.land (get_ul st (get_hdr block_ptr)) 1.

Definition round_up (req_size : Z) : Z :=
  Z.land (wrap64 (req_size + WIDTH - 1)) (2 ^ 64 - 8).

Definition set_hdr_size (st : state) (block_ptr upd_size : Z) : state :=
  let hdr_ptr := get_hdr block_ptr in
  set_heap st (store64 (heap st) hdr_ptr
                       (Z.lor (low2 (get_ul st hdr_ptr)) (shl2 upd_size))).

Definition set_hdr_status (st : state) (block_ptr status : Z) : state :=
  let hdr_ptr := get_hdr block_ptr in
  set_heap st (store64 (heap st) hdr_ptr
                       (Z.lor (clear2 (get_ul st hdr_ptr)) status)).

(** The body of the [for] loop of [first_fit]; [fuel] is the number of
    iterations left, [nblocks] at entry. *)
Fixpoint first_fit_loop (st : state) (req_size curr_block : Z) (fuel : nat) : Z :=
  match fuel with
  | O => NULL
  | S k =>
      if (req_size <=? get_block_size st curr_block)
         && (check_alloc st curr_block =? 0)
      then curr_block
      else first_fit_loop st req_size (get_next_block st curr_block) k
  end.

Definition first_fit (st : state) (req_size : Z) : Z :=
  first_fit_loop st req_size (start_block st) (Z.to_nat (nblocks st)).

(** The first header is stored through [heap_start], unchecked: with a null
    [heap_start] the program faults. *)
Definition myinit (m : mem) (heap_start heap_size : Z) : option (state * bool) :=
  if heap_start =? NULL then None
  else
    Some (mkState heap_start
                  (wrap64 (heap_start + heap_size))
                  heap_size
                  1 0 0
                  (wrap64 (heap_start + WIDTH))
                  (store64 m heap_start (shl2 (wrap64 (heap_size - WIDTH)))),
          true).

(** [get_next_block] answers null when the bytes left over are exactly the
    last 8 of the segment; [set_hdr_size] then goes through the header of a
    null block and the program faults: [None]. *)
Definition mymalloc (st : state) (req_size : Z) : option (state * Z) :=
  if req_size <=? 0 then Some (st, NULL)
  else
    let req_size := round_up req_size in
    let alloc_block := first_fit st req_size in
    if alloc_block =? NULL then Some (st, NULL)
    else
      let size_diff := wrap64 (get_block_size st alloc_block - req_size) in
      let st1 := set_hdr_size st alloc_block req_size in
      let st2 := set_hdr_status st1 alloc_block ALLOC in
      let finish (st5 : state) :=
        let st6 := set_nused st5 (wrap_int (nused st5 + 1)) in
        Some (set_bytes_used st6 (wrap64 (bytes_used st6 + (req_size + WIDTH))),
              alloc_block) in
      if 0 <? size_diff then
        let next_block := get_next_block st2 alloc_block in
        if next_block =? NULL then None
        else
          let st3 := set_hdr_size st2 next_block (wrap64 (size_diff - WIDTH)) in
          let st4 := set_hdr_status st3 next_block FREE in
          finish (set_nblocks st4 (wrap64 (nblocks st4 + 1)))
      else finish st2.

Definition myfree (st : state) (ptr : Z) : state :=
  if ptr =? NULL then st
  else
    let st1 := set_nused st (wrap_int (nused st - 1)) in
    let st2 := set_hdr_status st1 ptr FREE in
    set_bytes_used st2 (wrap64 (bytes_used st2 - (get_block_size st2 ptr + WIDTH))).

(** The result of [mymalloc] goes to [memcpy] unchecked: after a failed
    [mymalloc] the program faults there. *)
Definition myrealloc (st : state) (old_ptr new_size : Z) : option (state * Z) :=
  if old_ptr =? NULL then mymalloc st new_size
  else if new_size =? 0 then Some (myfree st old_ptr, NULL)
  else
    match mymalloc st new_size with
    | None => None
    | Some (st1, new_ptr) =>
        match memcpy (heap st1) new_ptr old_ptr new_size with
        | None => None
        | Some h => Some (myfree (set_heap st1 h) old_ptr, new_ptr)
        end
    end.

(** The [for] loop of [validate_heap] with its two accumulators. *)
Fixpoint validate_loop (st : state) (curr_block used_bytes free_bytes : Z)
         (fuel : nat) : Z * Z :=
  match fuel with
  | O => (used_bytes, free_bytes)
  | S k =>
      let block_width_size := wrap64 (get_block_size st curr_block + WIDTH) in
      if check_alloc st curr_block =? 0
      then validate_loop st (get_next_block st curr_block) used_bytes
                         (wrap64 (free_bytes + block_width_size)) k
      else validate_loop st (get_next_block st curr_block)
                         (wrap64 (used_bytes + block_width_size)) free_bytes k
  end.

Definition validate_heap (st : state) : bool :=
  let '(used_bytes, free_bytes) :=
    validate_loop st (start_block st) 0 0 (Z.to_nat (nblocks st)) in
  wrap64 (used_bytes + free_bytes) =? segment_size st.

(** The [while] loop of [best_fit]: it runs until [get_next_block] answers
    null.  Every block met lies below [segment_end] and, unless the address
    wraps, at least [WIDTH] bytes after the one before, which bounds the
    iterations; [fuel] carries that bound and [None] says that it was used
    up. *)
Fixpoint best_fit_loop (st : state) (req_size curr_block curr_size next_block : Z)
         (fuel : nat) : option Z :=
  let next_block := get_next_block st next_block in
  if next_block =? NULL then Some curr_block
  else
    match fuel with
    | O => None
    | S k =>
        if check_alloc st next_block =? 0 then
          let next_size := get_block_size st next_block in
          if (req_size <=? next_size) && (next_size <? curr_size)
          then best_fit_loop st req_size next_block next_size next_block k
          else best_fit_loop st req_size curr_block curr_size next_block k
        else best_fit_loop st req_size curr_block curr_size next_block k
    end.

Definition best_fit (st : state) (req_size : Z) : option Z :=
  let curr_block := first_fit st req_size in
  let curr_size := get_block_size st curr_block in
  best_fit_loop st req_size curr_block curr_size curr_block
                (Z.to_nat (segment_end st / 8 + 1)).

End Implicit.

(** ** The explicit free list allocator *)

Module Explicit.

Record state : Type := mkState {
  segment_start : Z;
  segment_size : Z;
  start_block : Z;
  nblocks : Z;
  nused : Z;
  last_free_block : Z;
  heap : mem
}.

Definition set_heap (st : state) (m : mem) : state :=
  mkState (segment_start st) (segment_size st) (start_block st) (nblocks st)
          (nused st) (last_free_block st) m.

Definition set_last_free_block (st : state) (b : Z) : state :=
  mkState (segment_start st) (segment_size st) (start_block st) (nblocks st)
          (nused st) b (heap st).

Definition set_nblocks (st : state) (n : Z) : state :=
  mkState (segment_start st) (segment_size st) (start_block st) n
          (nused st) (last_free_block st) (heap st).

Definition set_nused (st : state) (n : Z) : state :=
  mkState (segment_start st) (segment_size st) (start_block st) (nblocks st)
          n (last_free_block st) (heap st).

(** Field offsets of [struct header]: [block_size] at 0, [prev_ptr] at 8,
    [next_ptr] at 16. *)
Definition fld_block_size (h : Z) : Z := h.
Definition fld_prev_ptr (h : Z) : Z := wrap64 (h + 8).
Definition fld_next_ptr (h : Z) : Z := wrap64 (h + 16).

Definition create_hdr (st : state) (loc size prev next : Z) : state :=
  let m1 := store64 (heap st) (fld_block_size loc) (shl2 size) in
  let m2 := store64 m1 (fld_prev_ptr loc) prev in
  let m3 := store64 m2 (fld_next_ptr loc) next in
  set_heap st m3.

Definition get_hdr (block_ptr : Z) : Z := wrap64 (block_ptr - WIDTH).

Definition get_block_size (st : state) (block_ptr : Z) : Z :=
  shr2 (load64 (heap st) (fld_block_size (get_hdr block_ptr))).

Definition get_next_block (st : state) (block_ptr : Z) : Z :=
  wrap64 (block_ptr + get_block_size st block_ptr + WIDTH).

Definition get_next_free (st : state) (block_ptr : Z) : Z :=
  if block_ptr =? NULL then NULL
  else load64 (heap st) (fld_next_ptr (get_hdr block_ptr)).

Definition get_prev_free (st : state) (block_ptr : Z) : Z :=
  if block_ptr =? NULL then NULL
  else load64 (heap st) (fld_prev_ptr (get_hdr block_ptr)).

Definition check_alloc (st : state) (block_ptr : Z) : Z :=
  Z.land (load64 (heap st) (fld_block_size (get_hdr block_ptr))) 1.

Definition round_up (req_size : Z) : Z :=
  let rounded_size := Z.land (wrap64 (req_size + WIDTH - 1)) (2 ^ 64 - 8) in
  if rounded_size <? 16 then 16 else rounded_size.

Definition set_hdr_size (st : state) (block_ptr upd_size : Z) : state :=
  let hdr_ptr := get_hdr block_ptr in
  set_heap st (store64 (heap st) (fld_block_size hdr_ptr)
       (Z.lor (low2 (load64 (heap st) (fld_block_size hdr_ptr))) (shl2 upd_size))).

Definition set_hdr_status (st : state) (block_ptr status : Z) : state :=
  let hdr_ptr := get_hdr block_ptr in
  set_heap st (store64 (heap st) (fld_block_size hdr_ptr)
       (Z.lor (clear2 (load64 (heap st) (fld_block_size hdr_ptr))) status)).

Definition set_prev_ptr (st : state) (block_ptr prev : Z) : state :=
  if block_ptr =? NULL then st
  else set_heap st (store64 (heap st) (fld_prev_ptr (get_hdr block_ptr)) prev).

Definition set_next_ptr (st : state) (block_ptr next : Z) : state :=
  if block_ptr =? NULL then st
  else set_heap st (store64 (heap st) (fld_next_ptr (get_hdr block_ptr)) next).

Definition upd_last_free_block (st : state) (cmp_block new_block : Z) : state :=
  if last_free_block st =? cmp_block then set_last_free_block st new_block
  else st.

(** The [for] loop of [first_fit]; when the iterations run out the code
    returns [curr_block] as it stands. *)
Fixpoint first_fit_loop (st : state) (req_size curr_block : Z) (fuel : nat) : Z :=
  match fuel with
  | O => curr_block
  | S k =>
      if (req_size <=? get_block_size st curr_block)
         && (check_alloc st curr_block =? 0)
      then curr_block
      else first_fit_loop st req_size (get_prev_free st curr_block) k
  end.

Definition first_fit (st : state) (req_size : Z) : Z :=
  first_fit_loop st req_size (last_free_block st)
                 (Z.to_nat (wrap64 (nblocks st - nused st))).

Definition create_partial_fb (st : state) (orig_block new_fb fb_size : Z) : state :=
  let new_free_hdr := get_hdr new_fb in
  let orig_prev := get_prev_free st orig_block in
  let orig_next := get_next_free st orig_block in
  let st1 := set_next_ptr st orig_prev new_fb in
  let st2 := set_prev_ptr st1 orig_next new_fb in
  let st3 := create_hdr st2 new_free_hdr fb_size orig_prev orig_next in
  upd_last_free_block st3 orig_block new_fb.

Definition change_to_free (st : state) (new_free : Z) : state :=
  let st1 := set_hdr_status st new_free FREE in
  let st2 := set_next_ptr st1 (last_free_block st1) new_free in
  let st3 := set_prev_ptr st2 new_free (last_free_block st2) in
  let st4 := set_next_ptr st3 new_free NULL in
  set_last_free_block st4 new_free.

Definition coalesce (st : state) (new_free : Z) : state :=
  let neighbor := get_next_block st new_free in
  let neighbor_prev := get_prev_free st neighbor in
  let neighbor_next := get_next_free st neighbor in
  let st1 := set_hdr_status st new_free FREE in
  let st2 := set_hdr_size st1 new_free
               (wrap64 (get_block_size st1 new_free
                        + get_block_size st1 neighbor + WIDTH)) in
  let st3 := set_prev_ptr st2 new_free neighbor_prev in
  let st4 := set_next_ptr st3 new_free neighbor_next in
  let st5 := set_prev_ptr st4 neighbor_next new_free in
  let st6 := set_next_ptr st5 neighbor_prev new_free in
  upd_last_free_block st6 neighbor new_free.

(** The [while] loop of [right_search].  The loop has no bound of its own:
    [fuel] limits the iterations and [None] says that it was used up. *)
Fixpoint right_search_loop (st : state) (r_neighbor add_size : Z)
         (block_count total_space : Z) (fuel : nat) : option Z :=
  if total_space <? add_size then
    match fuel with
    | O => None
    | S k =>
        if check_alloc st r_neighbor =? 0 then
          right_search_loop st (get_next_block st r_neighbor) add_size
            (block_count + 1)
            (wrap64 (total_space + (get_block_size st r_neighbor + WIDTH))) k
        else Some 0
    end
  else Some block_count.

(** Every iteration adds at least [WIDTH] to [total_space], so as long as
    [total_space] does not wrap, [add_size / 8 + 1] iterations are enough. *)
Definition right_search (st : state) (r_neighbor add_size : Z) : option Z :=
  right_search_loop st r_neighbor add_size 0 0 (Z.to_nat (add_size / 8 + 1)).

(** The [for] loop of [fix_neighbors]; [left] counts the iterations still to
    run, so [i == num_blocks] reads [left = 1].  The result carries the
    value of [*new_size]. *)
Fixpoint fix_neighbors_loop (st : state) (neighbor new_size space_needed : Z)
         (left : nat) : state * Z :=
  match left with
  | O => (st, new_size)
  | S k =>
      let unlink (new_size : Z) :=
        let neighbor_prev := get_prev_free st neighbor in
        let st1 := set_next_ptr st neighbor_prev (get_next_free st neighbor) in
        let st2 := set_prev_ptr st1 (get_next_free st1 neighbor)
                                (get_prev_free st1 neighbor) in
        let st3 := upd_last_free_block st2 neighbor neighbor_prev in
        let space_needed' :=
          wrap64 (space_needed - (get_block_size st3 neighbor + WIDTH)) in
        let neighbor' := get_next_block st3 neighbor in
        let st4 := set_nblocks st3 (wrap64 (nblocks st3 - 1)) in
        fix_neighbors_loop st4 neighbor' new_size space_needed' k in
      match k with
      | O =>
          let remaining_space :=
            wrap64 (get_block_size st neighbor + WIDTH - space_needed) in
          if sizeof_header <=? remaining_space then
            let new_partial_fb := wrap64 (neighbor + space_needed) in
            let new_fb_size :=
              wrap64 (get_block_size st neighbor - space_needed) in
            (create_partial_fb st neighbor new_partial_fb new_fb_size, new_size)
          else unlink (wrap64 (new_size + remaining_space))
      | S _ => unlink new_size
      end
  end.

Definition fix_neighbors (st : state) (neighbor new_size num_blocks space_needed : Z)
  : state * Z :=
  fix_neighbors_loop st neighbor new_size space_needed (Z.to_nat num_blocks).

(** The first header is stored through [heap_start], unchecked: with a null
    [heap_start] the program faults. *)
Definition myinit (m : mem) (heap_start heap_size : Z) : option (state * bool) :=
  if heap_start =? NULL then None
  else
    let last := wrap64 (heap_start + WIDTH) in
    let st0 := mkState heap_start heap_size last 0 0 last m in
    let st1 := create_hdr st0 heap_start (wrap64 (heap_size - WIDTH)) NULL NULL in
    Some (set_nused (set_nblocks st1 1) 0, true).

Definition mymalloc (st : state) (req_size : Z) : state * Z :=
  if req_size <=? 0 then (st, NULL)
  else
    let req_size := round_up req_size in
    let alloc_block := first_fit st req_size in
    if alloc_block =? NULL then (st, NULL)
    else
      let size_diff := wrap64 (get_block_size st alloc_block - req_size) in
      let '(st1, req_size) :=
        if size_diff <? sizeof_header then
          let req_size := wrap64 (size_diff + req_size) in
          if alloc_block =? last_free_block st then
            let sta := set_last_free_block st
                         (get_prev_free st (last_free_block st)) in
            (set_next_ptr sta (last_free_block sta) NULL, req_size)
          else
            let sta := set_prev_ptr st (get_next_free st alloc_block)
                                    (get_prev_free st alloc_block) in
            (set_next_ptr sta (get_prev_free sta alloc_block)
                          (get_next_free sta alloc_block), req_size)
        else
          let new_partial_fb := wrap64 (alloc_block + req_size + WIDTH) in
          let sta := create_partial_fb st alloc_block new_partial_fb
                                       (wrap64 (size_diff - WIDTH)) in
          (set_nblocks sta (wrap64 (nblocks sta + 1)), req_size) in
      let st2 := set_hdr_size st1 alloc_block req_size in
      let st3 := set_hdr_status st2 alloc_block ALLOC in
      (set_nused st3 (wrap64 (nused st3 + 1)), alloc_block).

Definition myfree (st : state) (ptr : Z) : state :=
  if ptr =? NULL then st
  else
    let st1 :=
      if check_alloc st (get_next_block st ptr) =? 0 then
        let sta := coalesce st ptr in
        set_nblocks sta (wrap64 (nblocks sta - 1))
      else change_to_free st ptr in
    set_nused st1 (wrap64 (nused st1 - 1)).

(** [None] when the call does not come back: [right_search] keeps looping,
    or [memcpy] faults on the null pointer of a failed [mymalloc] (or is
    undefined on overlapping ranges). *)
Definition myrealloc (st : state) (old_ptr new_size : Z) : option (state * Z) :=
  if old_ptr =? NULL then Some (mymalloc st new_size)
  else if new_size =? 0 then Some (myfree st old_ptr, NULL)
  else
    let curr_size := get_block_size st old_ptr in
    let new_size := round_up new_size in
    if new_size <=? curr_size then
      let size_diff := wrap64 (curr_size - new_size) in
      if sizeof_header <=? size_diff then
        let new_free_start := wrap64 (old_ptr + new_size + WIDTH) in
        let st1 := set_hdr_size st old_ptr new_size in
        let st2 := change_to_free st1 new_free_start in
        let st3 := set_hdr_size st2 new_free_start (wrap64 (size_diff - WIDTH)) in
        Some (set_nblocks st3 (wrap64 (nblocks st3 + 1)), old_ptr)
      else Some (st, old_ptr)
    else
      let size_diff := wrap64 (new_size - curr_size) in
      match right_search st (wrap64 (old_ptr + curr_size + WIDTH)) size_diff with
      | None => None
      | Some r_free_blocks =>
          if r_free_blocks =? 0 then
            let '(st1, new_ptr) := mymalloc st new_size in
            match memcpy (heap st1) new_ptr old_ptr new_size with
            | None => None
            | Some h => Some (myfree (set_heap st1 h) old_ptr, new_ptr)
            end
          else
            let '(st1, new_size) :=
              fix_neighbors st (get_next_block st old_ptr) new_size
                            r_free_blocks size_diff in
            Some (set_hdr_size st1 old_ptr new_size, old_ptr)
      end.

(** The [for] loop of [validate_heap]. *)
Fixpoint validate_loop (st : state) (curr_block used_bytes free_bytes free_count : Z)
         (fuel : nat) : Z * Z * Z :=
  match fuel with
  | O => (used_bytes, free_bytes, free_count)
  | S k =>
      let block_width_size := wrap64 (get_block_size st curr_block + WIDTH) in
      if check_alloc st curr_block =? 0
      then validate_loop st (get_next_block st curr_block) used_bytes
                         (wrap64 (free_bytes + block_width_size))
                         (free_count + 1) k
      else validate_loop st (get_next_block st curr_block)
                         (wrap64 (used_bytes + block_width_size)) free_bytes
                         free_count k
  end.

(** The [while] loop of [validate_heap] over the free list; it ends at a null
    [prev_ptr], so a cyclic list would keep it running: [fuel] bounds the
    nodes visited, [None] says that it was used up. *)
Fixpoint validate_free_list (st : state) (curr_free_block n_free : Z)
         (fuel : nat) : option bool :=
  if curr_free_block =? NULL then Some (n_free =? 0)
  else
    match fuel with
    | O => None
    | S k =>
        if negb (check_alloc st curr_free_block =? 0) then Some false
        else if negb (get_prev_free st curr_free_block =? NULL)
                && negb (get_next_free st (get_prev_free st curr_free_block)
                         =? curr_free_block)
        then Some false
        else validate_free_list st (get_prev_free st curr_free_block)
                                (n_free - 1) k
    end.

Definition validate_heap (fuel : nat) (st : state) : option bool :=
  let n_free := wrap_int (wrap64 (nblocks st - nused st)) in
  let '(used_bytes, free_bytes, free_count) :=
    validate_loop st (start_block st) 0 0 0 (Z.to_nat (nblocks st)) in
  if negb (wrap64 (used_bytes + free_bytes) =? segment_size st) then Some false
  else if negb (free_count =? n_free) then Some false
  else validate_free_list st (last_free_block st) n_free fuel.

(** The client of the allocator stores an 8-byte word into a payload it
    owns. *)
Definition client_store (st : state) (a v : Z) : state :=
  set_heap st (store64 (heap st) a v).

End Explicit.

(** ** Concrete runs

    A zero-filled store and a segment of 4096 bytes at address 65536.

    [came_back d o] is what a call came back with; none of the calls made
    below faults, so the stand-in [d] for a call that did not come back is
    never used. *)

Definition zero_mem : mem := fun _ => 0.
Definition base0 : Z := 65536.

Definition came_back {A : Type} (d : A) (o : option A) : A :=
  match o with
  | Some a => a
  | None => d
  end.

Definition returned {A : Type} (o : option A) : bool :=
  match o with
  | Some _ => true
  | None => false
  end.

Definition implicit_fresh : Implicit.state :=
  fst (came_back (Implicit.mkState 0 0 0 0 0 0 0 zero_mem, false)
                 (Implicit.myinit zero_mem base0 4096)).

Definition explicit_fresh : Explicit.state :=
  fst (came_back (Explicit.mkState 0 0 0 0 0 0 zero_mem, false)
                 (Explicit.myinit zero_mem base0 4096)).

(** What [myinit] leaves when told that the segment has 0 bytes. *)
Definition implicit_tiny : Implicit.state :=
  fst (came_back (Implicit.mkState 0 0 0 0 0 0 0 zero_mem, false)
                 (Implicit.myinit zero_mem base0 0)).

Definition explicit_tiny : Explicit.state :=
  fst (came_back (Explicit.mkState 0 0 0 0 0 0 zero_mem, false)
                 (Explicit.myinit zero_mem base0 0)).

(** Implicit variant: two blocks of 16 bytes are handed out and the first
    one is given back, which leaves a free block of payload 16 in front. *)
Definition implicit_hole16 : Implicit.state :=
  let '(st1, a) := came_back (implicit_fresh, NULL)
                             (Implicit.mymalloc implicit_fresh 16) in
  let '(st2, _) := came_back (st1, NULL) (Implicit.mymalloc st1 16) in
  Implicit.myfree st2 a.

(** A free-list pointer [l] is null or a block that, with its header and
    its two link fields, lies outside the block of payload [p] and size
    [c]; [tail_clear_of] says so of the tail of the free list. *)
Definition block_clear_of (l p c : Z) : Prop :=
  l = NULL \/ (8 <= l /\ l + 16 <= 2 ^ 64 /\ (l + 24 <= p \/ p + c + 8 <= l)).

Definition tail_clear_of (st : Explicit.state) (p c : Z) : Prop :=
  block_clear_of (Explicit.last_free_block st) p c.

(** Explicit variant: a block of 100 bytes is requested from the fresh
    segment. *)
Definition explicit_malloc100 : Explicit.state * Z :=
  Explicit.mymalloc explicit_fresh 100.

Definition implicit_malloc100 : Implicit.state * Z :=
  came_back (implicit_fresh, NULL) (Implicit.mymalloc implicit_fresh 100).


(** Implicit variant: 8 bytes are requested from the heap with the free
    block of payload 16 in front. *)
Definition implicit_hole16_malloc8 : Implicit.state * Z :=
  came_back (implicit_hole16, NULL) (Implicit.mymalloc implicit_hole16 8).

(** Explicit variant: [a = mymalloc(24)], [b = mymalloc(32)], then
    [myfree(a)] and [myfree(b)].  The result: the state and the two
    pointers. *)
Definition explicit_two_frees : Explicit.state * Z * Z :=
  let '(st1, a) := Explicit.mymalloc explicit_fresh 24 in
  let '(st2, b) := Explicit.mymalloc st1 32 in
  (Explicit.myfree (Explicit.myfree st2 a) b, a, b).

(** The same two requests, nothing given back yet. *)
Definition explicit_before_free : Explicit.state * Z * Z :=
  let '(st1, a) := Explicit.mymalloc explicit_fresh 24 in
  let '(st2, b) := Explicit.mymalloc st1 32 in
  (st2, a, b).

(** The bytes spanned by [n] blocks met from payload [p] on, each counted
    with its header: the sum that the tiling invariant equates with the
    segment size. *)
Fixpoint span (st : Explicit.state) (p : Z) (n : nat) : Z :=
  match n with
  | O => 0
  | S k => 8 + Explicit.get_block_size st p
           + span st (Explicit.get_next_block st p) k
  end.

(** Explicit variant: the whole fresh segment is handed out as one block,
    which is then given back. *)
Definition explicit_all_taken : Explicit.state * Z :=
  Explicit.mymalloc explicit_fresh 4088.

Definition explicit_last_freed : Explicit.state :=
  Explicit.myfree (fst explicit_all_taken) (snd explicit_all_taken).

(** A client of the explicit allocator: the calls it makes and the words it
    stores into its own payloads. *)
Inductive call : Type :=
| Malloc (n : Z)
| Free (p : Z)
| Realloc (p n : Z)
| Store (a v : Z).

(** One call; the second component is the pointer handed back ([NULL] for
    [Free] and [Store]). *)
Definition exec (st : Explicit.state) (c : call) : option (Explicit.state * Z) :=
  match c with
  | Malloc n => Some (Explicit.mymalloc st n)
  | Free p => Some (Explicit.myfree st p, NULL)
  | Realloc p n => Explicit.myrealloc st p n
  | Store a v => Some (Explicit.client_store st a v, NULL)
  end.

(** A run of calls; the log keeps, for each call, the pointer handed back
    and the values of [nblocks], [nused] and [last_free_block] after it. *)
Fixpoint run (st : Explicit.state) (cs : list call)
  : option (Explicit.state * list (Z * Z * Z * Z)) :=
  match cs with
  | [] => Some (st, [])
  | c :: cs' =>
      match exec st c with
      | None => None
      | Some (st1, r) =>
          match run st1 cs' with
          | None => None
          | Some (st2, log) =>
              Some (st2, (r, Explicit.nblocks st1, Explicit.nused st1,
                          Explicit.last_free_block st1) :: log)
          end
      end
  end.

(** Three blocks [y], [q], [b] fill the segment; [b], the last one, and [y]
    are given back; [q] is grown over [b]; the next request is served from
    [y]; the client then stores three words into [q], which it still owns,
    and asks for 32 bytes. *)
Definition misaligning_calls : list call :=
  [ Malloc 16; Malloc 64; Malloc 3992;
    Free 65640; Free 65544;
    Realloc 65568 4072;
    Malloc 32;
    Store 65576 128; Store 65584 65601; Store 65593 256;
    Malloc 32 ].

Definition misaligned_heap : Explicit.state :=
  match run explicit_fresh misaligning_calls with
  | Some (st, _) => st
  | None => explicit_fresh
  end.

(** Implicit variant on a store whose bytes are all 255: 4080 bytes are
    requested from the fresh segment, which leaves 8 bytes, the room of one
    header, behind the block. *)
Definition ff_mem : mem := fun _ => 255.

Definition implicit_ff_fresh : Implicit.state :=
  fst (came_back (Implicit.mkState 0 0 0 0 0 0 0 ff_mem, false)
                 (Implicit.myinit ff_mem base0 4096)).

(** What the explicit [myinit] leaves of that store when the segment has 8
    bytes, fewer than the 24 of the header it writes. *)
Definition explicit_short : Explicit.state :=
  fst (came_back (Explicit.mkState 0 0 0 0 0 0 ff_mem, false)
                 (Explicit.myinit ff_mem base0 8)).

Definition implicit_tail8 : option (Implicit.state * Z) :=
  Implicit.mymalloc implicit_ff_fresh 4080.

(** ** Walks over the blocks

    The block reached from [p] by [k] steps of [get_next_block] (implicit
    variant) or of [get_prev_free] (explicit variant), and the test that
    both [first_fit] apply to a block. *)

Fixpoint implicit_walk (st : Implicit.state) (p : Z) (k : nat) : Z :=
  match k with
  | O => p
  | S j => implicit_walk st (Implicit.get_next_block st p) j
  end.

Definition implicit_fits (st : Implicit.state) (req_size p : Z) : bool :=
  (req_size <=? Implicit.get_block_size st p)
  && (Implicit.check_alloc st p =? 0).

Fixpoint prev_walk (st : Explicit.state) (p : Z) (k : nat) : Z :=
  match k with
  | O => p
  | S j => prev_walk st (Explicit.get_prev_free st p) j
  end.

Definition explicit_fits (st : Explicit.state) (req_size p : Z) : bool :=
  (req_size <=? Explicit.get_block_size st p)
  && (Explicit.check_alloc st p =? 0).

(** Implicit variant: blocks of 64, 16, 32 and 16 bytes are handed out and
    the first and the third are given back, which leaves free blocks of 64
    and of 32 bytes in front of the free remainder. *)
Definition implicit_two_holes : Implicit.state :=
  let '(st1, a) := came_back (implicit_fresh, NULL)
                             (Implicit.mymalloc implicit_fresh 64) in
  let '(st2, _) := came_back (st1, NULL) (Implicit.mymalloc st1 16) in
  let '(st3, c) := came_back (st2, NULL) (Implicit.mymalloc st2 32) in
  let '(st4, _) := came_back (st3, NULL) (Implicit.mymalloc st3 16) in
  Implicit.myfree (Implicit.myfree st4 a) c.

(** 24 bytes are requested from that heap. *)
Definition implicit_two_holes_malloc24 : Implicit.state * Z :=
  came_back (implicit_two_holes, NULL)
            (Implicit.mymalloc implicit_two_holes 24).

(** The block reached from [p] by [k] steps of the explicit
    [get_next_block]. *)
Fixpoint next_walk (st : Explicit.state) (p : Z) (k : nat) : Z :=
  match k with
  | O => p
  | S j => next_walk st (Explicit.get_next_block st p) j
  end.

(** How many of the first [n] blocks met from [p] on along the explicit
    [get_next_block] are free. *)
Fixpoint free_count (st : Explicit.state) (p : Z) (n : nat) : Z :=
  match n with
  | O => 0
  | S k => (if Explicit.check_alloc st p =? 0 then 1 else 0)
           + free_count st (Explicit.get_next_block st p) k
  end.

(** Explicit variant: [a], [b], [c] of 16 bytes each are handed out, then
    [c] and [a] are given back: the free block to the right of [b] has
    [a] as its next list neighbour.  The state, [b] and [a]. *)
Definition explicit_grow_linked : Explicit.state * Z * Z :=
  let '(st1, a) := Explicit.mymalloc explicit_fresh 16 in
  let '(st2, b) := Explicit.mymalloc st1 16 in
  let '(st3, c) := Explicit.mymalloc st2 16 in
  (Explicit.myfree (Explicit.myfree st3 c) a, b, a).

(** ** The block layout of the implicit heap

    [implicit_chain st p k]: [k] blocks lie one after the other from the
    block [p] to the end of the segment.  Each begins below [segment_end]
    and has a size that is a multiple of 8, each header follows the payload
    of the block before, and the payload of the last block ends at
    [segment_end]. *)
Fixpoint implicit_chain (st : Implicit.state) (p : Z) (k : nat) : Prop :=
  match k with
  | O => p = Implicit.segment_end st + 8
  | S j => 8 <= p < Implicit.segment_end st
           /\ Implicit.get_block_size st p mod 8 = 0
           /\ implicit_chain st (p + Implicit.get_block_size st p + 8) j
  end.

(** The [nblocks] blocks counted from [start_block] make up the segment of
    [segment_size] bytes, which does not wrap around the address space. *)
Definition implicit_layout (st : Implicit.state) : Prop :=
  Implicit.segment_end st + 8 <= 2 ^ 64
  /\ Implicit.start_block st + Implicit.segment_size st
     = Implicit.segment_end st + 8
  /\ 0 <= Implicit.nblocks st
  /\ implicit_chain st (Implicit.start_block st)
                    (Z.to_nat (Implicit.nblocks st)).

(** ** Words, bytes and the header codec *)

Lemma wrap64_small z : 0 <= z < 2 ^ 64 -> wrap64 z = z.
Proof. intros H. unfold wrap64. now apply Z.mod_small. Qed.

Lemma wrap64_range z : 0 <= wrap64 z < 2 ^ 64.
Proof. unfold wrap64. apply Z.mod_pos_bound. lia. Qed.

Lemma load64_range m a : 0 <= load64 m a < 2 ^ 64.
Proof.
  unfold load64.
  pose proof (Z.mod_pos_bound (m a) 256).
  pose proof (Z.mod_pos_bound (m (a + 1)) 256).
  pose proof (Z.mod_pos_bound (m (a + 2)) 256).
  pose proof (Z.mod_pos_bound (m (a + 3)) 256).
  pose proof (Z.mod_pos_bound (m (a + 4)) 256).
  pose proof (Z.mod_pos_bound (m (a + 5)) 256).
  pose proof (Z.mod_pos_bound (m (a + 6)) 256).
  pose proof (Z.mod_pos_bound (m (a + 7)) 256).
  lia.
Qed.

Lemma store64_in m a v x :
  a <= x < a + 8 -> store64 m a v x = byte_of v (x - a).
Proof.
  intros H. unfold store64.
  replace ((a <=? x) && (x <? a + 8)) with true; [reflexivity|].
  symmetry. apply andb_true_iff. split; [apply Z.leb_le | apply Z.ltb_lt]; lia.
Qed.

Lemma store64_out m a v x :
  x < a \/ a + 8 <= x -> store64 m a v x = m x.
Proof.
  intros H. unfold store64.
  replace ((a <=? x) && (x <? a + 8)) with false; [reflexivity|].
  symmetry. apply andb_false_iff.
  destruct H; [left; apply Z.leb_gt | right; apply Z.ltb_ge]; lia.
Qed.

Lemma came_back_pair {A B : Type} (d : A * B) (o : option (A * B)) (b : B) :
  returned o = true -> snd (came_back d o) = b ->
  o = Some (fst (came_back d o), b).
Proof.
  destruct o as [[a b']|]; cbn; intros H1 H2; [subst; reflexivity | discriminate].
Qed.

Lemma memcpy_null m dst src n :
  dst = NULL \/ src = NULL -> memcpy m dst src n = None.
Proof.
  intros H. unfold memcpy.
  replace ((dst =? NULL) || (src =? NULL)) with true; [reflexivity|].
  symmetry. apply orb_true_iff.
  destruct H as [H | H]; [left | right]; apply Z.eqb_eq; exact H.
Qed.

Lemma memcpy_defined m dst src n :
  dst <> NULL -> src <> NULL -> dst + n <= src \/ src + n <= dst ->
  exists h,
    memcpy m dst src n = Some h
    /\ (forall i, 0 <= i < n -> h (dst + i) = m (src + i))
    /\ (forall a, a < dst \/ dst + n <= a -> h a = m a).
Proof.
  intros Hd Hs Hsep. unfold memcpy.
  apply Z.eqb_neq in Hd, Hs. rewrite Hd, Hs. cbn [orb].
  replace ((dst <? src + n) && (src <? dst + n)) with false.
  2:{ symmetry. apply andb_false_iff.
      destruct Hsep; [right | left]; apply Z.ltb_ge; lia. }
  eexists. split; [reflexivity|]. split.
  - intros i Hi.
    replace ((dst <=? dst + i) && (dst + i <? dst + n)) with true.
    + f_equal. lia.
    + symmetry. apply andb_true_iff.
      split; [apply Z.leb_le | apply Z.ltb_lt]; lia.
  - intros a Ha.
    replace ((dst <=? a) && (a <? dst + n)) with false; [reflexivity|].
    symmetry. apply andb_false_iff.
    destruct Ha; [left; apply Z.leb_gt | right; apply Z.ltb_ge]; lia.
Qed.

Lemma byte_of_mod v i : byte_of v i mod 256 = byte_of v i.
Proof. unfold byte_of. apply Z.mod_mod. lia. Qed.

Lemma recombine v k : 0 <= k ->
  v mod 2 ^ (k + 8) = v mod 2 ^ k + 2 ^ k * ((v / 2 ^ k) mod 256).
Proof.
  intros Hk. rewrite Z.pow_add_r by lia. change (2 ^ 8) with 256.
  apply Z.rem_mul_r; lia.
Qed.

Lemma load64_store64_same m a v : load64 (store64 m a v) a = wrap64 v.
Proof.
  unfold load64.
  rewrite !store64_in by lia.
  rewrite !byte_of_mod. unfold byte_of.
  replace (a - a) with 0 by lia.
  replace (a + 1 - a) with 1 by lia. replace (a + 2 - a) with 2 by lia.
  replace (a + 3 - a) with 3 by lia. replace (a + 4 - a) with 4 by lia.
  replace (a + 5 - a) with 5 by lia. replace (a + 6 - a) with 6 by lia.
  replace (a + 7 - a) with 7 by lia.
  unfold wrap64.
  replace (v mod 2 ^ 64) with (v mod 2 ^ (56 + 8)) by reflexivity.
  rewrite (recombine v 56) by lia.
  replace (v mod 2 ^ 56) with (v mod 2 ^ (48 + 8)) by reflexivity.
  rewrite (recombine v 48) by lia.
  replace (v mod 2 ^ 48) with (v mod 2 ^ (40 + 8)) by reflexivity.
  rewrite (recombine v 40) by lia.
  replace (v mod 2 ^ 40) with (v mod 2 ^ (32 + 8)) by reflexivity.
  rewrite (recombine v 32) by lia.
  replace (v mod 2 ^ 32) with (v mod 2 ^ (24 + 8)) by reflexivity.
  rewrite (recombine v 24) by lia.
  replace (v mod 2 ^ 24) with (v mod 2 ^ (16 + 8)) by reflexivity.
  rewrite (recombine v 16) by lia.
  replace (v mod 2 ^ 16) with (v mod 2 ^ (8 + 8)) by reflexivity.
  rewrite (recombine v 8) by lia.
  change (8 * 0) with 0. change (2 ^ 0) with 1. rewrite Z.div_1_r.
  change (v mod 2 ^ 8) with (v mod 256).
  reflexivity.
Qed.

Lemma load64_store64_other m a v a' :
  a' + 8 <= a \/ a + 8 <= a' -> load64 (store64 m a v) a' = load64 m a'.
Proof.
  intros H. unfold load64. rewrite !store64_out by lia. reflexivity.
Qed.

(** *** The header codec, arithmetically *)

Lemma low2_mod h : low2 h = h mod 4.
Proof. unfold low2. change 3 with (Z.ones 2). now rewrite Z.land_ones by lia. Qed.

Lemma land1_mod h : Z.land h 1 = h mod 2.
Proof. change 1 with (Z.ones 1) at 1. now rewrite Z.land_ones by lia. Qed.

Lemma shr2_div v : shr2 v = v / 4.
Proof. unfold shr2. now rewrite Z.shiftr_div_pow2 by lia. Qed.

Lemma shl2_mul s : shl2 s = 4 * (s mod 2 ^ 62).
Proof.
  unfold shl2, wrap64. rewrite Z.shiftl_mul_pow2 by lia.
  change (2 ^ 64) with (4 * 2 ^ 62). change (2 ^ 2) with 4.
  rewrite (Z.mul_comm s 4). apply Z.mul_mod_distr_l; lia.
Qed.

Lemma clear2_mul h : clear2 h = 4 * ((h / 4) mod 2 ^ 62).
Proof.
  unfold clear2.
  replace (2 ^ 64 - 4) with (Z.shiftl (Z.ones 62) 2) by reflexivity.
  replace (4 * ((h / 4) mod 2 ^ 62))
    with (Z.shiftl (Z.land (Z.shiftr h 2) (Z.ones 62)) 2).
  2:{ rewrite Z.land_ones by lia. rewrite Z.shiftl_mul_pow2 by lia.
      rewrite Z.shiftr_div_pow2 by lia. change (2 ^ 2) with 4. lia. }
  apply Z.bits_inj'. intros n Hn.
  rewrite Z.land_spec.
  destruct (Z.lt_ge_cases n 2) as [Hlt | Hge].
  - rewrite !Z.shiftl_spec_low by lia. apply andb_false_r.
  - rewrite !Z.shiftl_spec by lia. rewrite Z.land_spec.
    rewrite Z.shiftr_spec by lia. replace (n - 2 + 2) with n by lia.
    reflexivity.
Qed.

Lemma lor_low_high a k : 0 <= a < 4 -> Z.lor a (4 * k) = a + 4 * k.
Proof.
  intros Ha.
  assert (Hd : Z.land a (4 * k) = 0).
  { apply Z.bits_inj'. intros n Hn. rewrite Z.land_spec, Z.bits_0.
    destruct (Z.lt_ge_cases n 2) as [Hlt | Hge].
    - replace (4 * k) with (Z.shiftl k 2)
        by (rewrite Z.shiftl_mul_pow2 by lia; change (2 ^ 2) with 4; lia).
      rewrite Z.shiftl_spec_low by lia. apply andb_false_r.
    - replace a with (a mod 2 ^ 2) by (apply Z.mod_small; change (2 ^ 2) with 4; lia).
      rewrite Z.mod_pow2_bits_high by lia. reflexivity. }
  rewrite <- Z.lxor_lor by exact Hd. symmetry. now apply Z.add_nocarry_lxor.
Qed.

(** The word written by [set_hdr_size]. *)
Lemma size_word h s :
  Z.lor (low2 h) (shl2 s) = h mod 4 + 4 * (s mod 2 ^ 62).
Proof.
  rewrite low2_mod, shl2_mul. apply lor_low_high.
  apply Z.mod_pos_bound. lia.
Qed.

(** The word written by [set_hdr_status]. *)
Lemma status_word h status :
  0 <= status < 4 ->
  Z.lor (clear2 h) status = status + 4 * ((h / 4) mod 2 ^ 62).
Proof.
  intros Hs. rewrite clear2_mul, Z.lor_comm. now apply lor_low_high.
Qed.

Lemma size_word_range h s : 0 <= h mod 4 + 4 * (s mod 2 ^ 62) < 2 ^ 64.
Proof.
  pose proof (Z.mod_pos_bound h 4). pose proof (Z.mod_pos_bound s (2 ^ 62)).
  change (2 ^ 64) with (4 * 2 ^ 62). lia.
Qed.

(** *** Pointer arithmetic *)

Lemma wrap64_cases z :
  0 <= z < 2 ^ 65 -> wrap64 z = z \/ wrap64 z = z - 2 ^ 64.
Proof.
  intros H. unfold wrap64.
  destruct (Z.lt_ge_cases z (2 ^ 64)).
  - left. apply Z.mod_small. lia.
  - right. symmetry. apply Z.mod_unique with (q := 1); lia.
Qed.

Lemma get_hdr_payload base :
  0 <= base < 2 ^ 64 -> wrap64 (wrap64 (base + WIDTH) - WIDTH) = base.
Proof.
  intros H. unfold wrap64. rewrite Zminus_mod_idemp_l.
  replace (base + WIDTH - WIDTH) with base by lia. now apply Z.mod_small.
Qed.

Lemma shl2_shr2 s : shr2 (shl2 s) = s mod 2 ^ 62.
Proof. rewrite shr2_div, shl2_mul. rewrite Z.mul_comm. apply Z.div_mul. lia. Qed.

Lemma shl2_range s : 0 <= shl2 s < 2 ^ 64.
Proof. unfold shl2. apply wrap64_range. Qed.

Lemma shl2_even s : Z.land (shl2 s) 1 = 0.
Proof.
  rewrite land1_mod, shl2_mul.
  replace (4 * (s mod 2 ^ 62)) with ((2 * (s mod 2 ^ 62)) * 2) by lia.
  apply Z.mod_mul. lia.
Qed.

(** ** [myinit] *)

Lemma init_facts :
  forall m base size,
    Implicit.myinit m NULL size = None
    /\ Explicit.myinit m NULL size = None
    /\ (0 < base < 2 ^ 64 ->
        exists si se,
        Implicit.myinit m base size = Some (si, true)
        /\ Explicit.myinit m base size = Some (se, true)
        /\ Implicit.nblocks si = 1 /\ Implicit.nused si = 0
        /\ Implicit.start_block si = wrap64 (base + WIDTH)
        /\ Implicit.check_alloc si (Implicit.start_block si) = FREE
        /\ Implicit.get_block_size si (Implicit.start_block si)
           = wrap64 (size - WIDTH) mod 2 ^ 62
        /\ Explicit.nblocks se = 1 /\ Explicit.nused se = 0
        /\ Explicit.start_block se = wrap64 (base + WIDTH)
        /\ Explicit.last_free_block se = wrap64 (base + WIDTH)
        /\ Explicit.check_alloc se (Explicit.start_block se) = FREE
        /\ Explicit.get_block_size se (Explicit.start_block se)
           = wrap64 (size - WIDTH) mod 2 ^ 62
        /\ (8 <= size < 2 ^ 62 + 8 ->
            Implicit.get_block_size si (Implicit.start_block si) = size - 8
            /\ Explicit.get_block_size se (Explicit.start_block se) = size - 8)).
Proof.
  intros m base size. split; [reflexivity|]. split; [reflexivity|].
  intros Hb'.
  assert (Hb : 0 <= base < 2 ^ 64) by lia.
  assert (Hnz : (base =? NULL) = false) by (apply Z.eqb_neq; unfold NULL; lia).
  unfold Implicit.myinit, Explicit.myinit. rewrite Hnz.
  eexists. eexists. split; [reflexivity|]. split; [reflexivity|].
  match goal with |- context [Implicit.nblocks ?x] => set (si := x) end.
  match goal with |- context [Explicit.nblocks ?x] => set (se := x) end.
  assert (Hi : Implicit.get_block_size si (Implicit.start_block si)
               = wrap64 (size - WIDTH) mod 2 ^ 62).
  { unfold Implicit.get_block_size, Implicit.get_ul, Implicit.get_hdr; simpl.
    rewrite get_hdr_payload by exact Hb.
    rewrite load64_store64_same, (wrap64_small _ (shl2_range _)).
    apply shl2_shr2. }
  assert (Hfe : load64 (Explicit.heap se)
                  (Explicit.fld_block_size (Explicit.get_hdr (Explicit.start_block se)))
                = shl2 (wrap64 (size - WIDTH))).
  { unfold Explicit.get_hdr, Explicit.fld_block_size; simpl.
    rewrite get_hdr_payload by exact Hb.
    unfold Explicit.fld_next_ptr, Explicit.fld_prev_ptr, Explicit.fld_block_size.
    destruct (wrap64_cases (base + 16)) as [E16 | E16]; [lia | |];
      destruct (wrap64_cases (base + 8)) as [E8 | E8]; try lia;
      rewrite E16, E8;
      rewrite !load64_store64_other by lia;
      rewrite load64_store64_same; apply wrap64_small, shl2_range. }
  assert (He : Explicit.get_block_size se (Explicit.start_block se)
               = wrap64 (size - WIDTH) mod 2 ^ 62).
  { unfold Explicit.get_block_size. rewrite Hfe. apply shl2_shr2. }
  repeat split; try reflexivity; try assumption.
  - unfold Implicit.check_alloc, Implicit.get_ul, Implicit.get_hdr; simpl.
    rewrite get_hdr_payload by exact Hb.
    rewrite load64_store64_same, (wrap64_small _ (shl2_range _)).
    apply shl2_even.
  - unfold Explicit.check_alloc. rewrite Hfe. apply shl2_even.
  - rewrite Hi. unfold WIDTH. rewrite wrap64_small by lia. apply Z.mod_small. lia.
  - rewrite He. unfold WIDTH. rewrite wrap64_small by lia. apply Z.mod_small. lia.
Qed.

(** *** Reading back a header word *)

Lemma size_of_size_word h s :
  0 <= s < 2 ^ 62 -> shr2 (wrap64 (Z.lor (low2 h) (shl2 s))) = s.
Proof.
  intros Hs. rewrite size_word, (wrap64_small _ (size_word_range h s)).
  rewrite shr2_div, (Z.mod_small s) by lia.
  pose proof (Z.mod_pos_bound h 4). Z.div_mod_to_equations. lia.
Qed.

Lemma status_of_size_word h s :
  Z.land (wrap64 (Z.lor (low2 h) (shl2 s))) 1 = Z.land h 1.
Proof.
  rewrite size_word, (wrap64_small _ (size_word_range h s)).
  rewrite !land1_mod. Z.div_mod_to_equations. lia.
Qed.

Lemma status_word_range h status :
  0 <= status < 4 -> 0 <= status + 4 * ((h / 4) mod 2 ^ 62) < 2 ^ 64.
Proof.
  intros Hs. pose proof (Z.mod_pos_bound (h / 4) (2 ^ 62)).
  change (2 ^ 64) with (4 * 2 ^ 62). lia.
Qed.

Lemma size_of_status_word h status :
  0 <= h < 2 ^ 64 -> 0 <= status < 4 ->
  shr2 (wrap64 (Z.lor (clear2 h) status)) = shr2 h.
Proof.
  intros Hh Hs. rewrite status_word by exact Hs.
  rewrite (wrap64_small _ (status_word_range h status Hs)).
  rewrite !shr2_div.
  assert (h / 4 < 2 ^ 62) by (apply Z.div_lt_upper_bound; lia).
  rewrite (Z.mod_small (h / 4)) by (split; [apply Z.div_pos|]; lia).
  Z.div_mod_to_equations. lia.
Qed.

Lemma status_of_status_word h status :
  0 <= status < 2 ->
  Z.land (wrap64 (Z.lor (clear2 h) status)) 1 = status.
Proof.
  intros Hs. rewrite status_word by lia.
  rewrite wrap64_small by (apply status_word_range; lia).
  rewrite land1_mod. Z.div_mod_to_equations. lia.
Qed.

Lemma shr2_range h : 0 <= h < 2 ^ 64 -> 0 <= shr2 h < 2 ^ 62.
Proof.
  intros H. rewrite shr2_div. split.
  - apply Z.div_pos; lia.
  - apply Z.div_lt_upper_bound; lia.
Qed.

(** *** [round_up] *)

Lemma land_shifted_ones h j k : 0 <= j -> 0 <= k ->
  Z.land h (Z.shiftl (Z.ones k) j) = 2 ^ j * ((h / 2 ^ j) mod 2 ^ k).
Proof.
  intros Hj Hk.
  replace (2 ^ j * ((h / 2 ^ j) mod 2 ^ k))
    with (Z.shiftl (Z.land (Z.shiftr h j) (Z.ones k)) j).
  2:{ rewrite Z.land_ones by lia. rewrite Z.shiftl_mul_pow2 by lia.
      rewrite Z.shiftr_div_pow2 by lia. lia. }
  apply Z.bits_inj'. intros n Hn.
  rewrite Z.land_spec.
  destruct (Z.lt_ge_cases n j) as [Hlt | Hge].
  - rewrite !Z.shiftl_spec_low by lia. apply andb_false_r.
  - rewrite !Z.shiftl_spec by lia. rewrite Z.land_spec.
    rewrite Z.shiftr_spec by lia. replace (n - j + j) with n by lia.
    reflexivity.
Qed.

Lemma round8 x : Z.land x (2 ^ 64 - 8) = 8 * ((x / 8) mod 2 ^ 61).
Proof.
  replace (2 ^ 64 - 8) with (Z.shiftl (Z.ones 61) 3) by reflexivity.
  now rewrite land_shifted_ones by lia.
Qed.

Lemma round8_small x : 0 <= x < 2 ^ 64 -> Z.land x (2 ^ 64 - 8) = 8 * (x / 8).
Proof.
  intros H. rewrite round8. rewrite Z.mod_small; [reflexivity|].
  split; [apply Z.div_pos | apply Z.div_lt_upper_bound]; lia.
Qed.

Lemma E_round_up_range n : 16 <= Explicit.round_up n < 2 ^ 64.
Proof.
  unfold Explicit.round_up. rewrite round8_small by apply wrap64_range.
  pose proof (wrap64_range (n + WIDTH - 1)) as Hx.
  set (x := wrap64 (n + WIDTH - 1)) in *.
  destruct (Z.ltb_spec (8 * (x / 8)) 16); [lia|].
  split; [lia|]. Z.div_mod_to_equations. lia.
Qed.

Lemma I_round_up_range n : 0 <= Implicit.round_up n < 2 ^ 64.
Proof.
  unfold Implicit.round_up. rewrite round8_small by apply wrap64_range.
  pose proof (wrap64_range (n + WIDTH - 1)) as Hx.
  set (x := wrap64 (n + WIDTH - 1)) in *.
  Z.div_mod_to_equations. lia.
Qed.

Lemma E_size_range st p : 0 <= Explicit.get_block_size st p < 2 ^ 62.
Proof. unfold Explicit.get_block_size. apply shr2_range, load64_range. Qed.

(** ** The explicit allocator: effect of a successful [mymalloc]

    The setters that test for a null block pointer are rewritten as plain
    updates of the heap, so that a state after a call is the state before
    it with a chain of [store64] as heap; [mem_simpl] then resolves a load
    against that chain, the side conditions on addresses going to [lia]. *)

Lemma E_set_prev_ptr_eq st p v :
  Explicit.set_prev_ptr st p v
  = Explicit.set_heap st
      (if p =? NULL then Explicit.heap st
       else store64 (Explicit.heap st)
                    (Explicit.fld_prev_ptr (Explicit.get_hdr p)) v).
Proof.
  unfold Explicit.set_prev_ptr.
  destruct (p =? NULL); [now destruct st | reflexivity].
Qed.

Lemma E_set_next_ptr_eq st p v :
  Explicit.set_next_ptr st p v
  = Explicit.set_heap st
      (if p =? NULL then Explicit.heap st
       else store64 (Explicit.heap st)
                    (Explicit.fld_next_ptr (Explicit.get_hdr p)) v).
Proof.
  unfold Explicit.set_next_ptr.
  destruct (p =? NULL); [now destruct st | reflexivity].
Qed.

Lemma E_upd_last_free_block_eq st c b :
  Explicit.upd_last_free_block st c b
  = Explicit.set_last_free_block st
      (if Explicit.last_free_block st =? c then b else Explicit.last_free_block st).
Proof.
  unfold Explicit.upd_last_free_block.
  destruct (Explicit.last_free_block st =? c); [reflexivity | now destruct st].
Qed.

Ltac e_norm :=
  rewrite ?E_set_prev_ptr_eq, ?E_set_next_ptr_eq, ?E_upd_last_free_block_eq;
  unfold Explicit.create_hdr, Explicit.set_hdr_size, Explicit.set_hdr_status;
  cbn [Explicit.heap Explicit.nblocks Explicit.nused Explicit.last_free_block
       Explicit.segment_start Explicit.segment_size Explicit.start_block
       Explicit.set_heap Explicit.set_nblocks Explicit.set_nused
       Explicit.set_last_free_block fst snd].

Ltac unwrap :=
  repeat match goal with
         | |- context [wrap64 ?x] => rewrite (wrap64_small x) by lia
         end.

Lemma load64_store64_eq m a v a' :
  a = a' -> load64 (store64 m a v) a' = wrap64 v.
Proof. intros <-. apply load64_store64_same. Qed.

Ltac mem_simpl :=
  repeat match goal with
         | |- context [load64 (store64 ?m ?a ?v) ?a'] =>
             first [ rewrite (load64_store64_eq m a v a') by lia
                   | rewrite (load64_store64_other m a v a') by lia ]
         end.

Ltac e_addr :=
  unfold Explicit.fld_block_size, Explicit.fld_prev_ptr,
    Explicit.fld_next_ptr, Explicit.get_hdr, WIDTH;
  unwrap.

Lemma explicit_split_policy st n :
  let r := Explicit.round_up n in
  let p := snd (Explicit.mymalloc st n) in
  let st' := fst (Explicit.mymalloc st n) in
  let s := Explicit.get_block_size st p in
  p <> NULL -> 8 <= p -> p + s <= 2 ^ 64 -> r <= s ->
  Explicit.check_alloc st' p = ALLOC
  /\ (s - r < 24 ->
      Explicit.get_block_size st' p = s /\ Explicit.nblocks st' = Explicit.nblocks st)
  /\ (24 <= s - r ->
      Explicit.get_block_size st' p = r
      /\ Explicit.get_block_size st' (p + r + 8) = s - r - 8
      /\ Explicit.check_alloc st' (p + r + 8) = FREE
      /\ Explicit.nblocks st' = wrap64 (Explicit.nblocks st + 1)
      /\ Explicit.last_free_block st'
         = if Explicit.last_free_block st =? p then p + r + 8
           else Explicit.last_free_block st).
Proof.
  intros r p st' s. subst p st' s. unfold Explicit.mymalloc. fold r.
  destruct (n <=? 0); [cbn [fst snd]; congruence|].
  set (b := Explicit.first_fit st r).
  destruct (b =? NULL) eqn:Eb; [cbn [fst snd]; congruence|].
  pose proof (E_round_up_range n) as Hr. fold r in Hr.
  pose proof (E_size_range st b) as Hs.
  set (s := Explicit.get_block_size st b) in *.
  destruct (wrap64 (s - r) <? sizeof_header) eqn:Ediff.
  - (* the whole block is handed out *)
    assert (Hst : forall st1, Explicit.nblocks st1 = Explicit.nblocks st ->
      let st3 := Explicit.set_hdr_status (Explicit.set_hdr_size st1 b (wrap64 (wrap64 (s - r) + r))) b ALLOC in
      8 <= b -> r <= s ->
      Explicit.check_alloc (Explicit.set_nused st3 (wrap64 (Explicit.nused st3 + 1))) b = ALLOC
      /\ (s - r < 24 ->
          Explicit.get_block_size (Explicit.set_nused st3 (wrap64 (Explicit.nused st3 + 1))) b = s
          /\ Explicit.nblocks (Explicit.set_nused st3 (wrap64 (Explicit.nused st3 + 1))) = Explicit.nblocks st)
      /\ (24 <= s - r -> False)).
    { intros st1 Hn st3 H8 Hrs. subst st3.
      rewrite (wrap64_small (s - r)) in * by lia.
      apply Z.ltb_lt in Ediff; unfold sizeof_header in Ediff.
      replace (s - r + r) with s by lia. rewrite (wrap64_small s) by lia.
      unfold Explicit.check_alloc, Explicit.get_block_size. e_norm.
      rewrite !load64_store64_same.
      split; [apply status_of_status_word; unfold ALLOC; lia|].
      split; [intros _; split; [|exact Hn] | lia].
      rewrite size_of_status_word; [| apply wrap64_range | unfold ALLOC; lia].
      apply size_of_size_word. lia. }
    destruct (b =? Explicit.last_free_block st) eqn:El; cbn [fst snd]; fold s;
      intros Hp H8 Hend Hrs.
    + edestruct Hst as (H1 & H2 & H3); [| exact H8 | exact Hrs |].
      2:{ split; [exact H1|]. split; [exact H2|]. intros; exfalso; auto. }
      e_norm. reflexivity.
    + edestruct Hst as (H1 & H2 & H3); [| exact H8 | exact Hrs |].
      2:{ split; [exact H1|]. split; [exact H2|]. intros; exfalso; auto. }
      e_norm. reflexivity.
  - cbn [fst snd]. fold s. intros Hp H8 Hend Hrs.
    rewrite (wrap64_small (s - r)) in * by lia.
    apply Z.ltb_ge in Ediff; unfold sizeof_header in Ediff.
    unfold Explicit.create_partial_fb.
    unfold Explicit.check_alloc, Explicit.get_block_size. e_norm.
    split; [|split; [intros; lia|intros _]].
    + rewrite load64_store64_same. apply status_of_status_word. unfold ALLOC; lia.
    + e_addr. mem_simpl.
      repeat split.
      * rewrite size_of_status_word; [| apply wrap64_range | unfold ALLOC; lia].
        apply size_of_size_word. lia.
      * rewrite (wrap64_small _ (shl2_range _)), shl2_shr2.
        apply Z.mod_small. lia.
      * rewrite (wrap64_small _ (shl2_range _)). apply shl2_even.
Qed.

(** ** The implicit allocator: effect of a successful [mymalloc] *)

Ltac i_norm :=
  unfold Implicit.set_hdr_size, Implicit.set_hdr_status, Implicit.get_ul;
  cbn [Implicit.heap Implicit.nblocks Implicit.nused Implicit.bytes_used
       Implicit.segment_start Implicit.segment_end Implicit.segment_size
       Implicit.start_block Implicit.set_heap Implicit.set_nblocks
       Implicit.set_nused Implicit.set_bytes_used fst snd].

Ltac i_addr := unfold Implicit.get_hdr, WIDTH; unwrap.

Lemma I_size_range st p : 0 <= Implicit.get_block_size st p < 2 ^ 62.
Proof. unfold Implicit.get_block_size. apply shr2_range, load64_range. Qed.

Lemma implicit_split_policy st n st' p :
  Implicit.mymalloc st n = Some (st', p) ->
  let r := Implicit.round_up n in
  let s := Implicit.get_block_size st p in
  p <> NULL -> 8 <= p -> p + s + 8 <= 2 ^ 64 -> r <= s ->
  Implicit.check_alloc st' p = ALLOC
  /\ Implicit.get_block_size st' p = r
  /\ (s - r = 0 -> Implicit.nblocks st' = Implicit.nblocks st)
  /\ (8 <= s - r ->
      p + r + 8 < Implicit.segment_end st
      /\ Implicit.get_block_size st' (p + r + 8) = s - r - 8
      /\ Implicit.check_alloc st' (p + r + 8) = FREE
      /\ Implicit.nblocks st' = wrap64 (Implicit.nblocks st + 1)).
Proof.
  unfold Implicit.mymalloc. set (r := Implicit.round_up n).
  destruct (n <=? 0); [intros [= <- <-]; cbv zeta; congruence|].
  set (b := Implicit.first_fit st r).
  destruct (b =? NULL) eqn:Eb; [intros [= <- <-]; cbv zeta; congruence|].
  pose proof (I_round_up_range n) as Hr. fold r in Hr.
  pose proof (I_size_range st b) as Hs.
  set (s := Implicit.get_block_size st b) in *.
  assert (Hsz2 : r <= s ->
                 Implicit.get_block_size
                   (Implicit.set_hdr_status (Implicit.set_hdr_size st b r) b ALLOC) b = r).
  { intros Hrs. unfold Implicit.get_block_size. i_norm. rewrite !load64_store64_same.
    rewrite size_of_status_word; [| apply wrap64_range | unfold ALLOC; lia].
    apply size_of_size_word. lia. }
  assert (Hnb : 8 <= b -> b + s + 8 <= 2 ^ 64 -> r < s ->
                Implicit.get_next_block
                  (Implicit.set_hdr_status (Implicit.set_hdr_size st b r) b ALLOC) b
                = if b + r + 8 <? Implicit.segment_end st then b + r + 8 else NULL).
  { intros H8 Hend Hrs. unfold Implicit.get_next_block.
    rewrite (Hsz2 ltac:(lia)). unfold WIDTH. rewrite (wrap64_small (b + r + 8)) by lia. reflexivity. }
  destruct (0 <? wrap64 (s - r)) eqn:Ediff.
  - destruct (Implicit.get_next_block _ b =? NULL) eqn:Enull; [discriminate|].
    intros [= <- <-]. cbv zeta. fold s. intros Hp H8 Hend Hrs.
    rewrite (wrap64_small (s - r)) in * by lia.
    apply Z.ltb_lt in Ediff.
    specialize (Hsz2 Hrs). specialize (Hnb H8 Hend ltac:(lia)).
    rewrite Hnb in *. clear Hnb.
    destruct (b + r + 8 <? Implicit.segment_end st) eqn:Eend;
      [| rewrite Z.eqb_refl in Enull; discriminate].
    apply Z.ltb_lt in Eend.
    unfold Implicit.check_alloc, Implicit.get_block_size. i_norm. i_addr.
    mem_simpl.
    split; [apply status_of_status_word; unfold ALLOC; lia|].
    split.
    { rewrite size_of_status_word; [| apply wrap64_range | unfold ALLOC; lia].
      apply size_of_size_word. lia. }
    split; [intros; lia|]. intros Hd. unwrap.
    split; [exact Eend|].
    split; [|split; [|reflexivity]].
    * rewrite size_of_status_word; [| apply wrap64_range | unfold FREE; lia].
      apply size_of_size_word. lia.
    * apply status_of_status_word. unfold FREE; lia.
  - intros [= <- <-]. cbv zeta. fold s. intros Hp H8 Hend Hrs.
    rewrite (wrap64_small (s - r)) in * by lia.
    apply Z.ltb_ge in Ediff.
    unfold Implicit.check_alloc, Implicit.get_block_size. i_norm. mem_simpl.
    split; [apply status_of_status_word; unfold ALLOC; lia|].
    split; [|split; [reflexivity | intros; lia]].
    rewrite size_of_status_word; [| apply wrap64_range | unfold ALLOC; lia].
    apply size_of_size_word. lia.
Qed.

(** ** Claims *)

(** C10, at the failing runs.  [myinit] checks nothing about the region it
    is given, although its header comment promises false for a segment that
    is not available for use.  With a null [heap_start] it stores through
    the null pointer and faults, in both variants and for every size.  With
    a region of 0 bytes at a valid address it returns true and leaves one
    free block whose payload size reads [2^62 - 8], which is not
    [size - 8]; the code's own [validate_heap] rejects that heap in both
    variants.  And the explicit [myinit] writes its 24-byte header
    whatever the size: with a region of 8 bytes the 16 bytes after the
    region are overwritten. *)
Theorem init_accepts_unusable_region :
  (forall m size,
     Implicit.myinit m NULL size = None /\ Explicit.myinit m NULL size = None)
  /\ (let si := implicit_tiny in
      let se := explicit_tiny in
      Implicit.myinit zero_mem base0 0 = Some (si, true)
      /\ Explicit.myinit zero_mem base0 0 = Some (se, true)
      /\ Implicit.nblocks si = 1
      /\ Implicit.check_alloc si (Implicit.start_block si) = FREE
      /\ Implicit.get_block_size si (Implicit.start_block si) = 2 ^ 62 - 8
      /\ Implicit.validate_heap si = false
      /\ Explicit.nblocks se = 1
      /\ Explicit.check_alloc se (Explicit.start_block se) = FREE
      /\ Explicit.get_block_size se (Explicit.start_block se) = 2 ^ 62 - 8
      /\ Explicit.validate_heap 4 se = Some false)
  /\ (Explicit.myinit ff_mem base0 8 = Some (explicit_short, true)
      /\ load64 ff_mem (base0 + 8) = 2 ^ 64 - 1
      /\ load64 ff_mem (base0 + 16) = 2 ^ 64 - 1
      /\ load64 (Explicit.heap explicit_short) (base0 + 8) = 0
      /\ load64 (Explicit.heap explicit_short) (base0 + 16) = 0).
Proof.
  split; [intros m size; split; reflexivity|].
  split.
  - cbv zeta. split; [reflexivity|]. split; [reflexivity|].
    vm_compute. repeat split; reflexivity.
  - split; [reflexivity|]. vm_compute. repeat split; reflexivity.
Qed.

(** C4.  In both variants a [mymalloc] that returns the null pointer hands
    back the very state it was given: every global and every byte of the
    store is as before.  A request of zero bytes always takes that path. *)
Theorem malloc_failure_atomic :
  (forall st n st', Implicit.mymalloc st n = Some (st', NULL) -> st' = st)
  /\ (forall st n, snd (Explicit.mymalloc st n) = NULL ->
                   fst (Explicit.mymalloc st n) = st)
  /\ (forall st, Implicit.mymalloc st 0 = Some (st, NULL))
  /\ (forall st, Explicit.mymalloc st 0 = (st, NULL)).
Proof.
  split; [|split; [|split; reflexivity]].
  - intros st n st'. unfold Implicit.mymalloc.
    destruct (n <=? 0); [intros [= <-]; reflexivity|].
    destruct (Implicit.first_fit st (Implicit.round_up n) =? NULL) eqn:E;
      [intros [= <-]; reflexivity|].
    apply Z.eqb_neq in E.
    destruct (0 <? _); [destruct (_ =? NULL); [discriminate|]|];
      intros [= _ H]; contradiction.
  - intros st n. unfold Explicit.mymalloc.
    destruct (n <=? 0); [reflexivity|].
    destruct (Explicit.first_fit st (Explicit.round_up n) =? NULL) eqn:E;
      [reflexivity|].
    match goal with |- context [let '(_, _) := ?c in _] => destruct c end.
    cbn [fst snd]. intros H. apply Z.eqb_neq in E. contradiction.
Qed.

(** C8.  In both variants [myrealloc(NULL, n)] is [mymalloc(n)], and
    [myrealloc(p, 0)] with [p] not null is [myfree(p)] followed by a null
    result. *)
Theorem realloc_degenerate_arguments :
  (forall st n, Implicit.myrealloc st NULL n = Implicit.mymalloc st n)
  /\ (forall st n, Explicit.myrealloc st NULL n = Some (Explicit.mymalloc st n))
  /\ (forall st p, p <> NULL ->
        Implicit.myrealloc st p 0 = Some (Implicit.myfree st p, NULL))
  /\ (forall st p, p <> NULL ->
        Explicit.myrealloc st p 0 = Some (Explicit.myfree st p, NULL)).
Proof.
  split; [reflexivity|]. split; [reflexivity|].
  split; intros st p Hp.
  - unfold Implicit.myrealloc. apply Z.eqb_neq in Hp. now rewrite Hp.
  - unfold Explicit.myrealloc. apply Z.eqb_neq in Hp. now rewrite Hp.
Qed.

Lemma malloc_failure_atomic_witness :
  fst (came_back (Implicit.myfree implicit_fresh (base0 + 8), NULL)
                 (Implicit.mymalloc implicit_fresh 5000)) = implicit_fresh
  /\ fst (Explicit.mymalloc explicit_fresh 5000) = explicit_fresh.
Proof.
  split.
  - apply (proj1 malloc_failure_atomic implicit_fresh 5000).
    apply came_back_pair; vm_compute; reflexivity.
  - apply (proj1 (proj2 malloc_failure_atomic)). vm_compute. reflexivity.
Defined.

Lemma realloc_degenerate_arguments_witness :
  Implicit.myrealloc implicit_fresh (base0 + 8) 0
  = Some (Implicit.myfree implicit_fresh (base0 + 8), NULL)
  /\ Explicit.myrealloc explicit_fresh (base0 + 8) 0
     = Some (Explicit.myfree explicit_fresh (base0 + 8), NULL).
Proof.
  split.
  - apply (proj1 (proj2 (proj2 realloc_degenerate_arguments))).
    vm_compute. discriminate.
  - apply (proj2 (proj2 (proj2 realloc_degenerate_arguments))).
    vm_compute. discriminate.
Defined.

(** *** Shrinking [myrealloc] *)

Lemma E_round_up_fits m c :
  0 < m <= c -> 16 <= c < 2 ^ 62 -> c mod 8 = 0 ->
  m <= Explicit.round_up m <= c.
Proof.
  intros Hm Hc H8. unfold Explicit.round_up, WIDTH.
  rewrite (wrap64_small (m + 8 - 1)) by lia.
  rewrite round8_small by lia.
  destruct (Z.ltb_spec (8 * ((m + 8 - 1) / 8)) 16);
    Z.div_mod_to_equations; lia.
Qed.

Lemma explicit_shrink_in_place st p m :
  let c := Explicit.get_block_size st p in
  let r := Explicit.round_up m in
  8 <= p -> p + c <= 2 ^ 64 ->
  0 < m <= c -> 16 <= c -> c mod 8 = 0 ->
  tail_clear_of st p c ->
  exists st',
    Explicit.myrealloc st p m = Some (st', p)
    /\ (forall a, p <= a < p + m -> Explicit.heap st' a = Explicit.heap st a)
    /\ Explicit.check_alloc st' p = Explicit.check_alloc st p
    /\ (c - r < 24 -> st' = st)
    /\ (24 <= c - r ->
        Explicit.get_block_size st' p = r
        /\ Explicit.get_block_size st' (p + r + 8) = c - r - 8
        /\ Explicit.check_alloc st' (p + r + 8) = FREE
        /\ Explicit.nblocks st' = wrap64 (Explicit.nblocks st + 1)
        /\ Explicit.last_free_block st' = p + r + 8).
Proof.
  intros c r H8 Hend Hm Hc Hmod Htail.
  pose proof (E_size_range st p) as Hs. fold c in Hs.
  pose proof (E_round_up_fits m c Hm (conj Hc (proj2 Hs)) Hmod) as Hr.
  fold r in Hr.
  unfold Explicit.myrealloc.
  replace (p =? NULL) with false by (symmetry; apply Z.eqb_neq; unfold NULL; lia).
  replace (m =? 0) with false by (symmetry; apply Z.eqb_neq; lia).
  fold c r.
  replace (r <=? c) with true by (symmetry; apply Z.leb_le; lia).
  rewrite (wrap64_small (c - r)) by lia.
  destruct (sizeof_header <=? c - r) eqn:Ed.
  2:{ apply Z.leb_gt in Ed. unfold sizeof_header in Ed.
      eexists. split; [reflexivity|]. split; [reflexivity|].
      split; [reflexivity|]. split; [reflexivity | intros; lia]. }
  apply Z.leb_le in Ed. unfold sizeof_header in Ed.
  eexists. split; [reflexivity|].
  unfold Explicit.check_alloc, Explicit.get_block_size, Explicit.change_to_free.
  e_norm.
  unfold Explicit.fld_block_size, Explicit.get_hdr, WIDTH.
  rewrite (wrap64_small (p - 8)), (wrap64_small (p + r + 8)),
    (wrap64_small (p + r + 8 - 8)) by lia.
  unfold Explicit.fld_next_ptr, Explicit.fld_prev_ptr.
  rewrite (wrap64_small (p + r + 8 - 8 + 8)), (wrap64_small (p + r + 8 - 8 + 16)) by lia.
  replace (p + r + 8 =? NULL) with false
    by (symmetry; apply Z.eqb_neq; unfold NULL; lia).
  rewrite (wrap64_small (c - r - 8)) by lia.
  assert (Hl : Explicit.last_free_block st = NULL
               \/ Explicit.last_free_block st <> NULL
                  /\ wrap64 (wrap64 (Explicit.last_free_block st - 8) + 16)
                     = Explicit.last_free_block st + 8
                  /\ (Explicit.last_free_block st + 24 <= p
                      \/ p + c + 8 <= Explicit.last_free_block st)).
  { unfold tail_clear_of, block_clear_of in Htail.
    destruct Htail as [Hl | (Hl8 & Hl64 & Hl)]; [now left | right].
    split; [unfold NULL; lia|]. split; [|exact Hl].
    rewrite (wrap64_small (Explicit.last_free_block st - 8)) by lia.
    rewrite wrap64_small by lia. lia. }
  destruct Hl as [Hl | (Hl & Ha & Hd)].
  - rewrite Hl. cbn [Z.eqb NULL].
    split; [intros a Ha; rewrite !store64_out by lia; reflexivity|].
    mem_simpl.
    split; [apply status_of_size_word|].
    split; [intros; lia|]. intros _.
    repeat split.
    + apply size_of_size_word. lia.
    + rewrite size_of_size_word by lia. reflexivity.
    + rewrite status_of_size_word. apply status_of_status_word. unfold FREE; lia.
  - apply Z.eqb_neq in Hl. rewrite Hl, Ha.
    split; [intros a Hx; rewrite !store64_out by lia; reflexivity|].
    mem_simpl.
    split; [apply status_of_size_word|].
    split; [intros; lia|]. intros _.
    repeat split.
    + apply size_of_size_word. lia.
    + rewrite size_of_size_word by lia. reflexivity.
    + rewrite status_of_size_word. apply status_of_status_word. unfold FREE; lia.
Qed.

(** C5 (amended).  A successful [mymalloc] with rounded request [r], served
    from a free block [p] of payload size [s >= r], marks [p] allocated.
    Explicit variant: with [s - r < 24] the whole block is handed out, its
    payload size stays [s] and no block is created; otherwise [p] keeps
    payload size [r] and a free block of payload [s - r - 8] is created at
    [p + r + 8], taking over [p]'s place as tail of the free list if [p] was
    the tail.  Implicit variant: [p] always gets payload size [r]; the block
    is split as soon as [s - r > 0], the new free block at [p + r + 8]
    (an address below the segment end, or the call would not have come
    back) having payload [s - r - 8], and no block is created only when
    [s = r]. *)
Theorem malloc_splitting_policy :
  (forall st n,
     let r := Explicit.round_up n in
     let p := snd (Explicit.mymalloc st n) in
     let st' := fst (Explicit.mymalloc st n) in
     let s := Explicit.get_block_size st p in
     p <> NULL -> 8 <= p -> p + s <= 2 ^ 64 -> r <= s ->
     Explicit.check_alloc st' p = ALLOC
     /\ (s - r < 24 ->
         Explicit.get_block_size st' p = s
         /\ Explicit.nblocks st' = Explicit.nblocks st)
     /\ (24 <= s - r ->
         Explicit.get_block_size st' p = r
         /\ Explicit.get_block_size st' (p + r + 8) = s - r - 8
         /\ Explicit.check_alloc st' (p + r + 8) = FREE
         /\ Explicit.nblocks st' = wrap64 (Explicit.nblocks st + 1)
         /\ Explicit.last_free_block st'
            = if Explicit.last_free_block st =? p then p + r + 8
              else Explicit.last_free_block st))
  /\ (forall st n st' p,
        Implicit.mymalloc st n = Some (st', p) ->
        let r := Implicit.round_up n in
        let s := Implicit.get_block_size st p in
        p <> NULL -> 8 <= p -> p + s + 8 <= 2 ^ 64 -> r <= s ->
        Implicit.check_alloc st' p = ALLOC
        /\ Implicit.get_block_size st' p = r
        /\ (s - r = 0 -> Implicit.nblocks st' = Implicit.nblocks st)
        /\ (8 <= s - r ->
            p + r + 8 < Implicit.segment_end st
            /\ Implicit.get_block_size st' (p + r + 8) = s - r - 8
            /\ Implicit.check_alloc st' (p + r + 8) = FREE
            /\ Implicit.nblocks st' = wrap64 (Implicit.nblocks st + 1))).
Proof.
  split; [exact explicit_split_policy | exact implicit_split_policy].
Qed.

Lemma malloc_splitting_policy_witness :
  (Explicit.get_block_size (fst explicit_malloc100) (base0 + 8) = 104
   /\ Explicit.get_block_size (fst explicit_malloc100) (base0 + 8 + 104 + 8)
      = 4088 - 104 - 8)
  /\ (Implicit.get_block_size (fst implicit_hole16_malloc8) (base0 + 8) = 8
      /\ Implicit.get_block_size (fst implicit_hole16_malloc8)
           (base0 + 8 + 8 + 8) = 16 - 8 - 8).
Proof.
  split.
  - assert (Hp : snd (Explicit.mymalloc explicit_fresh 100) <> NULL)
      by (vm_compute; discriminate).
    assert (H8 : 8 <= snd (Explicit.mymalloc explicit_fresh 100))
      by (vm_compute; discriminate).
    assert (Hend : snd (Explicit.mymalloc explicit_fresh 100)
                   + Explicit.get_block_size explicit_fresh
                       (snd (Explicit.mymalloc explicit_fresh 100)) <= 2 ^ 64)
      by (vm_compute; discriminate).
    assert (Hrs : Explicit.round_up 100
                  <= Explicit.get_block_size explicit_fresh
                       (snd (Explicit.mymalloc explicit_fresh 100)))
      by (vm_compute; discriminate).
    destruct (proj1 malloc_splitting_policy explicit_fresh 100 Hp H8 Hend Hrs)
      as (_ & _ & Hsplit).
    assert (Hd : 24 <= Explicit.get_block_size explicit_fresh
                          (snd (Explicit.mymalloc explicit_fresh 100))
                        - Explicit.round_up 100)
      by (vm_compute; discriminate).
    destruct (Hsplit Hd) as (Hs1 & Hs2 & _).
    split; [exact Hs1 | exact Hs2].
  - assert (Hm : Implicit.mymalloc implicit_hole16 8
                 = Some (fst implicit_hole16_malloc8, base0 + 8))
      by (apply came_back_pair; vm_compute; reflexivity).
    assert (Hp : base0 + 8 <> NULL) by (vm_compute; discriminate).
    assert (H8 : 8 <= base0 + 8) by (vm_compute; discriminate).
    assert (Hend : base0 + 8
                   + Implicit.get_block_size implicit_hole16 (base0 + 8) + 8
                   <= 2 ^ 64)
      by (vm_compute; discriminate).
    assert (Hrs : Implicit.round_up 8
                  <= Implicit.get_block_size implicit_hole16 (base0 + 8))
      by (vm_compute; discriminate).
    destruct (proj2 malloc_splitting_policy implicit_hole16 8 _ _ Hm
                Hp H8 Hend Hrs)
      as (_ & Hs1 & _ & Hsplit).
    assert (Hd : 8 <= Implicit.get_block_size implicit_hole16 (base0 + 8)
                       - Implicit.round_up 8)
      by (vm_compute; discriminate).
    destruct (Hsplit Hd) as (_ & Hs2 & _).
    split; [exact Hs1 | exact Hs2].
Defined.

(** C5 as stated fails in the implicit variant: a request of 8 bytes served
    from a free block of payload 16 has [delta = 8 < 24], yet the block is
    split: it keeps payload 8, not 16, and the block count grows by one. *)
Lemma implicit_splits_below_24_counterexample :
  let st := implicit_hole16 in
  let p := snd implicit_hole16_malloc8 in
  let st' := fst implicit_hole16_malloc8 in
  let s := Implicit.get_block_size st p in
  let r := Implicit.round_up 8 in
  Implicit.mymalloc st 8 = Some (st', p)
  /\ p <> NULL /\ Implicit.check_alloc st p = FREE /\ s = 16 /\ r = 8
  /\ s - r < 24
  /\ Implicit.get_block_size st' p <> s
  /\ Implicit.nblocks st' = Implicit.nblocks st + 1.
Proof.
  cbv zeta.
  split; [apply came_back_pair; vm_compute; reflexivity|].
  vm_compute. repeat split; discriminate.
Qed.




(** *** The first request after [myinit] *)

Lemma explicit_first_fit_fresh m base size r st b :
  Explicit.myinit m base size = Some (st, b) ->
  0 < base < 2 ^ 64 -> 8 <= size < 2 ^ 62 + 8 -> r <= size - 8 ->
  Explicit.first_fit st r = wrap64 (base + WIDTH).
Proof.
  intros Hinit Hb Hsz Hr.
  destruct (init_facts m base size) as (_ & _ & Hf).
  destruct (Hf Hb) as (si & se & _ & Hie & _ & _ & _ & _ & _
                       & Hnb & Hnu & Hsb & Hlf & Hca & _ & Hsize).
  rewrite Hie in Hinit. injection Hinit as <- _.
  destruct (Hsize Hsz) as (_ & Hse).
  unfold Explicit.first_fit. rewrite Hnb, Hnu, Hlf.
  replace (Z.to_nat (wrap64 (1 - 0))) with 1%nat by reflexivity.
  cbn [Explicit.first_fit_loop].
  rewrite Hsb in Hse, Hca. rewrite Hse, Hca.
  replace (r <=? size - 8) with true by (symmetry; apply Z.leb_le; lia).
  reflexivity.
Qed.

(** C7 (amended).  Explicit variant, fresh region of 4096 bytes at an
    8-byte aligned [base] that is not null, any contents: [p = mymalloc(100)] is [base + 8]
    with payload size 104 (the request rounded up to a multiple of 8);
    [myrealloc(p, 32)] returns [p], leaves [p] allocated with payload size
    32, and the block immediately to the right of [p], at [p + 40], is a new
    free block of payload size 104 - 32 - 8 = 64; the heap has 3 blocks. *)
Theorem shrink_split_scenario :
  forall m base,
    0 < base -> base + 4096 <= 2 ^ 64 -> base mod 8 = 0 ->
    exists st0,
    Explicit.myinit m base 4096 = Some (st0, true) /\
    let st1 := fst (Explicit.mymalloc st0 100) in
    let p := snd (Explicit.mymalloc st0 100) in
    p = base + 8
    /\ Explicit.get_block_size st1 p = 104
    /\ exists st2,
         Explicit.myrealloc st1 p 32 = Some (st2, p)
         /\ Explicit.check_alloc st2 p = ALLOC
         /\ Explicit.get_block_size st2 p = 32
         /\ Explicit.get_next_block st2 p = p + 40
         /\ Explicit.check_alloc st2 (p + 40) = FREE
         /\ Explicit.get_block_size st2 (p + 40) = 64
         /\ Explicit.last_free_block st2 = p + 40
         /\ Explicit.nblocks st2 = 3.
Proof.
  intros m base Hb Hend Hal.
  assert (Hb' : 0 < base < 2 ^ 64) by lia.
  destruct (init_facts m base 4096) as (_ & _ & Hf).
  destruct (Hf Hb') as (si & st0 & _ & Hinit & _ & _ & _ & _ & _
                        & Hnb & Hnu & Hsb & Hlf & Hca & _ & Hsize).
  destruct Hsize as (_ & Hse); [lia|].
  exists st0. split; [exact Hinit|]. intros st1 p.
  unfold WIDTH in Hsb, Hlf. rewrite (wrap64_small (base + 8)) in Hsb, Hlf by lia.
  rewrite Hsb in Hse, Hca.
  assert (Hr100 : Explicit.round_up 100 = 104) by reflexivity.
  assert (Hr32 : Explicit.round_up 32 = 32) by reflexivity.
  assert (Hp : p = base + 8).
  { subst p. unfold Explicit.mymalloc. cbn [Z.leb Z.compare].
    rewrite Hr100.
    rewrite (explicit_first_fit_fresh m base 4096 104 st0 true Hinit) by lia.
    unfold WIDTH. rewrite (wrap64_small (base + 8)) by lia.
    replace (base + 8 =? NULL) with false
      by (symmetry; apply Z.eqb_neq; unfold NULL; lia).
    match goal with |- context [let '(_, _) := ?c in _] => destruct c end.
    reflexivity. }
  pose proof (explicit_split_policy st0 100) as Hm.
  cbv zeta in Hm. fold p st1 in Hm. rewrite Hr100, Hp, Hse in Hm.
  destruct Hm as (Halloc & _ & Hsplit); [unfold NULL; lia | lia | lia | lia |].
  destruct Hsplit as (Hs1 & Hs2 & Hs3 & Hs4 & Hs5); [lia|].
  rewrite Hlf, Z.eqb_refl in Hs5. rewrite Hnb in Hs4.
  split; [exact Hp|]. rewrite Hp. split; [exact Hs1|].
  pose proof (explicit_shrink_in_place st1 (base + 8) 32) as Hre.
  cbv zeta in Hre. rewrite Hr32, Hs1 in Hre.
  destruct Hre as (st2 & Hre & _ & Hst & _ & Hshr); try lia.
  { reflexivity. }
  { unfold tail_clear_of, block_clear_of. rewrite Hs5. right. lia. }
  destruct Hshr as (Hz1 & Hz2 & Hz3 & Hz4 & Hz5); [lia|].
  exists st2. split; [exact Hre|].
  split; [rewrite Hst; exact Halloc|].
  split; [exact Hz1|].
  split; [unfold Explicit.get_next_block; rewrite Hz1; unfold WIDTH;
          rewrite wrap64_small by lia; lia|].
  replace (base + 8 + 40) with (base + 8 + 32 + 8) by lia.
  split; [exact Hz3|]. split; [exact Hz2|]. split; [exact Hz5|].
  rewrite Hz4, Hs4. reflexivity.
Qed.

Lemma shrink_split_scenario_witness :
  let st1 := fst explicit_malloc100 in
  let p := snd explicit_malloc100 in
  p = base0 + 8
  /\ exists st2,
       Explicit.myrealloc st1 p 32 = Some (st2, p)
       /\ Explicit.get_block_size st2 p = 32
       /\ Explicit.get_block_size st2 (p + 40) = 64.
Proof.
  destruct (shrink_split_scenario zero_mem base0)
    as (st0 & Hinit & Hp & _ & st2 & H1 & _ & H2 & _ & _ & H3 & _).
  - unfold base0. lia.
  - unfold base0. lia.
  - reflexivity.
  - assert (E : explicit_fresh = st0)
      by (unfold explicit_fresh; rewrite Hinit; reflexivity).
    unfold explicit_malloc100. rewrite E.
    split; [exact Hp|]. exists st2. split; [exact H1|]. split; [exact H2 | exact H3].
Defined.

(** C7 as stated fails: after [p = mymalloc(100)] and [myrealloc(p, 32)] on
    the fresh 4096-byte region the block to the right of [p] is free with
    payload size 64, not 60: [mymalloc] had rounded the 100 bytes up to
    104. *)
Lemma shrink_split_scenario_counterexample :
  let st1 := fst explicit_malloc100 in
  let p := snd explicit_malloc100 in
  match Explicit.myrealloc st1 p 32 with
  | Some (st2, q) =>
      q = p /\ Explicit.get_block_size st2 p = 32
      /\ Explicit.check_alloc st2 (Explicit.get_next_block st2 p) = FREE
      /\ Explicit.get_block_size st2 (Explicit.get_next_block st2 p) = 64
      /\ Explicit.get_block_size st2 (Explicit.get_next_block st2 p) <> 60
  | None => False
  end.
Proof. vm_compute. repeat split; discriminate. Qed.

(** *** The effect of [myfree] in the explicit variant *)

Lemma clear_link_addrs x p c :
  block_clear_of x p c -> (x =? NULL) = false ->
  Explicit.fld_prev_ptr (Explicit.get_hdr x) = x
  /\ Explicit.fld_next_ptr (Explicit.get_hdr x) = x + 8
  /\ (x + 24 <= p \/ p + c + 8 <= x).
Proof.
  intros [H | (H8 & H64 & Hd)] Hx; apply Z.eqb_neq in Hx; [contradiction|].
  unfold Explicit.fld_prev_ptr, Explicit.fld_next_ptr, Explicit.get_hdr, WIDTH.
  rewrite (wrap64_small (x - 8)) by lia.
  rewrite !wrap64_small by lia. repeat split; lia.
Qed.

Lemma explicit_free_coalesces st p :
  let q := Explicit.get_next_block st p in
  let sp := Explicit.get_block_size st p in
  let sq := Explicit.get_block_size st q in
  let st' := Explicit.myfree st p in
  8 <= p -> 16 <= sp -> p + sp + 8 < 2 ^ 64 -> sp + sq + 8 < 2 ^ 62 ->
  Explicit.check_alloc st q = FREE ->
  block_clear_of (Explicit.get_prev_free st q) p sp ->
  block_clear_of (Explicit.get_next_free st q) p sp ->
  Explicit.check_alloc st' p = FREE
  /\ Explicit.get_block_size st' p = sp + 8 + sq
  /\ Explicit.get_prev_free st' p = Explicit.get_prev_free st q
  /\ Explicit.get_next_free st' p = Explicit.get_next_free st q
  /\ Explicit.nblocks st' = wrap64 (Explicit.nblocks st - 1)
  /\ Explicit.nused st' = wrap64 (Explicit.nused st - 1)
  /\ Explicit.last_free_block st'
     = if Explicit.last_free_block st =? q then p else Explicit.last_free_block st.
Proof.
  intros q sp sq st' H8 H16 Hend Hfit Hq Hcp Hcn. subst st'.
  pose proof (E_size_range st p) as Hsp. fold sp in Hsp.
  pose proof (E_size_range st q) as Hsq. fold sq in Hsq.
  assert (Eq : q = p + sp + 8).
  { subst q. unfold Explicit.get_next_block. fold sp. unfold WIDTH.
    apply wrap64_small. lia. }
  assert (Ep : (p =? NULL) = false) by (apply Z.eqb_neq; unfold NULL; lia).
  unfold Explicit.myfree. rewrite Ep. fold q. rewrite Hq. cbn [Z.eqb FREE].
  unfold Explicit.coalesce. fold q.
  set (np := Explicit.get_prev_free st q) in *.
  set (nn := Explicit.get_next_free st q) in *.
  assert (Hs1 : Explicit.get_block_size (Explicit.set_hdr_status st p FREE) p = sp).
  { unfold Explicit.get_block_size. e_norm. rewrite load64_store64_same.
    apply size_of_status_word; [apply load64_range | unfold FREE; lia]. }
  assert (Hs2 : Explicit.get_block_size (Explicit.set_hdr_status st p FREE) q = sq).
  { unfold sq, Explicit.get_block_size. e_norm. rewrite Eq. e_addr.
    rewrite load64_store64_other by lia. reflexivity. }
  rewrite Hs1, Hs2. unfold WIDTH. rewrite (wrap64_small (sp + sq + 8)) by lia.
  unfold Explicit.check_alloc, Explicit.get_block_size, Explicit.get_prev_free,
    Explicit.get_next_free.
  e_norm. rewrite Ep.
  assert (Ha : Explicit.fld_block_size (Explicit.get_hdr p) = p - 8
               /\ Explicit.fld_prev_ptr (Explicit.get_hdr p) = p
               /\ Explicit.fld_next_ptr (Explicit.get_hdr p) = p + 8).
  { e_addr. lia. }
  destruct Ha as (Ha1 & Ha2 & Ha3). rewrite Ha1, Ha2, Ha3.
  destruct (np =? NULL) eqn:Enp; destruct (nn =? NULL) eqn:Enn.
  all: try (destruct (clear_link_addrs np p sp Hcp Enp) as (Hp1 & Hp2 & Hp3);
            rewrite ?Hp1, ?Hp2).
  all: try (destruct (clear_link_addrs nn p sp Hcn Enn) as (Hn1 & Hn2 & Hn3);
            rewrite ?Hn1, ?Hn2).
  all: mem_simpl.
  all: rewrite status_of_size_word, status_of_status_word by (unfold FREE; lia).
  all: rewrite size_of_size_word by lia.
  all: repeat split; try lia.
  all: apply wrap64_small.
  all: try (subst np; unfold Explicit.get_prev_free;
            destruct (q =? NULL); [unfold NULL; lia | apply load64_range]).
  all: subst nn; unfold Explicit.get_next_free;
    destruct (q =? NULL); [unfold NULL; lia | apply load64_range].
Qed.

Lemma explicit_free_links_at_tail st p :
  let q := Explicit.get_next_block st p in
  let sp := Explicit.get_block_size st p in
  let st' := Explicit.myfree st p in
  8 <= p -> p + 16 <= 2 ^ 64 ->
  Explicit.check_alloc st q <> FREE ->
  tail_clear_of st p sp ->
  Explicit.check_alloc st' p = FREE
  /\ Explicit.get_block_size st' p = sp
  /\ Explicit.get_prev_free st' p = Explicit.last_free_block st
  /\ Explicit.get_next_free st' p = NULL
  /\ Explicit.nblocks st' = Explicit.nblocks st
  /\ Explicit.nused st' = wrap64 (Explicit.nused st - 1)
  /\ Explicit.last_free_block st' = p.
Proof.
  intros q sp st' H8 Hend Hq Htail. subst st'.
  pose proof (E_size_range st p) as Hsp. fold sp in Hsp.
  assert (Ep : (p =? NULL) = false) by (apply Z.eqb_neq; unfold NULL; lia).
  unfold Explicit.myfree. rewrite Ep. fold q.
  apply Z.eqb_neq in Hq. unfold FREE in Hq. rewrite Hq.
  unfold Explicit.change_to_free.
  unfold Explicit.check_alloc, Explicit.get_block_size, Explicit.get_prev_free,
    Explicit.get_next_free.
  e_norm. rewrite Ep.
  assert (Ha : Explicit.fld_block_size (Explicit.get_hdr p) = p - 8
               /\ Explicit.fld_prev_ptr (Explicit.get_hdr p) = p
               /\ Explicit.fld_next_ptr (Explicit.get_hdr p) = p + 8).
  { e_addr. lia. }
  destruct Ha as (Ha1 & Ha2 & Ha3). rewrite Ha1, Ha2, Ha3.
  assert (Hl : 0 <= Explicit.last_free_block st < 2 ^ 64).
  { destruct Htail as [Hl | (Hl8 & Hl64 & _)]; [rewrite Hl; unfold NULL|]; lia. }
  destruct (Explicit.last_free_block st =? NULL) eqn:El.
  all: try (destruct (clear_link_addrs _ p sp Htail El) as (Hp1 & Hp2 & Hp3);
            rewrite ?Hp1, ?Hp2).
  all: mem_simpl.
  all: rewrite status_of_status_word by (unfold FREE; lia).
  all: rewrite size_of_status_word by (try apply load64_range; unfold FREE; lia).
  all: assert (Hsz : shr2 (load64 (Explicit.heap st) (p - 8)) = sp)
         by (unfold sp, Explicit.get_block_size; rewrite Ha1; reflexivity).
  all: repeat split; try reflexivity; try exact Hsz.
  all: apply wrap64_small; exact Hl.
Qed.

Lemma explicit_free_coalesce_links st p :
  let q := Explicit.get_next_block st p in
  let sp := Explicit.get_block_size st p in
  let sq := Explicit.get_block_size st q in
  let st' := Explicit.myfree st p in
  let np := Explicit.get_prev_free st q in
  let nn := Explicit.get_next_free st q in
  8 <= p -> 16 <= sp -> p + sp + 8 < 2 ^ 64 -> sp + sq + 8 < 2 ^ 62 ->
  Explicit.check_alloc st q = FREE ->
  block_clear_of np p sp -> block_clear_of nn p sp ->
  np = NULL \/ nn = NULL \/ np + 24 <= nn \/ nn + 24 <= np ->
  (np <> NULL -> Explicit.get_next_free st' np = p)
  /\ (nn <> NULL -> Explicit.get_prev_free st' nn = p).
Proof.
  intros q sp sq st' np nn H8 H16 Hend Hfit Hq Hcp Hcn Hsep. subst st'.
  pose proof (E_size_range st p) as Hsp. fold sp in Hsp.
  pose proof (E_size_range st q) as Hsq. fold sq in Hsq.
  assert (Ep : (p =? NULL) = false) by (apply Z.eqb_neq; unfold NULL; lia).
  unfold Explicit.myfree. rewrite Ep. fold q. rewrite Hq. cbn [Z.eqb FREE].
  unfold Explicit.coalesce. fold q. fold np nn.
  assert (Ha : Explicit.fld_block_size (Explicit.get_hdr p) = p - 8
               /\ Explicit.fld_prev_ptr (Explicit.get_hdr p) = p
               /\ Explicit.fld_next_ptr (Explicit.get_hdr p) = p + 8).
  { e_addr. lia. }
  destruct Ha as (Ha1 & Ha2 & Ha3).
  split.
  - intros Hnp. apply Z.eqb_neq in Hnp.
    destruct (clear_link_addrs np p sp Hcp Hnp) as (Hp1 & Hp2 & Hp3).
    unfold Explicit.get_next_free. rewrite Hnp. e_norm.
    rewrite Ep, Hnp, Hp2. mem_simpl. apply wrap64_small. lia.
  - intros Hnn. apply Z.eqb_neq in Hnn.
    destruct (clear_link_addrs nn p sp Hcn Hnn) as (Hn1 & Hn2 & Hn3).
    unfold Explicit.get_prev_free. rewrite Hnn. e_norm.
    rewrite Ep, Hnn, Hn1.
    destruct (np =? NULL) eqn:Enp.
    + mem_simpl. apply wrap64_small. lia.
    + destruct (clear_link_addrs np p sp Hcp Enp) as (Hp1 & Hp2 & Hp3).
      rewrite Hp2. apply Z.eqb_neq in Enp, Hnn. unfold NULL in *.
      mem_simpl. apply wrap64_small. lia.
Qed.

Lemma explicit_free_tail_link st p :
  let q := Explicit.get_next_block st p in
  let sp := Explicit.get_block_size st p in
  let st' := Explicit.myfree st p in
  8 <= p -> p + 16 <= 2 ^ 64 ->
  Explicit.check_alloc st q <> FREE ->
  tail_clear_of st p sp ->
  Explicit.last_free_block st <> NULL ->
  Explicit.get_next_free st' (Explicit.last_free_block st) = p.
Proof.
  intros q sp st' H8 Hend Hq Htail Hl. subst st'.
  pose proof (E_size_range st p) as Hsp. fold sp in Hsp.
  assert (Ep : (p =? NULL) = false) by (apply Z.eqb_neq; unfold NULL; lia).
  unfold Explicit.myfree. rewrite Ep. fold q.
  apply Z.eqb_neq in Hq. unfold FREE in Hq. rewrite Hq.
  unfold Explicit.change_to_free.
  apply Z.eqb_neq in Hl.
  destruct (clear_link_addrs _ p sp Htail Hl) as (Hp1 & Hp2 & Hp3).
  unfold Explicit.get_next_free. rewrite Hl. e_norm. rewrite Ep, Hl, Hp2.
  assert (Ha : Explicit.fld_block_size (Explicit.get_hdr p) = p - 8
               /\ Explicit.fld_prev_ptr (Explicit.get_hdr p) = p
               /\ Explicit.fld_next_ptr (Explicit.get_hdr p) = p + 8).
  { e_addr. lia. }
  destruct Ha as (Ha1 & Ha2 & Ha3). rewrite ?Ha1, ?Ha2, ?Ha3.
  mem_simpl. apply wrap64_small. lia.
Qed.

(** C3 (amended).  Explicit variant, [myfree(p)] with [q] the address-order
    successor of [p].  If [q] is free, [q] is merged into [p]: [p] is free
    with payload size [size(p) + 8 + size(q)], takes over the free-list
    links of [q] and its place as tail if [q] was the tail, the list
    neighbours [np] and [nn] of [q] are linked to [p] in its place, and
    the block count drops by one.  If [q] is allocated, [p] becomes free
    with its size unchanged and is linked in as the new tail: its previous
    link is the old tail, whose next link now is [p].  Nothing else is
    examined: the block to the left of [p] and the block after [q] stay as
    they are, so two adjacent free blocks can remain after the call. *)
Theorem free_coalesces_right_neighbor :
  (forall st p,
     let q := Explicit.get_next_block st p in
     let sp := Explicit.get_block_size st p in
     let sq := Explicit.get_block_size st q in
     let st' := Explicit.myfree st p in
     let np := Explicit.get_prev_free st q in
     let nn := Explicit.get_next_free st q in
     8 <= p -> 16 <= sp -> p + sp + 8 < 2 ^ 64 -> sp + sq + 8 < 2 ^ 62 ->
     Explicit.check_alloc st q = FREE ->
     block_clear_of np p sp -> block_clear_of nn p sp ->
     np = NULL \/ nn = NULL \/ np + 24 <= nn \/ nn + 24 <= np ->
     Explicit.check_alloc st' p = FREE
     /\ Explicit.get_block_size st' p = sp + 8 + sq
     /\ Explicit.get_prev_free st' p = np
     /\ Explicit.get_next_free st' p = nn
     /\ (np <> NULL -> Explicit.get_next_free st' np = p)
     /\ (nn <> NULL -> Explicit.get_prev_free st' nn = p)
     /\ Explicit.nblocks st' = wrap64 (Explicit.nblocks st - 1)
     /\ Explicit.nused st' = wrap64 (Explicit.nused st - 1)
     /\ Explicit.last_free_block st'
        = if Explicit.last_free_block st =? q then p
          else Explicit.last_free_block st)
  /\ (forall st p,
        let q := Explicit.get_next_block st p in
        let sp := Explicit.get_block_size st p in
        let st' := Explicit.myfree st p in
        8 <= p -> p + 16 <= 2 ^ 64 ->
        Explicit.check_alloc st q <> FREE ->
        tail_clear_of st p sp ->
        Explicit.check_alloc st' p = FREE
        /\ Explicit.get_block_size st' p = sp
        /\ Explicit.get_prev_free st' p = Explicit.last_free_block st
        /\ Explicit.get_next_free st' p = NULL
        /\ (Explicit.last_free_block st <> NULL ->
            Explicit.get_next_free st' (Explicit.last_free_block st) = p)
        /\ Explicit.nblocks st' = Explicit.nblocks st
        /\ Explicit.nused st' = wrap64 (Explicit.nused st - 1)
        /\ Explicit.last_free_block st' = p).
Proof.
  split.
  - intros st p q sp sq st' np nn H8 H16 Hend Hfit Hq Hcp Hcn Hsep.
    destruct (explicit_free_coalesces st p H8 H16 Hend Hfit Hq Hcp Hcn)
      as (F1 & F2 & F3 & F4 & F5 & F6 & F7).
    destruct (explicit_free_coalesce_links st p H8 H16 Hend Hfit Hq Hcp Hcn Hsep)
      as (L1 & L2).
    repeat (split; [assumption|]). assumption.
  - intros st p q sp st' H8 Hend Hq Htail.
    destruct (explicit_free_links_at_tail st p H8 Hend Hq Htail)
      as (F1 & F2 & F3 & F4 & F5 & F6 & F7).
    pose proof (explicit_free_tail_link st p H8 Hend Hq Htail) as L.
    repeat (split; [assumption|]). assumption.
Qed.

Lemma free_coalesces_right_neighbor_witness :
  let st := fst (fst explicit_before_free) in
  let a := snd (fst explicit_before_free) in
  let b := snd explicit_before_free in
  let sta := Explicit.myfree st a in
  (Explicit.get_block_size (Explicit.myfree sta b) b = 32 + 8 + 4016
   /\ Explicit.check_alloc (Explicit.myfree sta b) b = FREE
   /\ Explicit.get_next_free (Explicit.myfree sta b) b = a
   /\ Explicit.get_prev_free (Explicit.myfree sta b) a = b)
  /\ (Explicit.get_block_size sta a = 24
      /\ Explicit.last_free_block sta = a
      /\ Explicit.get_next_free sta (Explicit.last_free_block st) = a).
Proof.
  intros st a b sta.
  split.
  - destruct (proj1 free_coalesces_right_neighbor sta b)
      as (H1 & H2 & _ & H4 & _ & H6 & _).
    + vm_compute; discriminate.
    + vm_compute; discriminate.
    + vm_compute; reflexivity.
    + vm_compute; reflexivity.
    + vm_compute; reflexivity.
    + left. vm_compute; reflexivity.
    + right. split; [vm_compute; discriminate|].
      split; [vm_compute; discriminate|].
      left. vm_compute; discriminate.
    + left. vm_compute; reflexivity.
    + split; [exact H2|]. split; [exact H1|].
      assert (E : Explicit.get_next_free sta (Explicit.get_next_block sta b) = a)
        by (vm_compute; reflexivity).
      rewrite E in H4, H6.
      split; [exact H4|]. apply H6. vm_compute; discriminate.
  - destruct (proj2 free_coalesces_right_neighbor st a)
      as (_ & H2 & _ & _ & H5 & _ & _ & H7).
    + vm_compute; discriminate.
    + vm_compute; discriminate.
    + vm_compute; discriminate.
    + right. split; [vm_compute; discriminate|].
      split; [vm_compute; discriminate|].
      right. vm_compute; discriminate.
    + split; [exact H2|]. split; [exact H7|].
      apply H5. vm_compute; discriminate.
Defined.

(** C3 as stated fails: after [a = mymalloc(24)], [b = mymalloc(32)],
    [myfree(a)], [myfree(b)] both calls to [myfree] have returned, [a] is
    free, its address-order successor is [b], and [b] is free as well. *)
Lemma adjacent_free_blocks_after_free_counterexample :
  let '(st, a, b) := explicit_two_frees in
  a <> NULL /\ b <> NULL
  /\ Explicit.check_alloc st a = FREE
  /\ Explicit.get_next_block st a = b
  /\ Explicit.check_alloc st b = FREE
  /\ Explicit.validate_heap 4 st = Some true.
Proof. vm_compute. repeat split; discriminate. Qed.

(** *** Giving back the last block of the segment *)

Lemma span_nonneg st p n : 0 <= span st p n.
Proof.
  revert p. induction n as [|n IH]; intros p; cbn [span]; [lia|].
  pose proof (E_size_range st p). pose proof (IH (Explicit.get_next_block st p)).
  lia.
Qed.

(** The header that [myfree] inspects when [p] is the last block of the
    segment starts at the first byte after the segment. *)
Lemma free_last_block_looks_past_segment st p :
  8 <= p ->
  p + Explicit.get_block_size st p
  = Explicit.segment_start st + Explicit.segment_size st ->
  Explicit.segment_start st + Explicit.segment_size st + 8 < 2 ^ 64 ->
  Explicit.get_hdr (Explicit.get_next_block st p)
  = Explicit.segment_start st + Explicit.segment_size st.
Proof.
  intros H8 Hlast Hend. unfold Explicit.get_next_block, Explicit.get_hdr, WIDTH.
  pose proof (E_size_range st p).
  rewrite (wrap64_small (p + Explicit.get_block_size st p + 8)) by lia.
  rewrite wrap64_small by lia. lia.
Qed.

(** C1, at the failing run.  Explicit variant on a zero-filled store:
    [myinit(65536, 4096)], [p = mymalloc(4088)], [myfree(p)].  Before the
    [myfree] the one block spans the segment and [validate_heap] accepts.
    [myfree] looks at the header after [p], the word at 65536 + 4096 that
    is no longer part of the segment; it reads 0, "free", and [coalesce]
    merges that block in: [p] ends with payload size 4096, [nblocks] is 0,
    [validate_heap] rejects, and for no number of blocks do the blocks
    walked from the start of the segment span 4096 bytes. *)
Theorem free_last_block_breaks_tiling :
  let st1 := fst explicit_all_taken in
  let p := snd explicit_all_taken in
  let st2 := explicit_last_freed in
  p = base0 + 8
  /\ Explicit.nblocks st1 = 1
  /\ span st1 (Explicit.start_block st1) 1 = Explicit.segment_size st1
  /\ Explicit.validate_heap 4 st1 = Some true
  /\ Explicit.get_next_block st1 p = base0 + 4096 + 8
  /\ Explicit.get_block_size st2 p = 4096
  /\ Explicit.nblocks st2 = 0
  /\ Explicit.segment_size st2 = 4096
  /\ (forall fuel, Explicit.validate_heap fuel st2 = Some false)
  /\ (forall n, span st2 (Explicit.start_block st2) n <> Explicit.segment_size st2).
Proof.
  cbv zeta.
  do 8 (split; [vm_compute; reflexivity|]).
  split.
  - intros fuel. unfold Explicit.validate_heap.
    replace (Explicit.validate_loop explicit_last_freed
               (Explicit.start_block explicit_last_freed) 0 0 0
               (Z.to_nat (Explicit.nblocks explicit_last_freed)))
      with (0, 0, 0) by (vm_compute; reflexivity).
    replace (Explicit.segment_size explicit_last_freed) with 4096
      by (vm_compute; reflexivity).
    reflexivity.
  - intros [|n].
    + vm_compute. discriminate.
    + cbn [span].
      replace (Explicit.get_block_size explicit_last_freed
                 (Explicit.start_block explicit_last_freed)) with 4096
        by (vm_compute; reflexivity).
      replace (Explicit.segment_size explicit_last_freed) with 4096
        by (vm_compute; reflexivity).
      pose proof (span_nonneg explicit_last_freed
                    (Explicit.get_next_block explicit_last_freed
                       (Explicit.start_block explicit_last_freed)) n).
      lia.
Qed.

(** C2, at the failing run.  In the run of [free_last_block_breaks_tiling]
    the block [p] is free after [myfree(p)], yet [last_free_block] is null:
    the walk along [prev_ptr] from [last_free_block] meets no block at all,
    and [validate_heap] rejects the heap. *)
Theorem free_last_block_leaves_free_list_empty :
  let st1 := fst explicit_all_taken in
  let p := snd explicit_all_taken in
  let st2 := explicit_last_freed in
  Explicit.check_alloc st1 p = ALLOC
  /\ Explicit.last_free_block st1 = NULL
  /\ Explicit.validate_heap 4 st1 = Some true
  /\ Explicit.check_alloc st2 p = FREE
  /\ Explicit.last_free_block st2 = NULL
  /\ Explicit.get_prev_free st2 p = NULL
  /\ Explicit.validate_heap 4 st2 = Some false.
Proof. vm_compute. repeat split; reflexivity. Qed.

(** The implicit variant has the same blind spot at the end of the segment.
    [mymalloc(4080)] on the fresh 4096-byte segment finds the one free
    block, of 4088 bytes, and leaves room for a 0-byte block behind the
    4080 it takes; [get_next_block] answers null for that block, because
    its payload would start at [segment_end], and the header is written
    through the null pointer: the call faults. *)
Lemma implicit_zero_block_written_through_null :
  let st := implicit_ff_fresh in
  let p := Implicit.first_fit st (Implicit.round_up 4080) in
  p = base0 + 8
  /\ Implicit.get_block_size st p = 4088
  /\ Implicit.get_next_block
       (Implicit.set_hdr_status (Implicit.set_hdr_size st p 4080) p ALLOC) p
     = NULL
  /\ implicit_tail8 = None.
Proof. vm_compute. repeat split; reflexivity. Qed.

(** *** A request served from a corrupted free list *)

Lemma explicit_first_fit_hit st r :
  0 < wrap64 (Explicit.nblocks st - Explicit.nused st) ->
  r <= Explicit.get_block_size st (Explicit.last_free_block st) ->
  Explicit.check_alloc st (Explicit.last_free_block st) = FREE ->
  Explicit.first_fit st r = Explicit.last_free_block st.
Proof.
  intros Hn Hr Hf. unfold Explicit.first_fit.
  destruct (Z.to_nat (wrap64 (Explicit.nblocks st - Explicit.nused st))) eqn:E.
  - lia.
  - cbn [Explicit.first_fit_loop]. rewrite Hf.
    replace (r <=? Explicit.get_block_size st (Explicit.last_free_block st))
      with true by (symmetry; apply Z.leb_le; exact Hr).
    reflexivity.
Qed.

Lemma explicit_malloc_returns_first_fit st n :
  0 < n ->
  snd (Explicit.mymalloc st n) = Explicit.first_fit st (Explicit.round_up n).
Proof.
  intros Hn. unfold Explicit.mymalloc.
  replace (n <=? 0) with false by (symmetry; apply Z.leb_gt; exact Hn).
  destruct (Explicit.first_fit st (Explicit.round_up n) =? NULL) eqn:E.
  - apply Z.eqb_eq in E. rewrite E. reflexivity.
  - match goal with |- context [let '(_, _) := ?c in _] => destruct c end.
    reflexivity.
Qed.

(** C9, at the failing run.  Explicit variant on a zero-filled store, the
    segment at 65536, which is 8-byte aligned.  The client is handed
    [y = 65544], [q = 65568] and [b = 65640], which fill the segment.
    [myfree(b)] merges the word after the segment into [b] and leaves [b]
    off the free list; [myfree(y)] puts [y] on it; [myrealloc(q, 4072)]
    grows [q] over [b] in place and counts one block less, so that
    [nblocks - nused] is 0 while [y] is still on the list.  [mymalloc(32)]
    therefore takes [y], 16 bytes, without looking at its size, and writes
    the header and links of the "rest" at 65576 .. 65599, inside [q].  The
    client stores three words into [q], and the next [mymalloc(32)] moves
    [last_free_block] to the [prev_ptr] it finds there, 65601.  The request
    after that returns 65601, which is 1 modulo 8. *)
Theorem unaligned_pointer_after_corruption :
  option_map snd (run explicit_fresh misaligning_calls)
  = Some [ (65544, 2, 1, 65568); (65568, 3, 2, 65640); (65640, 3, 3, NULL);
           (NULL, 2, 2, NULL); (NULL, 2, 1, 65544);
           (65568, 1, 1, 65544);
           (65544, 2, 2, 65584);
           (NULL, 2, 2, 65584); (NULL, 2, 2, 65584); (NULL, 2, 2, 65584);
           (65584, 2, 3, 65601) ]
  /\ Explicit.get_block_size misaligned_heap 65601 = 64
  /\ Explicit.check_alloc misaligned_heap 65601 = FREE
  /\ Explicit.segment_start misaligned_heap = base0
  /\ base0 mod 8 = 0
  /\ snd (Explicit.mymalloc misaligned_heap 32) = 65601
  /\ 65601 mod 8 = 1.
Proof.
  do 4 (split; [vm_compute; reflexivity|]).
  split; [reflexivity|].
  split; [|reflexivity].
  rewrite explicit_malloc_returns_first_fit by lia.
  rewrite explicit_first_fit_hit.
  - vm_compute. reflexivity.
  - vm_compute. reflexivity.
  - vm_compute. discriminate.
  - vm_compute. reflexivity.
Qed.

(** * Further properties of the code *)

(** ** The header word *)

Lemma size_of_any_size_word h s :
  shr2 (wrap64 (Z.lor (low2 h) (shl2 s))) = s mod 2 ^ 62.
Proof.
  assert (E : shl2 s = shl2 (s mod 2 ^ 62))
    by (rewrite !shl2_mul, Z.mod_mod by lia; reflexivity).
  rewrite E. apply size_of_size_word. apply Z.mod_pos_bound. lia.
Qed.

(** X1.  [set_hdr_size] followed by [get_block_size] gives the size back,
    reduced modulo [2^62] (the header has 62 bits for it), and leaves what
    [check_alloc] reads untouched; in both variants. *)
Theorem set_hdr_size_read_back :
  (forall st p s,
     Implicit.get_block_size (Implicit.set_hdr_size st p s) p = s mod 2 ^ 62
     /\ Implicit.check_alloc (Implicit.set_hdr_size st p s) p
        = Implicit.check_alloc st p)
  /\ (forall st p s,
        Explicit.get_block_size (Explicit.set_hdr_size st p s) p = s mod 2 ^ 62
        /\ Explicit.check_alloc (Explicit.set_hdr_size st p s) p
           = Explicit.check_alloc st p).
Proof.
  split; intros st p s.
  - unfold Implicit.get_block_size, Implicit.check_alloc. i_norm.
    rewrite load64_store64_same.
    split; [apply size_of_any_size_word | apply status_of_size_word].
  - unfold Explicit.get_block_size, Explicit.check_alloc. e_norm.
    rewrite load64_store64_same.
    split; [apply size_of_any_size_word | apply status_of_size_word].
Qed.

Lemma set_hdr_status_facts :
  (forall st p status, 0 <= status < 2 ->
     Implicit.check_alloc (Implicit.set_hdr_status st p status) p = status
     /\ Implicit.get_block_size (Implicit.set_hdr_status st p status) p
        = Implicit.get_block_size st p)
  /\ (forall st p status, 0 <= status < 2 ->
        Explicit.check_alloc (Explicit.set_hdr_status st p status) p = status
        /\ Explicit.get_block_size (Explicit.set_hdr_status st p status) p
           = Explicit.get_block_size st p).
Proof.
  split; intros st p status Hs.
  - unfold Implicit.get_block_size, Implicit.check_alloc. i_norm.
    rewrite load64_store64_same.
    split; [apply status_of_status_word; exact Hs|].
    apply size_of_status_word; [apply load64_range | lia].
  - unfold Explicit.get_block_size, Explicit.check_alloc. e_norm.
    rewrite load64_store64_same.
    split; [apply status_of_status_word; exact Hs|].
    apply size_of_status_word; [apply load64_range | lia].
Qed.

(** X2.  [set_hdr_status] with [FREE] or [ALLOC] followed by [check_alloc]
    gives the status back and leaves the size untouched; in both
    variants. *)
Theorem set_hdr_status_read_back :
  (forall st p status, 0 <= status < 2 ->
     Implicit.check_alloc (Implicit.set_hdr_status st p status) p = status
     /\ Implicit.get_block_size (Implicit.set_hdr_status st p status) p
        = Implicit.get_block_size st p)
  /\ (forall st p status, 0 <= status < 2 ->
        Explicit.check_alloc (Explicit.set_hdr_status st p status) p = status
        /\ Explicit.get_block_size (Explicit.set_hdr_status st p status) p
           = Explicit.get_block_size st p).
Proof. exact set_hdr_status_facts. Qed.

Lemma set_hdr_status_read_back_witness :
  Implicit.check_alloc (Implicit.set_hdr_status implicit_fresh (base0 + 8) ALLOC)
                       (base0 + 8) = ALLOC
  /\ Explicit.check_alloc (Explicit.set_hdr_status explicit_fresh (base0 + 8) ALLOC)
                          (base0 + 8) = ALLOC.
Proof.
  assert (H : 0 <= ALLOC < 2) by (unfold ALLOC; lia).
  split.
  - exact (proj1 (proj1 set_hdr_status_read_back implicit_fresh (base0 + 8) ALLOC H)).
  - exact (proj1 (proj2 set_hdr_status_read_back explicit_fresh (base0 + 8) ALLOC H)).
Defined.

(** ** [round_up] *)

Lemma implicit_round_up_facts :
  forall n,
    (0 <= n <= 2 ^ 64 - 8 ->
     Implicit.round_up n mod 8 = 0
     /\ n <= Implicit.round_up n < n + 8)
    /\ (2 ^ 64 - 8 < n < 2 ^ 64 -> Implicit.round_up n = 0).
Proof.
  intros n. unfold Implicit.round_up, WIDTH. split; intros Hn.
  - rewrite (wrap64_small (n + 8 - 1)) by lia.
    rewrite round8_small by lia.
    Z.div_mod_to_equations. lia.
  - assert (E : wrap64 (n + 8 - 1) = n + 7 - 2 ^ 64).
    { unfold wrap64. symmetry. apply Z.mod_unique with (q := 1); lia. }
    rewrite E, round8_small by lia.
    Z.div_mod_to_equations. lia.
Qed.

(** X3.  Implicit [round_up]: for a request of at most [2^64 - 8] bytes the
    result is the least multiple of 8 that is not below the request.  The
    seven largest requests wrap around and round to 0. *)
Theorem implicit_round_up_spec :
  forall n,
    (0 <= n <= 2 ^ 64 - 8 ->
     Implicit.round_up n mod 8 = 0
     /\ n <= Implicit.round_up n < n + 8)
    /\ (2 ^ 64 - 8 < n < 2 ^ 64 -> Implicit.round_up n = 0).
Proof. exact implicit_round_up_facts. Qed.

Lemma implicit_round_up_spec_witness :
  (Implicit.round_up 13 mod 8 = 0 /\ 13 <= Implicit.round_up 13 < 13 + 8)
  /\ Implicit.round_up (2 ^ 64 - 1) = 0.
Proof.
  split.
  - apply (proj1 (implicit_round_up_spec 13)). lia.
  - apply (proj2 (implicit_round_up_spec (2 ^ 64 - 1))). lia.
Defined.

(** X4.  Explicit [round_up]: for a request of at most [2^64 - 8] bytes the
    result is a multiple of 8, at least 16 and at least the request, and it
    is the larger of 16 and the implicit rounding.  The seven largest
    requests wrap around and round to 16. *)
Theorem explicit_round_up_spec :
  forall n,
    Explicit.round_up n = Z.max 16 (Implicit.round_up n)
    /\ (0 <= n <= 2 ^ 64 - 8 ->
        Explicit.round_up n mod 8 = 0
        /\ 16 <= Explicit.round_up n
        /\ n <= Explicit.round_up n
        /\ (Explicit.round_up n = 16 \/ Explicit.round_up n < n + 8))
    /\ (2 ^ 64 - 8 < n < 2 ^ 64 -> Explicit.round_up n = 16).
Proof.
  intros n.
  assert (E : Explicit.round_up n = Z.max 16 (Implicit.round_up n)).
  { unfold Explicit.round_up, Implicit.round_up.
    destruct (Z.ltb_spec (Z.land (wrap64 (n + WIDTH - 1)) (2 ^ 64 - 8)) 16); lia. }
  split; [exact E|]. rewrite E.
  destruct (implicit_round_up_facts n) as (H1 & H2).
  split; intros Hn.
  - destruct (H1 Hn) as (Hm & Hr).
    destruct (Z.max_spec 16 (Implicit.round_up n)) as [(Hlt & ->) | (Hge & ->)].
    + repeat split; lia.
    + repeat split; lia.
  - rewrite (H2 Hn). reflexivity.
Qed.

Lemma explicit_round_up_spec_witness :
  (Explicit.round_up 100 mod 8 = 0 /\ 16 <= Explicit.round_up 100)
  /\ Explicit.round_up (2 ^ 64 - 1) = 16.
Proof.
  split.
  - destruct (proj1 (proj2 (explicit_round_up_spec 100))) as (H1 & H2 & _);
      [lia | split; assumption].
  - apply (proj2 (proj2 (explicit_round_up_spec (2 ^ 64 - 1)))). lia.
Defined.

(** ** The header and link fields of the explicit variant *)

Lemma E_field_addrs p :
  8 <= p -> p + 16 <= 2 ^ 64 ->
  Explicit.fld_block_size (Explicit.get_hdr p) = p - 8
  /\ Explicit.fld_prev_ptr (Explicit.get_hdr p) = p
  /\ Explicit.fld_next_ptr (Explicit.get_hdr p) = p + 8.
Proof. intros H8 H16. e_addr. lia. Qed.

(** X5.  [create_hdr] at the header of payload [p] writes a free block:
    size (modulo [2^62]), status [FREE] and both links read back as
    written, and no byte outside the 24 bytes of the header struct
    changes. *)
Theorem create_hdr_read_back :
  forall st p size prev next,
    8 <= p -> p + 16 <= 2 ^ 64 ->
    0 <= prev < 2 ^ 64 -> 0 <= next < 2 ^ 64 ->
    let st' := Explicit.create_hdr st (Explicit.get_hdr p) size prev next in
    Explicit.get_block_size st' p = size mod 2 ^ 62
    /\ Explicit.check_alloc st' p = FREE
    /\ Explicit.get_prev_free st' p = prev
    /\ Explicit.get_next_free st' p = next
    /\ (forall a, a < p - 8 \/ p + 16 <= a ->
                  Explicit.heap st' a = Explicit.heap st a).
Proof.
  intros st p size prev next H8 H16 Hprev Hnext st'. subst st'.
  destruct (E_field_addrs p H8 H16) as (A1 & A2 & A3).
  assert (Ep : (p =? NULL) = false) by (apply Z.eqb_neq; unfold NULL; lia).
  unfold Explicit.get_block_size, Explicit.check_alloc, Explicit.get_prev_free,
    Explicit.get_next_free.
  rewrite Ep. e_norm. rewrite A1, A2, A3.
  repeat split.
  - mem_simpl. rewrite (wrap64_small _ (shl2_range _)). apply shl2_shr2.
  - mem_simpl. rewrite (wrap64_small _ (shl2_range _)). apply shl2_even.
  - mem_simpl. apply wrap64_small. exact Hprev.
  - mem_simpl. apply wrap64_small. exact Hnext.
  - intros a Ha. rewrite !store64_out by lia. reflexivity.
Qed.

Lemma create_hdr_read_back_witness :
  let st' := Explicit.create_hdr explicit_fresh (Explicit.get_hdr 65600) 40 0 65544 in
  Explicit.get_block_size st' 65600 = 40 mod 2 ^ 62
  /\ Explicit.check_alloc st' 65600 = FREE
  /\ Explicit.get_prev_free st' 65600 = 0
  /\ Explicit.get_next_free st' 65600 = 65544
  /\ (forall a, a < 65600 - 8 \/ 65600 + 16 <= a ->
                Explicit.heap st' a = Explicit.heap explicit_fresh a).
Proof.
  apply (create_hdr_read_back explicit_fresh 65600 40 0 65544); lia.
Defined.

(** X6.  The link setters and getters of the explicit variant.  On a null
    block pointer the setters change nothing and the getters answer null.
    On a block [p], [set_prev_ptr] and [set_next_ptr] each write the one
    link: it reads back as written, the other link, the size and the
    status stay. *)
Theorem free_list_links_read_back :
  (forall st v,
     Explicit.set_prev_ptr st NULL v = st /\ Explicit.set_next_ptr st NULL v = st
     /\ Explicit.get_prev_free st NULL = NULL
     /\ Explicit.get_next_free st NULL = NULL)
  /\ (forall st p v,
        8 <= p -> p + 16 <= 2 ^ 64 -> 0 <= v < 2 ^ 64 ->
        (Explicit.get_prev_free (Explicit.set_prev_ptr st p v) p = v
         /\ Explicit.get_next_free (Explicit.set_prev_ptr st p v) p
            = Explicit.get_next_free st p
         /\ Explicit.get_block_size (Explicit.set_prev_ptr st p v) p
            = Explicit.get_block_size st p
         /\ Explicit.check_alloc (Explicit.set_prev_ptr st p v) p
            = Explicit.check_alloc st p)
        /\ (Explicit.get_next_free (Explicit.set_next_ptr st p v) p = v
            /\ Explicit.get_prev_free (Explicit.set_next_ptr st p v) p
               = Explicit.get_prev_free st p
            /\ Explicit.get_block_size (Explicit.set_next_ptr st p v) p
               = Explicit.get_block_size st p
            /\ Explicit.check_alloc (Explicit.set_next_ptr st p v) p
               = Explicit.check_alloc st p)).
Proof.
  split; [intros st v; repeat split; reflexivity|].
  intros st p v H8 H16 Hv.
  destruct (E_field_addrs p H8 H16) as (A1 & A2 & A3).
  assert (Ep : (p =? NULL) = false) by (apply Z.eqb_neq; unfold NULL; lia).
  unfold Explicit.get_block_size, Explicit.check_alloc, Explicit.get_prev_free,
    Explicit.get_next_free.
  rewrite Ep. e_norm. rewrite Ep, A1, A2, A3. mem_simpl.
  repeat split; apply wrap64_small; exact Hv.
Qed.

Lemma free_list_links_read_back_witness :
  Explicit.get_prev_free (Explicit.set_prev_ptr explicit_fresh 65600 65544) 65600
  = 65544
  /\ Explicit.get_next_free (Explicit.set_next_ptr explicit_fresh 65600 65544) 65600
     = 65544.
Proof.
  destruct (proj2 free_list_links_read_back explicit_fresh 65600 65544)
    as ((H1 & _) & (H2 & _)); [lia | lia | lia |].
  split; [exact H1 | exact H2].
Defined.

(** ** [first_fit] *)

Lemma implicit_first_fit_loop_spec st r :
  forall fuel p,
    (exists k, (k < fuel)%nat
               /\ Implicit.first_fit_loop st r p fuel = implicit_walk st p k
               /\ implicit_fits st r (implicit_walk st p k) = true
               /\ forall j, (j < k)%nat ->
                            implicit_fits st r (implicit_walk st p j) = false)
    \/ (Implicit.first_fit_loop st r p fuel = NULL
        /\ forall k, (k < fuel)%nat ->
                     implicit_fits st r (implicit_walk st p k) = false).
Proof.
  induction fuel as [|fuel IH]; intros p.
  - right. split; [reflexivity | intros k Hk; lia].
  - cbn [Implicit.first_fit_loop].
    fold (implicit_fits st r p).
    destruct (implicit_fits st r p) eqn:Ef.
    + left. exists 0%nat. cbn [implicit_walk].
      repeat split; [lia | exact Ef | intros j Hj; lia].
    + destruct (IH (Implicit.get_next_block st p))
        as [(k & Hk & Hr & Hf & Hb) | (Hr & Hb)].
      * left. exists (S k). cbn [implicit_walk].
        repeat split; [lia | exact Hr | exact Hf |].
        intros [|j] Hj; [exact Ef | apply Hb; lia].
      * right. split; [exact Hr|].
        intros [|k] Hk; [exact Ef | apply Hb; lia].
Qed.

Lemma implicit_first_fit_facts :
  forall st r,
    let n := Z.to_nat (Implicit.nblocks st) in
    let blk := implicit_walk st (Implicit.start_block st) in
    (exists k, (k < n)%nat
               /\ Implicit.first_fit st r = blk k
               /\ r <= Implicit.get_block_size st (blk k)
               /\ Implicit.check_alloc st (blk k) = FREE
               /\ forall j, (j < k)%nat -> implicit_fits st r (blk j) = false)
    \/ (Implicit.first_fit st r = NULL
        /\ forall k, (k < n)%nat -> implicit_fits st r (blk k) = false).
Proof.
  intros st r n blk. unfold Implicit.first_fit. fold n.
  destruct (implicit_first_fit_loop_spec st r n (Implicit.start_block st))
    as [(k & Hk & Hr & Hf & Hb) | H]; [left | right; exact H].
  exists k. fold (blk k) in Hr, Hf.
  unfold implicit_fits in Hf. apply andb_true_iff in Hf. destruct Hf as (H1 & H2).
  apply Z.leb_le in H1. apply Z.eqb_eq in H2.
  repeat split; assumption.
Qed.

(** X7.  Implicit [first_fit] walks at most [nblocks] blocks from
    [start_block] along [get_next_block] and returns the first one that is
    free and large enough: every block met before it fails the test.  If
    none of the [nblocks] blocks passes, the result is null. *)
Theorem implicit_first_fit_is_first :
  forall st r,
    let n := Z.to_nat (Implicit.nblocks st) in
    let blk := implicit_walk st (Implicit.start_block st) in
    (exists k, (k < n)%nat
               /\ Implicit.first_fit st r = blk k
               /\ r <= Implicit.get_block_size st (blk k)
               /\ Implicit.check_alloc st (blk k) = FREE
               /\ forall j, (j < k)%nat -> implicit_fits st r (blk j) = false)
    \/ (Implicit.first_fit st r = NULL
        /\ forall k, (k < n)%nat -> implicit_fits st r (blk k) = false).
Proof. exact implicit_first_fit_facts. Qed.

Lemma implicit_first_fit_is_first_witness :
  let st := implicit_two_holes in
  let blk := implicit_walk st (Implicit.start_block st) in
  exists k, Implicit.first_fit st 70 = blk k
            /\ forall j, (j < k)%nat -> implicit_fits st 70 (blk j) = false.
Proof.
  intros st blk.
  destruct (implicit_first_fit_is_first st 70)
    as [(k & _ & H1 & _ & _ & H2) | (H & _)].
  - exists k. split; assumption.
  - exfalso. revert H. vm_compute. discriminate.
Defined.

Lemma explicit_first_fit_loop_spec st r :
  forall fuel p,
    (exists k, (k < fuel)%nat
               /\ Explicit.first_fit_loop st r p fuel = prev_walk st p k
               /\ explicit_fits st r (prev_walk st p k) = true
               /\ forall j, (j < k)%nat ->
                            explicit_fits st r (prev_walk st p j) = false)
    \/ (Explicit.first_fit_loop st r p fuel = prev_walk st p fuel
        /\ forall k, (k < fuel)%nat ->
                     explicit_fits st r (prev_walk st p k) = false).
Proof.
  induction fuel as [|fuel IH]; intros p.
  - right. split; [reflexivity | intros k Hk; lia].
  - cbn [Explicit.first_fit_loop].
    fold (explicit_fits st r p).
    destruct (explicit_fits st r p) eqn:Ef.
    + left. exists 0%nat. cbn [prev_walk].
      repeat split; [lia | exact Ef | intros j Hj; lia].
    + destruct (IH (Explicit.get_prev_free st p))
        as [(k & Hk & Hr & Hf & Hb) | (Hr & Hb)].
      * left. exists (S k). cbn [prev_walk].
        repeat split; [lia | exact Hr | exact Hf |].
        intros [|j] Hj; [exact Ef | apply Hb; lia].
      * right. cbn [prev_walk]. split; [exact Hr|].
        intros [|k] Hk; [exact Ef | apply Hb; lia].
Qed.

(** X8.  Explicit [first_fit] walks from [last_free_block] along
    [get_prev_free] for [nblocks - nused] steps and returns the first block
    that is free and large enough.  If none of them passes, it returns the
    block the walk has reached after those steps, without testing it; so
    when that block is null (the list has no more than [nblocks - nused]
    nodes), a result that is not null is free and large enough. *)
Theorem explicit_first_fit_is_first :
  forall st r,
    let n := Z.to_nat (wrap64 (Explicit.nblocks st - Explicit.nused st)) in
    let blk := prev_walk st (Explicit.last_free_block st) in
    ((exists k, (k < n)%nat
                /\ Explicit.first_fit st r = blk k
                /\ r <= Explicit.get_block_size st (blk k)
                /\ Explicit.check_alloc st (blk k) = FREE
                /\ forall j, (j < k)%nat -> explicit_fits st r (blk j) = false)
     \/ (Explicit.first_fit st r = blk n
         /\ forall k, (k < n)%nat -> explicit_fits st r (blk k) = false))
    /\ (blk n = NULL -> Explicit.first_fit st r <> NULL ->
        r <= Explicit.get_block_size st (Explicit.first_fit st r)
        /\ Explicit.check_alloc st (Explicit.first_fit st r) = FREE).
Proof.
  intros st r n blk.
  assert (H : (exists k, (k < n)%nat
                /\ Explicit.first_fit st r = blk k
                /\ r <= Explicit.get_block_size st (blk k)
                /\ Explicit.check_alloc st (blk k) = FREE
                /\ forall j, (j < k)%nat -> explicit_fits st r (blk j) = false)
     \/ (Explicit.first_fit st r = blk n
         /\ forall k, (k < n)%nat -> explicit_fits st r (blk k) = false)).
  { unfold Explicit.first_fit. fold n.
    destruct (explicit_first_fit_loop_spec st r n (Explicit.last_free_block st))
      as [(k & Hk & Hr & Hf & Hb) | H]; [left | right; exact H].
    exists k. fold (blk k) in Hr, Hf.
    unfold explicit_fits in Hf. apply andb_true_iff in Hf. destruct Hf as (H1 & H2).
    apply Z.leb_le in H1. apply Z.eqb_eq in H2.
    repeat split; assumption. }
  split; [exact H|].
  intros Hnull Hres.
  destruct H as [(k & Hk & Hr & Hs & Hf & _) | (Hr & _)].
  - rewrite Hr. split; assumption.
  - rewrite Hr in Hres. contradiction.
Qed.

Lemma explicit_first_fit_is_first_witness :
  Explicit.first_fit explicit_fresh 104 <> NULL
  /\ 104 <= Explicit.get_block_size explicit_fresh (Explicit.first_fit explicit_fresh 104)
  /\ Explicit.check_alloc explicit_fresh (Explicit.first_fit explicit_fresh 104) = FREE.
Proof.
  assert (Hn : Explicit.first_fit explicit_fresh 104 <> NULL)
    by (vm_compute; discriminate).
  split; [exact Hn|].
  apply (proj2 (explicit_first_fit_is_first explicit_fresh 104));
    [vm_compute; reflexivity | exact Hn].
Defined.

(** ** [best_fit] *)

Lemma implicit_next_block_cases st p :
  Implicit.get_next_block st p = NULL
  \/ (Implicit.get_next_block st p
      = wrap64 (p + Implicit.get_block_size st p + WIDTH)
      /\ Implicit.get_next_block st p < Implicit.segment_end st
      /\ 0 < Implicit.get_next_block st p).
Proof.
  unfold Implicit.get_next_block.
  destruct (wrap64 (p + Implicit.get_block_size st p + WIDTH)
            <? Implicit.segment_end st) eqn:E; [|left; reflexivity].
  apply Z.ltb_lt in E.
  pose proof (wrap64_range (p + Implicit.get_block_size st p + WIDTH)).
  destruct (Z.eq_dec (wrap64 (p + Implicit.get_block_size st p + WIDTH)) 0)
    as [E0 | E0]; [left; exact E0 | right].
  repeat split; [exact E | lia].
Qed.

Lemma implicit_best_fit_loop_spec st r :
  Implicit.segment_end st <= 2 ^ 63 ->
  forall fuel cb nb,
    0 <= nb < Implicit.segment_end st ->
    (Z.to_nat ((Implicit.segment_end st - 1 - nb) / 8) <= fuel)%nat ->
    cb <> NULL -> implicit_fits st r cb = true ->
    exists b,
      Implicit.best_fit_loop st r cb (Implicit.get_block_size st cb) nb fuel
      = Some b
      /\ b <> NULL /\ implicit_fits st r b = true
      /\ Implicit.get_block_size st b <= Implicit.get_block_size st cb
      /\ forall j, (forall i, (i <= j)%nat -> implicit_walk st nb (S i) <> NULL) ->
                   implicit_fits st r (implicit_walk st nb (S j)) = true ->
                   Implicit.get_block_size st b
                   <= Implicit.get_block_size st (implicit_walk st nb (S j)).
Proof.
  intros Hend.
  induction fuel as [|fuel IH]; intros cb nb Hnb Hfuel Hcb Hfit.
  - (* no block can follow [nb] below [segment_end] *)
    assert (Hn : Implicit.get_next_block st nb = NULL).
    { destruct (implicit_next_block_cases st nb) as [E | (E & Hlt & Hpos)];
        [exact E | exfalso].
      pose proof (I_size_range st nb) as Hs. unfold WIDTH in E.
      rewrite wrap64_small in E by lia.
      assert ((Implicit.segment_end st - 1 - nb) / 8 <= 0) by lia.
      Z.div_mod_to_equations. lia. }
    cbn [Implicit.best_fit_loop]. rewrite Hn. cbn [Z.eqb NULL].
    exists cb. repeat split; try assumption; try lia.
    intros j Hnn _. exfalso. apply (Hnn 0%nat); [lia|]. exact Hn.
  - cbn [Implicit.best_fit_loop].
    destruct (implicit_next_block_cases st nb) as [E | (E & Hlt & Hpos)].
    + rewrite E. cbn [Z.eqb NULL].
      exists cb. repeat split; try assumption; try lia.
      intros j Hnn _. exfalso. apply (Hnn 0%nat); [lia|]. exact E.
    + set (n1 := Implicit.get_next_block st nb) in *.
      assert (E0 : (n1 =? NULL) = false) by (apply Z.eqb_neq; unfold NULL; lia).
      rewrite E0.
      pose proof (I_size_range st nb) as Hs. unfold WIDTH in E.
      rewrite wrap64_small in E by lia.
      assert (Hfuel1 : (Z.to_nat ((Implicit.segment_end st - 1 - n1) / 8)
                        <= fuel)%nat).
      { assert ((Implicit.segment_end st - 1 - n1) / 8 + 1
                <= (Implicit.segment_end st - 1 - nb) / 8)
          by (Z.div_mod_to_equations; lia).
        assert (0 <= (Implicit.segment_end st - 1 - n1) / 8)
          by (apply Z.div_pos; lia).
        lia. }
      assert (Hn1 : 0 <= n1 < Implicit.segment_end st) by lia.
      assert (Hn1' : n1 <> NULL) by (unfold NULL; lia).
      destruct (Implicit.check_alloc st n1 =? 0) eqn:Ea.
      * destruct ((r <=? Implicit.get_block_size st n1)
                  && (Implicit.get_block_size st n1
                      <? Implicit.get_block_size st cb)) eqn:Eb.
        -- apply andb_true_iff in Eb. destruct Eb as (Eb1 & Eb2).
           apply Z.ltb_lt in Eb2.
           assert (Hfit1 : implicit_fits st r n1 = true)
             by (unfold implicit_fits; rewrite Eb1, Ea; reflexivity).
           destruct (IH n1 n1 Hn1 Hfuel1 Hn1' Hfit1)
             as (b & Hb & Hbn & Hbf & Hbs & Hbo).
           exists b. repeat split; try assumption; try lia.
           intros [|j] Hnn Hf; cbn [implicit_walk]; fold n1.
           ++ exact Hbs.
           ++ apply Hbo; [|exact Hf].
              intros i Hi. apply (Hnn (S i)). lia.
        -- destruct (IH cb n1 Hn1 Hfuel1 Hcb Hfit)
             as (b & Hb & Hbn & Hbf & Hbs & Hbo).
           exists b. repeat split; try assumption.
           intros [|j] Hnn Hf; cbn [implicit_walk] in *; fold n1 in Hf |- *.
           ++ unfold implicit_fits in Hf. apply andb_true_iff in Hf.
              destruct Hf as (Hf1 & _). rewrite Hf1 in Eb. cbn [andb] in Eb.
              apply Z.ltb_ge in Eb. lia.
           ++ apply Hbo; [|exact Hf].
              intros i Hi. apply (Hnn (S i)). lia.
      * destruct (IH cb n1 Hn1 Hfuel1 Hcb Hfit)
          as (b & Hb & Hbn & Hbf & Hbs & Hbo).
        exists b. repeat split; try assumption.
        intros [|j] Hnn Hf; cbn [implicit_walk] in *; fold n1 in Hf |- *.
        -- unfold implicit_fits in Hf. rewrite Ea in Hf.
           rewrite andb_false_r in Hf. discriminate.
        -- apply Hbo; [|exact Hf].
           intros i Hi. apply (Hnn (S i)). lia.
Qed.

Lemma implicit_walk_range st :
  0 < Implicit.segment_end st ->
  forall k p, 0 <= p < Implicit.segment_end st ->
              0 <= implicit_walk st p k < Implicit.segment_end st.
Proof.
  intros He. induction k as [|k IH]; intros p Hp; cbn [implicit_walk]; [exact Hp|].
  apply IH.
  destruct (implicit_next_block_cases st p) as [E | (_ & Hlt & Hpos)];
    [rewrite E; unfold NULL|]; lia.
Qed.

(** X9.  [best_fit] on a heap whose blocks lie below [segment_end <= 2^63]:
    when [first_fit] finds a block, [best_fit] comes back with a block that
    is not null, free and large enough, no larger than the one [first_fit]
    found, and no larger than any free, large enough block that the walk
    along [get_next_block] meets after it before reaching null. *)
Theorem implicit_best_fit_spec :
  forall st r,
    0 <= Implicit.start_block st < Implicit.segment_end st ->
    Implicit.segment_end st <= 2 ^ 63 ->
    Implicit.first_fit st r <> NULL ->
    let ff := Implicit.first_fit st r in
    exists b,
      Implicit.best_fit st r = Some b
      /\ b <> NULL
      /\ r <= Implicit.get_block_size st b
      /\ Implicit.check_alloc st b = FREE
      /\ Implicit.get_block_size st b <= Implicit.get_block_size st ff
      /\ forall j, (forall i, (i <= j)%nat -> implicit_walk st ff (S i) <> NULL) ->
                   implicit_fits st r (implicit_walk st ff (S j)) = true ->
                   Implicit.get_block_size st b
                   <= Implicit.get_block_size st (implicit_walk st ff (S j)).
Proof.
  intros st r Hsb Hend Hff ff.
  assert (Hfit : implicit_fits st r ff = true /\ 0 <= ff < Implicit.segment_end st).
  { destruct (implicit_first_fit_facts st r)
      as [(k & Hk & Hr & Hs & Hf & _) | (Hr & _)]; [|contradiction].
    fold ff in Hr. rewrite Hr. split.
    - unfold implicit_fits. rewrite Hf.
      replace (r <=? _) with true by (symmetry; apply Z.leb_le; exact Hs).
      reflexivity.
    - apply implicit_walk_range; lia. }
  destruct Hfit as (Hfit & Hrange).
  unfold Implicit.best_fit. fold ff.
  destruct (implicit_best_fit_loop_spec st r Hend
              (Z.to_nat (Implicit.segment_end st / 8 + 1)) ff ff Hrange)
    as (b & Hb & Hbn & Hbf & Hbs & Hbo); [| exact Hff | exact Hfit |].
  { apply Z2Nat.inj_le; [apply Z.div_pos; lia | | ];
      Z.div_mod_to_equations; lia. }
  exists b. unfold implicit_fits in Hbf. apply andb_true_iff in Hbf.
  destruct Hbf as (H1 & H2). apply Z.leb_le in H1. apply Z.eqb_eq in H2.
  repeat split; assumption.
Qed.

Lemma implicit_best_fit_spec_witness :
  exists b,
    Implicit.best_fit implicit_two_holes 24 = Some b
    /\ b <> NULL
    /\ Implicit.get_block_size implicit_two_holes b
       <= Implicit.get_block_size implicit_two_holes
            (Implicit.first_fit implicit_two_holes 24).
Proof.
  destruct (implicit_best_fit_spec implicit_two_holes 24)
    as (b & H1 & H2 & _ & _ & H5 & _).
  - vm_compute. split; [discriminate | reflexivity].
  - vm_compute. discriminate.
  - vm_compute. discriminate.
  - exists b. repeat split; assumption.
Defined.

(** ** [right_search] *)

Lemma span_last st : forall n p,
  span st p (S n)
  = span st p n + (8 + Explicit.get_block_size st (next_walk st p n)).
Proof.
  induction n as [|n IH]; intros p.
  - cbn [span next_walk]. lia.
  - change (span st p (S (S n)))
      with (8 + Explicit.get_block_size st p
            + span st (Explicit.get_next_block st p) (S n)).
    rewrite IH. cbn [span next_walk]. lia.
Qed.

Lemma right_search_loop_spec st add :
  add <= 2 ^ 63 ->
  forall fuel rn count total,
    0 <= total ->
    (total < add -> (Z.to_nat ((add - total + 7) / 8) <= fuel)%nat) ->
    exists n,
      (forall i, (i < n)%nat -> Explicit.check_alloc st (next_walk st rn i) = FREE)
      /\ ((Explicit.right_search_loop st rn add count total fuel = Some 0
           /\ Explicit.check_alloc st (next_walk st rn n) <> FREE
           /\ total + span st rn n < add)
          \/ (Explicit.right_search_loop st rn add count total fuel
              = Some (count + Z.of_nat n)
              /\ add <= total + span st rn n
              /\ (n = 0%nat -> add <= total)
              /\ forall m, (m < n)%nat -> total + span st rn m < add)).
Proof.
  intros Hadd. induction fuel as [|fuel IH]; intros rn count total Ht Hfuel.
  - assert (Hge : add <= total).
    { destruct (Z.lt_ge_cases total add) as [Hlt | Hge]; [|exact Hge].
      specialize (Hfuel Hlt).
      assert ((add - total + 7) / 8 <= 0) by lia.
      Z.div_mod_to_equations. lia. }
    exists 0%nat. split; [intros i Hi; lia|]. right.
    cbn [Explicit.right_search_loop span].
    replace (total <? add) with false by (symmetry; apply Z.ltb_ge; exact Hge).
    repeat split; try lia. f_equal. lia.
  - cbn [Explicit.right_search_loop].
    destruct (total <? add) eqn:Elt.
    2:{ apply Z.ltb_ge in Elt. exists 0%nat. split; [intros i Hi; lia|]. right.
        cbn [span]. repeat split; try lia. f_equal. lia. }
    apply Z.ltb_lt in Elt.
    destruct (Explicit.check_alloc st rn =? 0) eqn:Ea.
    + apply Z.eqb_eq in Ea.
      pose proof (E_size_range st rn) as Hs.
      unfold WIDTH. rewrite (wrap64_small (total + (Explicit.get_block_size st rn + 8))) by lia.
      destruct (IH (Explicit.get_next_block st rn) (count + 1)
                   (total + (Explicit.get_block_size st rn + 8)))
        as (n & Hfree & Hres); [lia | |].
      { intros Hlt. specialize (Hfuel Elt).
        assert ((add - (total + (Explicit.get_block_size st rn + 8)) + 7) / 8 + 1
                <= (add - total + 7) / 8) by (Z.div_mod_to_equations; lia).
        assert (0 <= (add - (total + (Explicit.get_block_size st rn + 8)) + 7) / 8)
          by (apply Z.div_pos; lia).
        lia. }
      exists (S n). split.
      { intros [|i] Hi; cbn [next_walk]; [exact Ea | apply Hfree; lia]. }
      cbn [next_walk span].
      destruct Hres as [(Hr & Hal & Hsp) | (Hr & Hsp & Hz & Hm)].
      * left. repeat split; [exact Hr | exact Hal | lia].
      * right. repeat split; try lia.
        -- rewrite Hr. f_equal. lia.
        -- intros [|m] Hm'; cbn [span]; [lia|].
           specialize (Hm m ltac:(lia)). lia.
    + apply Z.eqb_neq in Ea.
      exists 0%nat. split; [intros i Hi; lia|]. left.
      cbn [next_walk span]. repeat split; [exact Ea | lia].
Qed.

(** X10.  [right_search] for a positive [add_size] of at most [2^63] comes
    back.  The answer is 0 exactly when the walk along [get_next_block]
    from [r_neighbor] meets an allocated block before the free blocks
    passed, headers included, add up to [add_size].  Otherwise it is the
    number [n >= 1] of leading free blocks whose bytes first reach
    [add_size]: all [n] are free, they span at least [add_size] bytes, and
    fewer of them span less. *)
Theorem right_search_spec :
  forall st rn add,
    0 < add <= 2 ^ 63 ->
    exists n,
      (forall i, (i < n)%nat -> Explicit.check_alloc st (next_walk st rn i) = FREE)
      /\ ((Explicit.right_search st rn add = Some 0
           /\ Explicit.check_alloc st (next_walk st rn n) <> FREE
           /\ span st rn n < add)
          \/ (Explicit.right_search st rn add = Some (Z.of_nat n)
              /\ (0 < n)%nat
              /\ add <= span st rn n
              /\ forall m, (m < n)%nat -> span st rn m < add)).
Proof.
  intros st rn add Hadd. unfold Explicit.right_search.
  destruct (right_search_loop_spec st add (proj2 Hadd)
              (Z.to_nat (add / 8 + 1)) rn 0 0) as (n & Hfree & Hres); [lia | |].
  { intros _. apply Z2Nat.inj_le; [apply Z.div_pos; lia | |];
      Z.div_mod_to_equations; lia. }
  exists n. split; [exact Hfree|].
  destruct Hres as [(Hr & Hal & Hsp) | (Hr & Hsp & Hz & Hm)].
  - left. repeat split; [exact Hr | exact Hal | lia].
  - right. split; [exact Hr|]. split; [|split].
    + destruct n as [|n]; [specialize (Hz eq_refl)|]; lia.
    + lia.
    + intros m Hm'. specialize (Hm m Hm'). lia.
Qed.

Lemma right_search_spec_witness :
  exists n,
    Explicit.right_search (fst explicit_malloc100) (base0 + 8 + 112) 24 = Some 0
    \/ (Explicit.right_search (fst explicit_malloc100) (base0 + 8 + 112) 24
        = Some (Z.of_nat n)
        /\ 24 <= span (fst explicit_malloc100) (base0 + 8 + 112) n).
Proof.
  destruct (right_search_spec (fst explicit_malloc100) (base0 + 8 + 112) 24)
    as (n & _ & [(H & _) | (H & _ & Hs & _)]); [lia | | ].
  - exists n. left. exact H.
  - exists n. right. split; [exact H | exact Hs].
Defined.

(** ** [validate_heap] *)

(** X11.  [validate_heap] accepts the heap that [myinit] leaves, whatever
    the segment held before: in both variants, for a region of at least 8
    and less than [2^62 + 8] bytes at an address that is not null and that
    does not wrap around the address space. *)
Theorem validate_heap_accepts_fresh_heap :
  forall m base size,
    0 < base -> base + 24 <= 2 ^ 64 -> 8 <= size < 2 ^ 62 + 8 ->
    exists si se,
      Implicit.myinit m base size = Some (si, true)
      /\ Explicit.myinit m base size = Some (se, true)
      /\ Implicit.validate_heap si = true
      /\ forall fuel, Explicit.validate_heap (S fuel) se = Some true.
Proof.
  intros m base size Hb Hb24 Hsz.
  destruct (init_facts m base size) as (_ & _ & Hf).
  destruct Hf as (si & se & Hii & Hie & Hinb & Hinu & Hisb & Hica & _
                  & Hnb & Hnu & Hsb & Hlf & Hca & _ & Hsize);
    [lia|].
  exists si, se. split; [exact Hii|]. split; [exact Hie|].
  assert (Hnz : (base =? NULL) = false) by (apply Z.eqb_neq; unfold NULL; lia).
  unfold Implicit.myinit in Hii. unfold Explicit.myinit in Hie.
  rewrite Hnz in Hii, Hie. injection Hii as Esi. injection Hie as Ese.
  destruct (Hsize Hsz) as (Hsi & Hse).
  unfold WIDTH in *. rewrite (wrap64_small (base + 8)) in * by lia.
  rewrite Hsb in Hca, Hse. rewrite Hisb in Hica, Hsi.
  assert (Hw : wrap64 (size - 8 + 8) = size)
    by (rewrite wrap64_small by lia; lia).
  assert (Hw0 : wrap64 (0 + size) = size) by (apply wrap64_small; lia).
  split.
  - unfold Implicit.validate_heap. rewrite Hinb, Hisb.
    replace (Z.to_nat 1) with 1%nat by reflexivity.
    cbn [Implicit.validate_loop].
    rewrite Hica, Hsi. unfold FREE, WIDTH. cbn [Z.eqb].
    rewrite Hw, Hw0, Hw0.
    rewrite <- Esi. cbn [Implicit.segment_size]. apply Z.eqb_refl.
  - intros fuel. unfold Explicit.validate_heap. rewrite Hnb, Hnu, Hsb, Hlf.
    replace (Z.to_nat 1) with 1%nat by reflexivity.
    replace (wrap_int (wrap64 (1 - 0))) with 1 by reflexivity.
    cbn [Explicit.validate_loop].
    rewrite Hca, Hse. unfold FREE, WIDTH. cbn [Z.eqb].
    rewrite Hw, Hw0, Hw0.
    replace (Explicit.segment_size se) with size
      by (rewrite <- Ese; reflexivity).
    rewrite Z.eqb_refl. cbn [negb Z.eqb Z.add Pos.eqb].
    cbn [Explicit.validate_free_list].
    replace (base + 8 =? NULL) with false
      by (symmetry; apply Z.eqb_neq; unfold NULL; lia).
    rewrite Hca. unfold FREE. cbn [Z.eqb negb].
    assert (Hprev : Explicit.get_prev_free se (base + 8) = NULL).
    { rewrite <- Ese.
      unfold Explicit.get_prev_free.
      replace (base + 8 =? NULL) with false
        by (symmetry; apply Z.eqb_neq; unfold NULL; lia).
      e_norm. e_addr. mem_simpl. reflexivity. }
    rewrite Hprev. cbn [Z.eqb NULL negb andb].
    destruct fuel; reflexivity.
Qed.

Lemma validate_heap_accepts_fresh_heap_witness :
  Implicit.validate_heap implicit_fresh = true
  /\ forall fuel, Explicit.validate_heap (S fuel) explicit_fresh = Some true.
Proof.
  destruct (validate_heap_accepts_fresh_heap zero_mem base0 4096)
    as (si & se & Hii & Hie & Hi & He); try (unfold base0; lia).
  assert (Ei : implicit_fresh = si)
    by (unfold implicit_fresh; rewrite Hii; reflexivity).
  assert (Ee : explicit_fresh = se)
    by (unfold explicit_fresh; rewrite Hie; reflexivity).
  rewrite Ei, Ee. split; [exact Hi | exact He].
Defined.

Lemma wrap64_add_r a b : wrap64 (a + wrap64 b) = wrap64 (a + b).
Proof. unfold wrap64. apply Zplus_mod_idemp_r. Qed.

Lemma wrap64_add_l a b : wrap64 (wrap64 a + b) = wrap64 (a + b).
Proof. unfold wrap64. apply Zplus_mod_idemp_l. Qed.

Lemma explicit_validate_loop_spec st :
  forall fuel p u f c,
    let '(u', f', c') := Explicit.validate_loop st p u f c fuel in
    wrap64 (u' + f') = wrap64 (u + f + span st p fuel)
    /\ c' = c + free_count st p fuel.
Proof.
  induction fuel as [|fuel IH]; intros p u f c.
  - cbn [Explicit.validate_loop span free_count].
    split; [f_equal|]; lia.
  - cbn [Explicit.validate_loop span free_count].
    destruct (Explicit.check_alloc st p =? 0).
    + specialize (IH (Explicit.get_next_block st p) u
                     (wrap64 (f + wrap64 (Explicit.get_block_size st p + WIDTH)))
                     (c + 1)).
      destruct (Explicit.validate_loop st (Explicit.get_next_block st p) u
                  (wrap64 (f + wrap64 (Explicit.get_block_size st p + WIDTH)))
                  (c + 1) fuel) as ((u' & f') & c').
      destruct IH as (H1 & H2). split; [|lia].
      rewrite H1, wrap64_add_r.
      replace (u + wrap64 (f + (Explicit.get_block_size st p + WIDTH))
               + span st (Explicit.get_next_block st p) fuel)
        with (u + span st (Explicit.get_next_block st p) fuel
              + wrap64 (f + (Explicit.get_block_size st p + WIDTH))) by lia.
      rewrite wrap64_add_r. unfold WIDTH. f_equal. lia.
    + specialize (IH (Explicit.get_next_block st p)
                     (wrap64 (u + wrap64 (Explicit.get_block_size st p + WIDTH)))
                     f c).
      destruct (Explicit.validate_loop st (Explicit.get_next_block st p)
                  (wrap64 (u + wrap64 (Explicit.get_block_size st p + WIDTH)))
                  f c fuel) as ((u' & f') & c').
      destruct IH as (H1 & H2). split; [|lia].
      rewrite H1, wrap64_add_r.
      replace (wrap64 (u + (Explicit.get_block_size st p + WIDTH)) + f
               + span st (Explicit.get_next_block st p) fuel)
        with (wrap64 (u + (Explicit.get_block_size st p + WIDTH))
              + (f + span st (Explicit.get_next_block st p) fuel)) by lia.
      rewrite wrap64_add_l. unfold WIDTH. f_equal. lia.
Qed.

Lemma explicit_validate_free_list_sound st :
  forall fuel p n,
    Explicit.validate_free_list st p n fuel = Some true ->
    0 <= n
    /\ prev_walk st p (Z.to_nat n) = NULL
    /\ forall k, (k < Z.to_nat n)%nat ->
         prev_walk st p k <> NULL
         /\ Explicit.check_alloc st (prev_walk st p k) = FREE
         /\ (Explicit.get_prev_free st (prev_walk st p k) <> NULL ->
             Explicit.get_next_free st
               (Explicit.get_prev_free st (prev_walk st p k))
             = prev_walk st p k).
Proof.
  induction fuel as [|fuel IH]; intros p n H.
  - cbn [Explicit.validate_free_list] in H.
    destruct (p =? NULL) eqn:Ep; [|discriminate].
    apply Z.eqb_eq in Ep. injection H as H. apply Z.eqb_eq in H. subst n.
    split; [lia|]. split; [exact Ep|]. intros k Hk. cbn in Hk. lia.
  - cbn [Explicit.validate_free_list] in H.
    destruct (p =? NULL) eqn:Ep.
    + apply Z.eqb_eq in Ep. injection H as H. apply Z.eqb_eq in H. subst n.
      split; [lia|]. split; [exact Ep|]. intros k Hk. cbn in Hk. lia.
    + apply Z.eqb_neq in Ep.
      destruct (Explicit.check_alloc st p =? 0) eqn:Ea; [|discriminate].
      cbn [negb] in H. apply Z.eqb_eq in Ea.
      destruct (negb (Explicit.get_prev_free st p =? NULL)
                && negb (Explicit.get_next_free st (Explicit.get_prev_free st p)
                         =? p)) eqn:El; [discriminate|].
      destruct (IH _ _ H) as (Hn & Hend & Hk).
      assert (En : Z.to_nat n = S (Z.to_nat (n - 1)))
        by (rewrite <- Z2Nat.inj_succ by lia; f_equal; lia).
      split; [lia|]. rewrite En. cbn [prev_walk]. split; [exact Hend|].
      intros [|k] Hlt; cbn [prev_walk].
      * split; [exact Ep|]. split; [exact Ea|].
        intros Hp. apply Z.eqb_neq in Hp. rewrite Hp in El. cbn [negb andb] in El.
        apply negb_false_iff in El. apply Z.eqb_eq in El. exact El.
      * apply Hk. lia.
Qed.

(** X12.  What an accepting [validate_heap] of the explicit variant
    guarantees: the [nblocks] blocks walked from [start_block] span
    [segment_size] bytes (modulo [2^64]); [nblocks - nused] of them are
    free; and the walk along [get_prev_free] from [last_free_block] meets
    exactly [nblocks - nused] blocks before it reaches null, each of them
    free, and each one is the [next_ptr] of its own [prev_ptr]. *)
Theorem explicit_validate_heap_sound :
  forall fuel st,
    Explicit.validate_heap fuel st = Some true ->
    let n := Z.to_nat (Explicit.nblocks st) in
    let n_free := wrap_int (wrap64 (Explicit.nblocks st - Explicit.nused st)) in
    let node := prev_walk st (Explicit.last_free_block st) in
    wrap64 (span st (Explicit.start_block st) n) = Explicit.segment_size st
    /\ free_count st (Explicit.start_block st) n = n_free
    /\ 0 <= n_free
    /\ node (Z.to_nat n_free) = NULL
    /\ forall k, (k < Z.to_nat n_free)%nat ->
         node k <> NULL
         /\ Explicit.check_alloc st (node k) = FREE
         /\ (Explicit.get_prev_free st (node k) <> NULL ->
             Explicit.get_next_free st (Explicit.get_prev_free st (node k))
             = node k).
Proof.
  intros fuel st H n n_free node. unfold Explicit.validate_heap in H.
  fold n n_free in H.
  pose proof (explicit_validate_loop_spec st n (Explicit.start_block st) 0 0 0) as Hl.
  destruct (Explicit.validate_loop st (Explicit.start_block st) 0 0 0 n)
    as ((u & f) & c).
  destruct Hl as (Hl1 & Hl2).
  destruct (wrap64 (u + f) =? Explicit.segment_size st) eqn:E1; [|discriminate].
  cbn [negb] in H.
  destruct (c =? n_free) eqn:E2; [|discriminate].
  cbn [negb] in H.
  apply Z.eqb_eq in E1, E2.
  destruct (explicit_validate_free_list_sound st _ _ _ H) as (H1 & H2 & H3).
  split; [rewrite <- E1, Hl1; f_equal; lia|].
  split; [lia|]. split; [exact H1|]. split; [exact H2 | exact H3].
Qed.

Lemma explicit_validate_heap_sound_witness :
  let st := fst explicit_malloc100 in
  wrap64 (span st (Explicit.start_block st) (Z.to_nat (Explicit.nblocks st)))
  = Explicit.segment_size st
  /\ free_count st (Explicit.start_block st) (Z.to_nat (Explicit.nblocks st))
     = wrap_int (wrap64 (Explicit.nblocks st - Explicit.nused st)).
Proof.
  destruct (explicit_validate_heap_sound 4 (fst explicit_malloc100))
    as (H1 & H2 & _).
  - vm_compute. reflexivity.
  - split; [exact H1 | exact H2].
Defined.

(** ** [myfree] and [myrealloc] of the implicit variant *)

Lemma implicit_free_facts :
  (forall st, Implicit.myfree st NULL = st)
  /\ (forall st p,
        p <> NULL ->
        let st' := Implicit.myfree st p in
        Implicit.check_alloc st' p = FREE
        /\ Implicit.get_block_size st' p = Implicit.get_block_size st p
        /\ Implicit.nblocks st' = Implicit.nblocks st
        /\ Implicit.nused st' = wrap_int (Implicit.nused st - 1)
        /\ Implicit.bytes_used st'
           = wrap64 (Implicit.bytes_used st
                     - (Implicit.get_block_size st p + WIDTH))
        /\ (forall a, a < Implicit.get_hdr p \/ Implicit.get_hdr p + 8 <= a ->
                      Implicit.heap st' a = Implicit.heap st a)).
Proof.
  split; [reflexivity|]. intros st p Hp st'. subst st'.
  unfold Implicit.myfree. apply Z.eqb_neq in Hp. rewrite Hp.
  set (st0 := Implicit.set_nused st (wrap_int (Implicit.nused st - 1))).
  assert (Hfree : 0 <= FREE < 2) by (unfold FREE; lia).
  destruct (proj1 set_hdr_status_facts st0 p FREE Hfree) as (Hc & Hs).
  change (Implicit.get_block_size st0 p) with (Implicit.get_block_size st p) in Hs.
  rewrite Hs.
  split; [exact Hc|]. split; [exact Hs|].
  split; [reflexivity|]. split; [reflexivity|]. split; [reflexivity|].
  intros a Ha. cbn [Implicit.set_bytes_used Implicit.heap].
  unfold Implicit.set_hdr_status. cbn [Implicit.set_heap Implicit.heap].
  rewrite store64_out by exact Ha. reflexivity.
Qed.

(** X13.  Implicit [myfree]: a null pointer changes nothing.  For a block
    [p] the status becomes [FREE] and the size stays; [nused] drops by one
    and [bytes_used] by the block's size plus 8; [nblocks] stays (nothing
    is merged); and no byte outside the 8-byte header of [p] changes. *)
Theorem implicit_free_effect :
  (forall st, Implicit.myfree st NULL = st)
  /\ (forall st p,
        p <> NULL ->
        let st' := Implicit.myfree st p in
        Implicit.check_alloc st' p = FREE
        /\ Implicit.get_block_size st' p = Implicit.get_block_size st p
        /\ Implicit.nblocks st' = Implicit.nblocks st
        /\ Implicit.nused st' = wrap_int (Implicit.nused st - 1)
        /\ Implicit.bytes_used st'
           = wrap64 (Implicit.bytes_used st
                     - (Implicit.get_block_size st p + WIDTH))
        /\ (forall a, a < Implicit.get_hdr p \/ Implicit.get_hdr p + 8 <= a ->
                      Implicit.heap st' a = Implicit.heap st a)).
Proof. exact implicit_free_facts. Qed.

Lemma implicit_free_effect_witness :
  Implicit.check_alloc (Implicit.myfree (fst implicit_malloc100) (base0 + 8))
                       (base0 + 8) = FREE
  /\ Implicit.get_block_size (Implicit.myfree (fst implicit_malloc100) (base0 + 8))
                             (base0 + 8)
     = Implicit.get_block_size (fst implicit_malloc100) (base0 + 8).
Proof.
  destruct (proj2 implicit_free_effect (fst implicit_malloc100) (base0 + 8))
    as (H1 & H2 & _).
  - unfold base0, NULL. lia.
  - split; [exact H1 | exact H2].
Defined.



(** ** Growing [myrealloc] of the explicit variant *)

Lemma right_search_blocked st rn add :
  0 < add -> Explicit.check_alloc st rn <> FREE ->
  Explicit.right_search st rn add = Some 0.
Proof.
  intros Hadd Ha. unfold Explicit.right_search.
  destruct (Z.to_nat (add / 8 + 1)) eqn:E.
  - assert (0 <= add / 8) by (apply Z.div_pos; lia). lia.
  - cbn [Explicit.right_search_loop].
    replace (0 <? add) with true by (symmetry; apply Z.ltb_lt; exact Hadd).
    apply Z.eqb_neq in Ha. unfold FREE in Ha. rewrite Ha. reflexivity.
Qed.

Lemma right_search_one st rn add :
  0 < add <= Explicit.get_block_size st rn + 8 ->
  Explicit.check_alloc st rn = FREE ->
  Explicit.right_search st rn add = Some 1.
Proof.
  intros Hadd Ha. unfold Explicit.right_search.
  pose proof (E_size_range st rn) as Hs.
  destruct (Z.to_nat (add / 8 + 1)) eqn:E.
  - assert (0 <= add / 8) by (apply Z.div_pos; lia). lia.
  - cbn [Explicit.right_search_loop].
    replace (0 <? add) with true by (symmetry; apply Z.ltb_lt; lia).
    rewrite Ha. unfold FREE, WIDTH. cbn [Z.eqb Z.add].
    rewrite wrap64_small by lia.
    destruct n; cbn [Explicit.right_search_loop];
      replace (Explicit.get_block_size st rn + 8 <? add) with false
        by (symmetry; apply Z.ltb_ge; lia);
      reflexivity.
Qed.

(** X15.  Explicit [myrealloc] that has to grow [p] while the block to the
    right of [p] is allocated does not grow in place: [right_search]
    answers 0, [mymalloc] is called with the rounded size [r] and its
    result goes to [memcpy] unchecked.  When [mymalloc] comes back with
    null the call faults.  When it comes back with a block [q] whose [r]
    bytes do not overlap the [r] bytes at [p], the call copies [r] bytes
    (the rounded new size, more than [p] holds), frees [p] and returns
    [q]. *)
Theorem explicit_realloc_falls_back :
  forall st p n,
    p <> NULL -> n <> 0 ->
    let c := Explicit.get_block_size st p in
    let r := Explicit.round_up n in
    c < r ->
    Explicit.check_alloc st (Explicit.get_next_block st p) <> FREE ->
    let st1 := fst (Explicit.mymalloc st r) in
    let q := snd (Explicit.mymalloc st r) in
    Explicit.right_search st (Explicit.get_next_block st p) (r - c) = Some 0
    /\ (q = NULL -> Explicit.myrealloc st p n = None)
    /\ (q <> NULL -> q + r <= p \/ p + r <= q ->
        exists h,
          Explicit.myrealloc st p n
          = Some (Explicit.myfree (Explicit.set_heap st1 h) p, q)
          /\ (forall i, 0 <= i < r -> h (q + i) = Explicit.heap st1 (p + i))
          /\ (forall a, a < q \/ q + r <= a -> h a = Explicit.heap st1 a)).
Proof.
  intros st p n Hp Hn c r Hc Hq st1 q.
  pose proof (E_size_range st p) as Hs. fold c in Hs.
  pose proof (E_round_up_range n) as Hr. fold r in Hr.
  assert (Hrs : Explicit.right_search st (Explicit.get_next_block st p) (r - c)
                = Some 0)
    by (apply right_search_blocked; [lia | exact Hq]).
  assert (H : Explicit.myrealloc st p n
              = match memcpy (Explicit.heap st1) q p r with
                | None => None
                | Some h => Some (Explicit.myfree (Explicit.set_heap st1 h) p, q)
                end).
  { unfold Explicit.myrealloc.
    assert (Ep : (p =? NULL) = false) by (apply Z.eqb_neq; exact Hp).
    assert (En : (n =? 0) = false) by (apply Z.eqb_neq; exact Hn).
    rewrite Ep, En. fold c r.
    replace (r <=? c) with false by (symmetry; apply Z.leb_gt; exact Hc).
    change (wrap64 (p + c + WIDTH)) with (Explicit.get_next_block st p).
    rewrite (wrap64_small (r - c)) by lia. rewrite Hrs.
    cbn [Z.eqb]. subst st1 q.
    destruct (Explicit.mymalloc st r). reflexivity. }
  split; [exact Hrs|]. split.
  - intros Hnull. rewrite H, Hnull.
    rewrite memcpy_null by (left; reflexivity). reflexivity.
  - intros Hqn Hsep.
    destruct (memcpy_defined (Explicit.heap st1) q p r Hqn Hp Hsep)
      as (h & Hh & Hin & Hout).
    exists h. rewrite H, Hh.
    split; [reflexivity|]. split; [exact Hin | exact Hout].
Qed.

Lemma explicit_realloc_falls_back_witness :
  let st := fst (fst explicit_before_free) in
  let a := snd (fst explicit_before_free) in
  let st1 := fst (Explicit.mymalloc st (Explicit.round_up 32)) in
  let q := snd (Explicit.mymalloc st (Explicit.round_up 32)) in
  exists h,
    Explicit.myrealloc st a 32
    = Some (Explicit.myfree (Explicit.set_heap st1 h) a, q)
    /\ forall i, 0 <= i < 32 -> h (q + i) = Explicit.heap st1 (a + i).
Proof.
  intros st a st1 q.
  destruct (explicit_realloc_falls_back st a 32) as (_ & _ & H).
  - vm_compute; discriminate.
  - discriminate.
  - vm_compute; reflexivity.
  - vm_compute; discriminate.
  - destruct H as (h & H1 & H2 & _).
    + vm_compute; discriminate.
    + right. vm_compute; discriminate.
    + exists h. split; [exact H1 | exact H2].
Defined.

Lemma clear_link_range x p c :
  block_clear_of x p c -> 0 <= x < 2 ^ 64.
Proof.
  intros [H | (H8 & H64 & _)]; [rewrite H; unfold NULL|]; lia.
Qed.

(** X16.  Explicit [myrealloc] growing [p] in place.  The block [q] to the
    right of [p] is free, lies with [p] clear of the list neighbours [np]
    and [nn] of [q] (which do not overlap each other), and alone offers the
    bytes missing.  Then [myrealloc] returns [p], the old payload bytes and
    the status of [p] are as before and [nused] is unchanged.  If at least
    24 bytes of [q] are left over, [p] gets the rounded size [r] and the
    rest of [q] becomes a free block at [p + r + 8] that ends where [q]
    ended and takes the place of [q] in the free list: it has the links of
    [q], [np] and [nn] are linked to it, and it is the tail if [q] was; the
    block count stays.  Otherwise [p] swallows [q] whole and [q] is
    unlinked: [np] and [nn] are linked to each other, [np] is the tail if
    [q] was, and the block count drops by one. *)
Theorem explicit_realloc_grows_in_place :
  forall st p n,
    let c := Explicit.get_block_size st p in
    let r := Explicit.round_up n in
    let q := Explicit.get_next_block st p in
    let sq := Explicit.get_block_size st q in
    let np := Explicit.get_prev_free st q in
    let nn := Explicit.get_next_free st q in
    8 <= p -> 16 <= sq -> p + c + 8 + sq <= 2 ^ 64 -> c + 8 + sq < 2 ^ 62 ->
    n <> 0 -> c < r -> r - c <= sq + 8 ->
    Explicit.check_alloc st q = FREE ->
    block_clear_of np p (c + 8 + sq) -> block_clear_of nn p (c + 8 + sq) ->
    np = NULL \/ nn = NULL \/ np + 24 <= nn \/ nn + 24 <= np ->
    exists st',
      Explicit.myrealloc st p n = Some (st', p)
      /\ (forall a, p <= a < p + c -> Explicit.heap st' a = Explicit.heap st a)
      /\ Explicit.check_alloc st' p = Explicit.check_alloc st p
      /\ Explicit.nused st' = Explicit.nused st
      /\ (24 <= sq + 8 - (r - c) ->
          Explicit.get_block_size st' p = r
          /\ Explicit.get_block_size st' (p + r + 8) = sq - (r - c)
          /\ Explicit.check_alloc st' (p + r + 8) = FREE
          /\ Explicit.get_prev_free st' (p + r + 8) = np
          /\ Explicit.get_next_free st' (p + r + 8) = nn
          /\ Explicit.nblocks st' = Explicit.nblocks st
          /\ Explicit.last_free_block st'
             = (if Explicit.last_free_block st =? q then p + r + 8
                else Explicit.last_free_block st)
          /\ (np <> NULL -> Explicit.get_next_free st' np = p + r + 8)
          /\ (nn <> NULL -> Explicit.get_prev_free st' nn = p + r + 8))
      /\ (sq + 8 - (r - c) < 24 ->
          Explicit.get_block_size st' p = c + 8 + sq
          /\ Explicit.nblocks st' = wrap64 (Explicit.nblocks st - 1)
          /\ Explicit.last_free_block st'
             = (if Explicit.last_free_block st =? q then np
                else Explicit.last_free_block st)
          /\ (np <> NULL -> Explicit.get_next_free st' np = nn)
          /\ (nn <> NULL -> Explicit.get_prev_free st' nn = np)).
Proof.
  intros st p n.
  intros c r q sq np nn H8 H16 Hend Hfit Hn Hc Hneed Hq Hcp Hcn Hsep.
  unfold NULL in Hsep.
  pose proof (E_size_range st p) as Hs. fold c in Hs.
  pose proof (E_size_range st q) as Hsq. fold sq in Hsq.
  pose proof (E_round_up_range n) as Hr. fold r in Hr.
  assert (Eq : q = p + c + 8).
  { unfold q, Explicit.get_next_block. fold c. unfold WIDTH.
    apply wrap64_small. lia. }
  assert (Ep : (p =? NULL) = false) by (apply Z.eqb_neq; unfold NULL; lia).
  assert (Eq0 : (q =? NULL) = false) by (apply Z.eqb_neq; unfold NULL; lia).
  pose proof (clear_link_range _ _ _ Hcp) as Hnp.
  pose proof (clear_link_range _ _ _ Hcn) as Hnn.
  unfold Explicit.myrealloc. rewrite Ep.
  replace (n =? 0) with false by (symmetry; apply Z.eqb_neq; exact Hn).
  fold c r.
  replace (r <=? c) with false by (symmetry; apply Z.leb_gt; exact Hc).
  change (wrap64 (p + c + WIDTH)) with q. fold q.
  rewrite (wrap64_small (r - c)) by lia.
  rewrite right_search_one; [| fold sq; lia | exact Hq].
  cbn [Z.eqb]. unfold Explicit.fix_neighbors.
  replace (Z.to_nat 1) with 1%nat by reflexivity.
  cbn [Explicit.fix_neighbors_loop]. fold sq np nn. unfold WIDTH, sizeof_header.
  rewrite (wrap64_small (sq + 8 - (r - c))) by lia.
  assert (Ap : Explicit.fld_block_size (Explicit.get_hdr p) = p - 8)
    by (e_addr; reflexivity).
  destruct (24 <=? sq + 8 - (r - c)) eqn:Erem.
  - (* a free remainder takes the place of the neighbour *)
    apply Z.leb_le in Erem.
    rewrite (wrap64_small (q + (r - c))), (wrap64_small (sq - (r - c))) by lia.
    replace (q + (r - c)) with (p + r + 8) by lia.
    eexists. split; [reflexivity|].
    unfold Explicit.create_partial_fb. fold np nn.
    unfold Explicit.check_alloc, Explicit.get_block_size, Explicit.get_prev_free,
      Explicit.get_next_free.
    e_norm.
    replace (p + r + 8 =? NULL) with false
      by (symmetry; apply Z.eqb_neq; unfold NULL; lia).
    destruct (E_field_addrs (p + r + 8)) as (A1 & A2 & A3); [lia | lia |].
    rewrite Ap, A1, A2, A3.
    destruct (np =? NULL) eqn:Enp; destruct (nn =? NULL) eqn:Enn.
    all: try (destruct (clear_link_addrs np p _ Hcp Enp) as (Hp1 & Hp2 & Hp3);
              rewrite ?Hp1, ?Hp2).
    all: try (destruct (clear_link_addrs nn p _ Hcn Enn) as (Hn1 & Hn2 & Hn3);
              rewrite ?Hn1, ?Hn2).
    all: try (assert (Hnp0 : np <> 0) by (apply Z.eqb_neq; exact Enp)).
    all: try (assert (Hnn0 : nn <> 0) by (apply Z.eqb_neq; exact Enn)).
    all: (split; [intros a Ha; rewrite !store64_out by lia; reflexivity|]).
    all: mem_simpl.
    all: rewrite status_of_size_word.
    all: (split; [reflexivity|]); (split; [reflexivity|]).
    all: (split; [intros _ | intros; lia]).
    all: rewrite size_of_size_word by lia.
    all: rewrite (wrap64_small _ (shl2_range _)), shl2_shr2, shl2_even.
    all: rewrite (Z.mod_small (sq - (r - c))) by lia.
    all: rewrite (wrap64_small np), (wrap64_small nn) by lia.
    all: rewrite ?(wrap64_small (p + r + 8)) by lia.
    all: repeat split; try reflexivity.
    all: intros Hne;
      try (apply Z.eqb_eq in Enp; contradiction);
      try (apply Z.eqb_eq in Enn; contradiction).
  - (* the neighbour is swallowed whole *)
    apply Z.leb_gt in Erem.
    rewrite (wrap64_small (r + (sq + 8 - (r - c)))) by lia.
    replace (r + (sq + 8 - (r - c))) with (c + 8 + sq) by lia.
    destruct (E_field_addrs q) as (Aq1 & Aq2 & Aq3); [lia | lia |].
    assert (Hrn : Explicit.get_next_free (Explicit.set_next_ptr st np nn) q = nn).
    { unfold Explicit.get_next_free at 1. rewrite Eq0. e_norm. rewrite Aq3.
      destruct (np =? NULL) eqn:Enp.
      - unfold nn, Explicit.get_next_free. rewrite Eq0, Aq3. reflexivity.
      - destruct (clear_link_addrs np p _ Hcp Enp) as (Hp1 & Hp2 & Hp3).
        rewrite Hp2, load64_store64_other by lia.
        unfold nn, Explicit.get_next_free. rewrite Eq0, Aq3. reflexivity. }
    assert (Hrp : Explicit.get_prev_free (Explicit.set_next_ptr st np nn) q = np).
    { unfold Explicit.get_prev_free at 1. rewrite Eq0. e_norm. rewrite Aq2.
      destruct (np =? NULL) eqn:Enp.
      - unfold np, Explicit.get_prev_free. rewrite Eq0, Aq2. reflexivity.
      - destruct (clear_link_addrs np p _ Hcp Enp) as (Hp1 & Hp2 & Hp3).
        rewrite Hp2, load64_store64_other by lia.
        unfold np, Explicit.get_prev_free. rewrite Eq0, Aq2. reflexivity. }
    rewrite Hrn, Hrp.
    eexists. split; [reflexivity|].
    unfold Explicit.check_alloc, Explicit.get_block_size,
      Explicit.get_prev_free, Explicit.get_next_free.
    e_norm. rewrite Ap.
    destruct (np =? NULL) eqn:Enp; destruct (nn =? NULL) eqn:Enn.
    all: try (destruct (clear_link_addrs np p _ Hcp Enp) as (Hp1 & Hp2 & Hp3);
              rewrite ?Hp1, ?Hp2).
    all: try (destruct (clear_link_addrs nn p _ Hcn Enn) as (Hn1 & Hn2 & Hn3);
              rewrite ?Hn1, ?Hn2).
    all: try (assert (Hnp0 : np <> 0) by (apply Z.eqb_neq; exact Enp)).
    all: try (assert (Hnn0 : nn <> 0) by (apply Z.eqb_neq; exact Enn)).
    all: (split; [intros a Ha; rewrite !store64_out by lia; reflexivity|]).
    all: mem_simpl.
    all: rewrite status_of_size_word.
    all: (split; [reflexivity|]); (split; [reflexivity|]).
    all: (split; [intros; lia | intros _]).
    all: rewrite size_of_size_word by lia.
    all: rewrite ?(wrap64_small np), ?(wrap64_small nn) by lia.
    all: repeat split; try reflexivity.
    all: intros Hne;
      try (apply Z.eqb_eq in Enp; contradiction);
      try (apply Z.eqb_eq in Enn; contradiction).
Qed.

Lemma explicit_realloc_grows_in_place_witness :
  let st := fst (fst explicit_grow_linked) in
  let p := snd (fst explicit_grow_linked) in
  let a := snd explicit_grow_linked in
  exists st',
    Explicit.myrealloc st p 40 = Some (st', p)
    /\ (forall x, p <= x < p + Explicit.get_block_size st p ->
                  Explicit.heap st' x = Explicit.heap st x)
    /\ Explicit.get_block_size st' p = 40
    /\ Explicit.get_next_free st' (p + 40 + 8) = a
    /\ Explicit.get_prev_free st' a = p + 40 + 8.
Proof.
  intros st p a.
  destruct (explicit_realloc_grows_in_place st p 40)
    as (st' & H1 & H2 & _ & _ & H5 & _).
  - vm_compute; discriminate.
  - vm_compute; discriminate.
  - vm_compute; discriminate.
  - vm_compute; reflexivity.
  - discriminate.
  - vm_compute; reflexivity.
  - vm_compute; discriminate.
  - vm_compute; reflexivity.
  - left. vm_compute; reflexivity.
  - right. split; [vm_compute; discriminate|].
    split; [vm_compute; discriminate|].
    left. vm_compute; discriminate.
  - left. vm_compute; reflexivity.
  - destruct H5 as (S1 & _ & _ & _ & S5 & _ & _ & _ & S9);
      [vm_compute; discriminate|].
    assert (E : Explicit.get_next_free st (Explicit.get_next_block st p) = a)
      by (vm_compute; reflexivity).
    rewrite E in S5, S9.
    exists st'. split; [exact H1|]. split; [exact H2|].
    split; [exact S1|]. split; [exact S5|].
    apply S9. vm_compute; discriminate.
Defined.

(** ** [mymalloc] followed by [myfree] in the explicit variant *)

Lemma explicit_split_links st n :
  let r := Explicit.round_up n in
  let p := snd (Explicit.mymalloc st n) in
  let st' := fst (Explicit.mymalloc st n) in
  let s := Explicit.get_block_size st p in
  p <> NULL -> 8 <= p -> p + s <= 2 ^ 64 -> 24 <= s - r ->
  Explicit.get_prev_free st' (p + r + 8) = Explicit.get_prev_free st p
  /\ Explicit.get_next_free st' (p + r + 8) = Explicit.get_next_free st p
  /\ Explicit.nused st' = wrap64 (Explicit.nused st + 1).
Proof.
  intros r p st' s. subst p st' s. unfold Explicit.mymalloc. fold r.
  destruct (n <=? 0); [cbn [fst snd]; congruence|].
  set (b := Explicit.first_fit st r).
  destruct (b =? NULL) eqn:Eb; [cbn [fst snd]; congruence|].
  pose proof (E_round_up_range n) as Hr. fold r in Hr.
  pose proof (E_size_range st b) as Hs.
  set (s := Explicit.get_block_size st b) in *.
  destruct (wrap64 (s - r) <? sizeof_header) eqn:Ediff.
  - destruct (b =? Explicit.last_free_block st); cbn [fst snd]; fold s;
      intros Hp H8 Hend Hrs; exfalso;
      rewrite (wrap64_small (s - r)) in Ediff by lia;
      apply Z.ltb_lt in Ediff; unfold sizeof_header in Ediff; lia.
  - cbn [fst snd]. fold s. intros Hp H8 Hend Hrs.
    unfold Explicit.create_partial_fb.
    set (np := Explicit.get_prev_free st b).
    set (nn := Explicit.get_next_free st b).
    assert (Hnp : 0 <= np < 2 ^ 64).
    { unfold np, Explicit.get_prev_free. rewrite Eb. apply load64_range. }
    assert (Hnn : 0 <= nn < 2 ^ 64).
    { unfold nn, Explicit.get_next_free. rewrite Eb. apply load64_range. }
    unfold Explicit.get_prev_free, Explicit.get_next_free. e_norm.
    unfold WIDTH. rewrite (wrap64_small (b + r + 8)) by lia.
    replace (b + r + 8 =? NULL) with false
      by (symmetry; apply Z.eqb_neq; unfold NULL; lia).
    destruct (E_field_addrs (b + r + 8)) as (A1 & A2 & A3); [lia | lia |].
    destruct (E_field_addrs b) as (B1 & B2 & B3); [lia | lia |].
    rewrite A1, A2, A3, B1. mem_simpl.
    rewrite (wrap64_small np), (wrap64_small nn) by lia.
    repeat split; reflexivity.
Qed.

(** X17.  Explicit variant: a [mymalloc] that splits a free block,
    followed at once by [myfree] of the returned pointer, undoes itself.
    The block at [p] is free again with its old size and its old list
    links, and the block count, the used count and the free-list tail are
    what they were before the [mymalloc]. *)
Theorem explicit_malloc_free_round_trip :
  forall st n,
    let r := Explicit.round_up n in
    let p := snd (Explicit.mymalloc st n) in
    let st1 := fst (Explicit.mymalloc st n) in
    let s := Explicit.get_block_size st p in
    let st2 := Explicit.myfree st1 p in
    p <> NULL -> 8 <= p -> p + s <= 2 ^ 64 -> 24 <= s - r ->
    0 <= Explicit.nblocks st < 2 ^ 64 -> 0 <= Explicit.nused st < 2 ^ 64 ->
    block_clear_of (Explicit.get_prev_free st p) p s ->
    block_clear_of (Explicit.get_next_free st p) p s ->
    Explicit.last_free_block st = p \/ tail_clear_of st p s ->
    Explicit.check_alloc st2 p = FREE
    /\ Explicit.get_block_size st2 p = s
    /\ Explicit.get_prev_free st2 p = Explicit.get_prev_free st p
    /\ Explicit.get_next_free st2 p = Explicit.get_next_free st p
    /\ Explicit.nblocks st2 = Explicit.nblocks st
    /\ Explicit.nused st2 = Explicit.nused st
    /\ Explicit.last_free_block st2 = Explicit.last_free_block st.
Proof.
  intros st n.
  intros r p st1 s st2 Hp H8 Hend Hrs Hnb Hnu Hcp Hcn Hlast.
  pose proof (E_round_up_range n) as Hr. fold r in Hr.
  pose proof (E_size_range st p) as Hs. fold s in Hs.
  destruct (explicit_split_policy st n Hp H8 Hend) as (_ & _ & Hsplit);
    [change (r <= s); lia|].
  destruct (Hsplit Hrs) as (Hsz & Hszq & Hfq & Hnb1 & Hl1). clear Hsplit.
  destruct (explicit_split_links st n Hp H8 Hend Hrs) as (Hpq & Hnq & Hnu1).
  fold r p st1 s in Hsz, Hszq, Hfq, Hnb1, Hl1, Hpq, Hnq, Hnu1.
  assert (Hq : Explicit.get_next_block st1 p = p + r + 8).
  { unfold Explicit.get_next_block. rewrite Hsz. unfold WIDTH.
    apply wrap64_small. lia. }
  assert (Hclr : forall l, block_clear_of l p s -> block_clear_of l p r).
  { intros l [Hl | Hl]; [left; exact Hl | right; lia]. }
  destruct (explicit_free_coalesces st1 p) as (F1 & F2 & F3 & F4 & F5 & F6 & F7).
  - exact H8.
  - rewrite Hsz. lia.
  - rewrite Hsz. lia.
  - rewrite Hq, Hsz, Hszq. lia.
  - rewrite Hq. exact Hfq.
  - rewrite Hq, Hsz, Hpq. apply Hclr, Hcp.
  - rewrite Hq, Hsz, Hnq. apply Hclr, Hcn.
  - fold st2 in F1, F2, F3, F4, F5, F6, F7.
    rewrite Hq in F2, F3, F4, F7. rewrite Hsz, Hszq in F2.
    repeat split.
    + exact F1.
    + rewrite F2. lia.
    + rewrite F3. exact Hpq.
    + rewrite F4. exact Hnq.
    + rewrite F5, Hnb1.
      replace (wrap64 (Explicit.nblocks st + 1) - 1)
        with (-1 + wrap64 (Explicit.nblocks st + 1)) by lia.
      rewrite wrap64_add_r. rewrite <- (wrap64_small _ Hnb) at 2. f_equal. lia.
    + rewrite F6, Hnu1.
      replace (wrap64 (Explicit.nused st + 1) - 1)
        with (-1 + wrap64 (Explicit.nused st + 1)) by lia.
      rewrite wrap64_add_r. rewrite <- (wrap64_small _ Hnu) at 2. f_equal. lia.
    + rewrite F7, Hl1.
      destruct (Explicit.last_free_block st =? p) eqn:El.
      * rewrite Z.eqb_refl. apply Z.eqb_eq in El. congruence.
      * apply Z.eqb_neq in El.
        destruct Hlast as [Hl | Hl]; [contradiction|].
        replace (Explicit.last_free_block st =? p + r + 8) with false;
          [reflexivity|].
        symmetry. apply Z.eqb_neq.
        destruct Hl as [Hl | Hl]; unfold NULL in *; lia.
Qed.

Lemma explicit_malloc_free_round_trip_witness :
  let p := snd (Explicit.mymalloc explicit_fresh 100) in
  let st2 := Explicit.myfree (fst (Explicit.mymalloc explicit_fresh 100)) p in
  Explicit.get_block_size st2 p = Explicit.get_block_size explicit_fresh p
  /\ Explicit.nblocks st2 = Explicit.nblocks explicit_fresh
  /\ Explicit.last_free_block st2 = Explicit.last_free_block explicit_fresh.
Proof.
  intros p st2.
  destruct (explicit_malloc_free_round_trip explicit_fresh 100)
    as (_ & H2 & _ & _ & H5 & _ & H7).
  - vm_compute; discriminate.
  - vm_compute; discriminate.
  - vm_compute; discriminate.
  - vm_compute; discriminate.
  - vm_compute; split; [discriminate | reflexivity].
  - vm_compute; split; [discriminate | reflexivity].
  - left. vm_compute; reflexivity.
  - left. vm_compute; reflexivity.
  - left. vm_compute; reflexivity.
  - repeat split; assumption.
Defined.

(** ** The block layout of the implicit heap is kept *)

Lemma load64_agree m m' a :
  (forall x, a <= x < a + 8 -> m' x = m x) -> load64 m' a = load64 m a.
Proof.
  intros H. unfold load64.
  rewrite (H a), (H (a + 1)), (H (a + 2)), (H (a + 3)), (H (a + 4)),
    (H (a + 5)), (H (a + 6)), (H (a + 7)) by lia.
  reflexivity.
Qed.

Lemma implicit_size_agree st st' p :
  8 <= p -> p <= 2 ^ 64 ->
  (forall x, p - 8 <= x < p -> Implicit.heap st' x = Implicit.heap st x) ->
  Implicit.get_block_size st' p = Implicit.get_block_size st p.
Proof.
  intros H8 Hp H. unfold Implicit.get_block_size, Implicit.get_ul.
  unfold Implicit.get_hdr, WIDTH. rewrite (wrap64_small (p - 8)) by lia.
  f_equal. apply load64_agree. intros x Hx. apply H. lia.
Qed.

Lemma implicit_chain_le st k :
  forall p, implicit_chain st p k -> p <= Implicit.segment_end st + 8.
Proof.
  induction k as [|k IH]; intros p H; cbn in H.
  - lia.
  - destruct H as (Hp & _ & _). lia.
Qed.

Lemma implicit_chain_length st k :
  forall p, implicit_chain st p k ->
            p + 8 * Z.of_nat k <= Implicit.segment_end st + 8.
Proof.
  induction k as [|k IH]; intros p H.
  - cbn in H. lia.
  - destruct H as (Hp & _ & H). apply IH in H.
    pose proof (I_size_range st p). lia.
Qed.

Lemma implicit_chain_next st p k :
  Implicit.segment_end st + 8 <= 2 ^ 64 ->
  implicit_chain st p (S (S k)) ->
  Implicit.get_next_block st p = p + Implicit.get_block_size st p + 8.
Proof.
  intros Hend (Hp & _ & (Hq & _ & _)).
  unfold Implicit.get_next_block, WIDTH.
  pose proof (I_size_range st p).
  rewrite (wrap64_small (p + Implicit.get_block_size st p + 8)) by lia.
  replace (p + Implicit.get_block_size st p + 8 <? Implicit.segment_end st)
    with true; [reflexivity|].
  symmetry. apply Z.ltb_lt. lia.
Qed.

Lemma implicit_chain_walk st :
  Implicit.segment_end st + 8 <= 2 ^ 64 ->
  forall i n p,
    implicit_chain st p n -> (i < n)%nat ->
    implicit_chain st (implicit_walk st p i) (n - i) /\ p <= implicit_walk st p i.
Proof.
  intros Hend. induction i as [|i IH]; intros n p H Hi.
  - cbn [implicit_walk]. rewrite Nat.sub_0_r. split; [exact H | lia].
  - destruct n as [|[|n]]; try lia.
    cbn [implicit_walk]. rewrite (implicit_chain_next st p n Hend H).
    destruct H as (Hp & _ & H).
    destruct (IH (S n) _ H) as (IH1 & IH2); [lia|].
    split; [exact IH1|]. pose proof (I_size_range st p). lia.
Qed.

Lemma implicit_chain_suffix st st' :
  Implicit.segment_end st' = Implicit.segment_end st ->
  Implicit.segment_end st + 8 <= 2 ^ 64 ->
  forall k p,
    implicit_chain st p k ->
    (forall a, p - 8 <= a -> Implicit.heap st' a = Implicit.heap st a) ->
    implicit_chain st' p k.
Proof.
  intros Hse Hend. induction k as [|k IH]; intros p H Hfr.
  - cbn in *. lia.
  - destruct H as (Hp & Hm & H).
    assert (Hs : Implicit.get_block_size st' p = Implicit.get_block_size st p).
    { apply implicit_size_agree; [lia | lia |]. intros x Hx. apply Hfr. lia. }
    cbn [implicit_chain]. rewrite Hs, Hse.
    split; [lia|]. split; [exact Hm|].
    apply IH; [exact H|]. intros a Ha. apply Hfr.
    pose proof (I_size_range st p). lia.
Qed.

Lemma implicit_chain_prefix st st' :
  Implicit.segment_end st' = Implicit.segment_end st ->
  Implicit.segment_end st + 8 <= 2 ^ 64 ->
  forall i n p,
    implicit_chain st p n -> (i < n)%nat ->
    (forall a, a < implicit_walk st p i - 8 ->
               Implicit.heap st' a = Implicit.heap st a) ->
    forall m, implicit_chain st' (implicit_walk st p i) m ->
              implicit_chain st' p (i + m).
Proof.
  intros Hse Hend. induction i as [|i IH]; intros n p H Hi Hfr m Hm.
  - exact Hm.
  - destruct n as [|[|n]]; try lia.
    cbn [implicit_walk] in *.
    rewrite (implicit_chain_next st p n Hend H) in *.
    destruct H as (Hp & Hmod & H).
    destruct (implicit_chain_walk st Hend i (S n) _ H) as (_ & Hle); [lia|].
    pose proof (I_size_range st p) as Hsr.
    assert (Hs : Implicit.get_block_size st' p = Implicit.get_block_size st p).
    { apply implicit_size_agree; [lia | lia |]. intros x Hx. apply Hfr. lia. }
    cbn [Nat.add implicit_chain]. rewrite Hs, Hse.
    split; [lia|]. split; [exact Hmod|].
    apply (IH (S n)); [exact H | lia | exact Hfr | exact Hm].
Qed.

Lemma wrap64_decomp x : exists k, wrap64 x = x + 2 ^ 64 * k.
Proof.
  exists (- (x / 2 ^ 64)). unfold wrap64.
  pose proof (Z.div_mod x (2 ^ 64)). lia.
Qed.

Lemma wrap64_congr a b k : a = b + 2 ^ 64 * k -> wrap64 a = wrap64 b.
Proof.
  intros ->. unfold wrap64. rewrite Z.mul_comm. apply Z.mod_add. lia.
Qed.

Lemma implicit_validate_sum st :
  Implicit.segment_end st + 8 <= 2 ^ 64 ->
  forall k p u f,
    implicit_chain st p k ->
    wrap64 (fst (Implicit.validate_loop st p u f k)
            + snd (Implicit.validate_loop st p u f k))
    = wrap64 (u + f + (Implicit.segment_end st + 8 - p)).
Proof.
  intros Hend. induction k as [|k IH]; intros p u f H.
  - cbn in *. f_equal. lia.
  - cbn [Implicit.validate_loop]. unfold WIDTH.
    set (s := Implicit.get_block_size st p).
    destruct (wrap64_decomp (s + 8)) as [k1 E1].
    destruct (wrap64_decomp (f + wrap64 (s + 8))) as [k2 E2].
    destruct (wrap64_decomp (u + wrap64 (s + 8))) as [k3 E3].
    destruct k as [|k].
    + destruct H as (_ & _ & H). cbn [implicit_chain] in H. fold s in H.
      destruct (Implicit.check_alloc st p =? 0);
        cbn [Implicit.validate_loop fst snd].
      * rewrite E2, E1. apply (wrap64_congr _ _ (k1 + k2)). lia.
      * rewrite E3, E1. apply (wrap64_congr _ _ (k1 + k3)). lia.
    + rewrite (implicit_chain_next st p k Hend H). fold s.
      destruct H as (_ & _ & H). fold s in H.
      destruct (Implicit.check_alloc st p =? 0); rewrite (IH _ _ _ H).
      * rewrite E2, E1. apply (wrap64_congr _ _ (k1 + k2)). lia.
      * rewrite E3, E1. apply (wrap64_congr _ _ (k1 + k3)). lia.
Qed.

Lemma implicit_layout_valid st :
  implicit_layout st -> Implicit.validate_heap st = true.
Proof.
  intros (Hend & Hsz & Hnb & H). unfold Implicit.validate_heap.
  pose proof (implicit_validate_sum st Hend _ _ 0 0 H) as Hsum.
  pose proof (implicit_chain_length st _ _ H) as Hlen.
  destruct (Implicit.validate_loop st (Implicit.start_block st) 0 0
              (Z.to_nat (Implicit.nblocks st))) as [u f].
  cbn [fst snd] in Hsum. rewrite Hsum. apply Z.eqb_eq.
  replace (0 + 0 + (Implicit.segment_end st + 8 - Implicit.start_block st))
    with (Implicit.segment_size st) by lia.
  apply wrap64_small.
  destruct (Z.to_nat (Implicit.nblocks st)); cbn [implicit_chain] in H; lia.
Qed.

Lemma implicit_malloc_result st n st' p :
  Implicit.mymalloc st n = Some (st', p) -> p <> NULL ->
  p = Implicit.first_fit st (Implicit.round_up n).
Proof.
  unfold Implicit.mymalloc.
  destruct (n <=? 0); [intros [= _ <-]; congruence|].
  destruct (Implicit.first_fit st (Implicit.round_up n) =? NULL);
    [intros [= _ <-]; congruence|].
  destruct (0 <? _); [destruct (_ =? NULL); [discriminate|]|];
    intros [= _ <-] _; reflexivity.
Qed.

Lemma implicit_malloc_frame st n st' p :
  Implicit.mymalloc st n = Some (st', p) ->
  let r := Implicit.round_up n in
  let s := Implicit.get_block_size st p in
  p <> NULL -> 8 <= p -> p + s + 8 <= 2 ^ 64 -> r <= s ->
  s - r = 0 \/ 8 <= s - r ->
  Implicit.segment_end st' = Implicit.segment_end st
  /\ Implicit.start_block st' = Implicit.start_block st
  /\ Implicit.segment_size st' = Implicit.segment_size st
  /\ forall a, a < p - 8 \/ p + s <= a ->
               Implicit.heap st' a = Implicit.heap st a.
Proof.
  unfold Implicit.mymalloc. set (r := Implicit.round_up n).
  destruct (n <=? 0); [intros [= <- <-]; cbv zeta; congruence|].
  set (b := Implicit.first_fit st r).
  destruct (b =? NULL) eqn:Eb; [intros [= <- <-]; cbv zeta; congruence|].
  pose proof (I_round_up_range n) as Hr. fold r in Hr.
  pose proof (I_size_range st b) as Hs.
  set (s := Implicit.get_block_size st b) in *.
  assert (Hnb : 8 <= b -> b + s + 8 <= 2 ^ 64 -> r < s ->
                Implicit.get_next_block
                  (Implicit.set_hdr_status (Implicit.set_hdr_size st b r) b ALLOC) b
                = if b + r + 8 <? Implicit.segment_end st then b + r + 8 else NULL).
  { intros H8 Hend Hrs. unfold Implicit.get_next_block.
    replace (Implicit.get_block_size
               (Implicit.set_hdr_status (Implicit.set_hdr_size st b r) b ALLOC) b)
      with r.
    - unfold WIDTH. rewrite (wrap64_small (b + r + 8)) by lia. reflexivity.
    - symmetry. unfold Implicit.get_block_size. i_norm.
      rewrite !load64_store64_same.
      rewrite size_of_status_word; [| apply wrap64_range | unfold ALLOC; lia].
      apply size_of_size_word. lia. }
  destruct (0 <? wrap64 (s - r)) eqn:Ediff.
  - destruct (Implicit.get_next_block _ b =? NULL) eqn:Enull; [discriminate|].
    intros [= <- <-]. cbv zeta. fold s. intros Hp H8 Hend Hrs Hcase.
    rewrite (wrap64_small (s - r)) in * by lia.
    apply Z.ltb_lt in Ediff.
    specialize (Hnb H8 Hend ltac:(lia)).
    rewrite Hnb in *. clear Hnb.
    destruct (b + r + 8 <? Implicit.segment_end st) eqn:Eend;
      [| rewrite Z.eqb_refl in Enull; discriminate].
    i_norm.
    split; [reflexivity|]. split; [reflexivity|]. split; [reflexivity|].
    intros a Ha. i_addr. rewrite !store64_out by lia. reflexivity.
  - intros [= <- <-]. cbv zeta. fold s. intros Hp H8 Hend Hrs Hcase.
    i_norm.
    split; [reflexivity|]. split; [reflexivity|]. split; [reflexivity|].
    intros a Ha. i_addr. rewrite !store64_out by lia. reflexivity.
Qed.

Lemma implicit_round_up_mod8 n : Implicit.round_up n mod 8 = 0.
Proof.
  unfold Implicit.round_up. rewrite round8_small by apply wrap64_range.
  rewrite Z.mul_comm. apply Z.mod_mul. lia.
Qed.

(** X18.  Implicit [validate_heap] returns true for every heap whose
    [nblocks] blocks, counted from [start_block], lie one after the other
    and end at [segment_end], with sizes that are multiples of 8 and
    [segment_size] the bytes from the first header to [segment_end]:
    whatever the blocks' statuses, the used and the free bytes it sums add
    up to [segment_size]. *)
Theorem implicit_validate_heap_accepts_layout :
  forall st, implicit_layout st -> Implicit.validate_heap st = true.
Proof. exact implicit_layout_valid. Qed.

Lemma implicit_validate_heap_accepts_layout_witness :
  Implicit.validate_heap implicit_two_holes = true.
Proof.
  apply (implicit_validate_heap_accepts_layout implicit_two_holes).
  unfold implicit_layout. vm_compute.
  repeat split; try reflexivity; try discriminate.
Defined.

(** X19.  Implicit [myinit] on a region that does not start at null, whose
    size is a multiple of 8, at least 16 and below [2^62 + 8], and which
    ends at least 8 bytes before the address space does, returns true and
    leaves a well laid out heap: one block that spans the region after its
    header. *)
Theorem implicit_init_establishes_layout :
  forall m base size,
    0 < base -> base + size + 8 <= 2 ^ 64 ->
    16 <= size < 2 ^ 62 + 8 -> size mod 8 = 0 ->
    exists st,
      Implicit.myinit m base size = Some (st, true) /\ implicit_layout st.
Proof.
  intros m base size.
  intros Hb Hend Hsz Hmod. unfold Implicit.myinit.
  replace (base =? NULL) with false
    by (symmetry; apply Z.eqb_neq; unfold NULL; lia).
  eexists. split; [reflexivity|]. unfold implicit_layout.
  cbn [fst Implicit.segment_end Implicit.start_block Implicit.segment_size
       Implicit.nblocks].
  unfold WIDTH. rewrite !wrap64_small by lia.
  split; [lia|]. split; [lia|]. split; [lia|].
  change (Z.to_nat 1) with 1%nat. cbn [implicit_chain Implicit.segment_end].
  assert (Hs : Implicit.get_block_size
                 (Implicit.mkState base (base + size) size 1 0 0 (base + 8)
                    (store64 m base (shl2 (size - 8)))) (base + 8) = size - 8).
  { unfold Implicit.get_block_size, Implicit.get_ul, Implicit.get_hdr, WIDTH.
    cbn [Implicit.heap]. replace (base + 8 - 8) with base by lia.
    rewrite (wrap64_small base) by lia. rewrite load64_store64_same.
    rewrite (wrap64_small (shl2 _)) by apply shl2_range.
    rewrite shl2_shr2. apply Z.mod_small. lia. }
  rewrite Hs. split; [lia|]. split; [|lia].
  replace (size - 8) with (size + (-1) * 8) by lia.
  rewrite Z.mod_add by lia. exact Hmod.
Qed.

Lemma implicit_init_establishes_layout_witness :
  implicit_layout implicit_fresh.
Proof.
  destruct (implicit_init_establishes_layout zero_mem base0 4096)
    as (st & Hinit & Hl).
  - vm_compute; reflexivity.
  - vm_compute; discriminate.
  - split; [vm_compute; discriminate | vm_compute; reflexivity].
  - reflexivity.
  - unfold implicit_fresh. rewrite Hinit. exact Hl.
Defined.

(** X20.  Implicit [myfree] of any of the heap's blocks (the [i]-th one
    met from [start_block], allocated or not) keeps the heap well laid
    out, so [validate_heap] accepts the heap afterwards. *)
Theorem implicit_free_keeps_layout :
  forall st p i,
    implicit_layout st ->
    (i < Z.to_nat (Implicit.nblocks st))%nat ->
    p = implicit_walk st (Implicit.start_block st) i ->
    implicit_layout (Implicit.myfree st p)
    /\ Implicit.validate_heap (Implicit.myfree st p) = true.
Proof.
  intros st p i.
  intros (Hend & Hsz & Hnb & H) Hi Hp.
  assert (Hl : implicit_layout (Implicit.myfree st p)); 
    [| split; [exact Hl | apply implicit_layout_valid, Hl]].
  destruct (implicit_chain_walk st Hend i _ _ H Hi) as (Hc & Hle).
  rewrite <- Hp in Hc, Hle.
  destruct (Z.to_nat (Implicit.nblocks st) - i)%nat as [|m] eqn:Em; [lia|].
  destruct Hc as (Hpr & Hmod & Hc).
  assert (Hnz : p <> NULL) by (unfold NULL; lia).
  destruct (proj2 implicit_free_facts st p Hnz)
    as (_ & Hs & Hn & _ & _ & Hfr).
  assert (Hhdr : Implicit.get_hdr p = p - 8).
  { unfold Implicit.get_hdr, WIDTH. apply wrap64_small. lia. }
  rewrite Hhdr in Hfr.
  assert (Hse : Implicit.segment_end (Implicit.myfree st p)
                = Implicit.segment_end st).
  { unfold Implicit.myfree. apply Z.eqb_neq in Hnz. rewrite Hnz. reflexivity. }
  assert (Hsb : Implicit.start_block (Implicit.myfree st p)
                = Implicit.start_block st).
  { unfold Implicit.myfree. apply Z.eqb_neq in Hnz. rewrite Hnz. reflexivity. }
  assert (Hss : Implicit.segment_size (Implicit.myfree st p)
                = Implicit.segment_size st).
  { unfold Implicit.myfree. apply Z.eqb_neq in Hnz. rewrite Hnz. reflexivity. }
  unfold implicit_layout. rewrite Hse, Hsb, Hss, Hn.
  split; [exact Hend|]. split; [exact Hsz|]. split; [exact Hnb|].
  replace (Z.to_nat (Implicit.nblocks st)) with (i + S m)%nat by lia.
  apply (implicit_chain_prefix st _ Hse Hend i _ _ H Hi).
  - intros a Ha. rewrite <- Hp in Ha. apply Hfr. lia.
  - rewrite <- Hp. cbn [implicit_chain]. rewrite Hs, Hse.
    split; [exact Hpr|]. split; [exact Hmod|].
    apply (implicit_chain_suffix st _ Hse Hend _ _ Hc).
    intros a Ha. apply Hfr. pose proof (I_size_range st p). lia.
Qed.

Lemma implicit_free_keeps_layout_witness :
  implicit_layout (Implicit.myfree implicit_two_holes (base0 + 8 + 72))
  /\ Implicit.validate_heap
       (Implicit.myfree implicit_two_holes (base0 + 8 + 72)) = true.
Proof.
  apply (implicit_free_keeps_layout implicit_two_holes (base0 + 8 + 72) 1).
  - unfold implicit_layout. vm_compute.
    repeat split; try reflexivity; try discriminate.
  - vm_compute. repeat constructor.
  - vm_compute. reflexivity.
Defined.

(** X21.  Implicit [mymalloc] on a well laid out heap.  If it returns a
    block [p], then [p] is one of the heap's blocks, it was free and at
    least the rounded size [r]; no byte outside the header and the old
    payload of [p] is changed; and the heap is well laid out afterwards and
    [validate_heap] accepts it.  (Where the split would leave exactly the
    8 bytes of a header at the very end of the segment the call faults and
    returns nothing.) *)
Theorem implicit_malloc_keeps_layout :
  forall st n st' p,
    Implicit.mymalloc st n = Some (st', p) ->
    let r := Implicit.round_up n in
    let s := Implicit.get_block_size st p in
    implicit_layout st -> p <> NULL ->
    implicit_layout st'
    /\ Implicit.validate_heap st' = true
    /\ (exists i, (i < Z.to_nat (Implicit.nblocks st))%nat
                  /\ p = implicit_walk st (Implicit.start_block st) i)
    /\ Implicit.check_alloc st p = FREE
    /\ r <= s
    /\ (forall a, a < p - 8 \/ p + s <= a ->
                  Implicit.heap st' a = Implicit.heap st a).
Proof.
  intros st n st' p Hm.
  intros r s (Hend & Hsz & Hnb & H) Hp.
  pose proof (implicit_malloc_result st n st' p Hm Hp) as Hres. fold r in Hres.
  destruct (implicit_first_fit_loop_spec st r (Z.to_nat (Implicit.nblocks st))
              (Implicit.start_block st))
    as [(i & Hi & Hff & Hfit & _) | (Hnull & _)];
    [| unfold Implicit.first_fit in Hres; congruence].
  fold (Implicit.first_fit st r) in Hff. rewrite <- Hres in Hff.
  rewrite <- Hff in Hfit. unfold implicit_fits in Hfit.
  apply andb_true_iff in Hfit. destruct Hfit as (Hrs & Hfree).
  apply Z.leb_le in Hrs. apply Z.eqb_eq in Hfree. fold s in Hrs.
  destruct (implicit_chain_walk st Hend i _ _ H Hi) as (Hc & Hle).
  rewrite <- Hff in Hc, Hle.
  destruct (Z.to_nat (Implicit.nblocks st) - i)%nat as [|m] eqn:Em; [lia|].
  pose proof (implicit_chain_length st _ _ H) as Hlen.
  pose proof (implicit_chain_le st _ _ H) as Hstart.
  assert (Hst8 : 8 <= Implicit.start_block st).
  { clear - H Hi. destruct (Z.to_nat (Implicit.nblocks st)); [lia|].
    destruct H as (H & _). lia. }
  destruct Hc as (Hpr & Hmod & Hc). fold s in Hmod, Hc.
  pose proof (implicit_chain_le st _ _ Hc) as Hnext.
  pose proof (I_round_up_range n) as Hr. fold r in Hr.
  pose proof (implicit_round_up_mod8 n) as Hr8. fold r in Hr8.
  pose proof (I_size_range st p) as Hs. fold s in Hs.
  assert (Hcase' : s - r = 0 \/ 8 <= s - r).
  { pose proof (Z.div_mod s 8). pose proof (Z.div_mod r 8). lia. }
  destruct (implicit_malloc_frame st n st' p Hm Hp) as (Hse & Hsb & Hss & Hfr);
    [lia | change (p + s + 8 <= 2 ^ 64); lia | exact Hrs | exact Hcase' |].
  fold s in Hse, Hsb, Hss, Hfr.
  destruct (implicit_split_policy st n st' p Hm Hp)
    as (_ & Hsz' & Hsame & Hsplit);
    [lia | change (p + s + 8 <= 2 ^ 64); lia | exact Hrs |].
  fold s r in Hsz', Hsame, Hsplit.
  assert (Hl : implicit_layout st').
  { unfold implicit_layout. rewrite Hse, Hsb, Hss.
    split; [exact Hend|]. split; [exact Hsz|].
    assert (Hsuf : implicit_chain st' (p + s + 8) m).
    { apply (implicit_chain_suffix st st' Hse Hend _ _ Hc).
      intros a Ha. apply Hfr. lia. }
    assert (Hpre : forall k, implicit_chain st' p k ->
                             implicit_chain st' (Implicit.start_block st) (i + k)).
    { intros k Hk.
      apply (implicit_chain_prefix st st' Hse Hend i _ _ H Hi).
      - intros a Ha. rewrite <- Hff in Ha. apply Hfr. lia.
      - rewrite <- Hff. exact Hk. }
    destruct Hcase' as [Heq | Hd].
    - rewrite (Hsame Heq). split; [exact Hnb|].
      replace (Z.to_nat (Implicit.nblocks st)) with (i + S m)%nat by lia.
      apply Hpre. cbn [implicit_chain]. rewrite Hsz', Hse.
      split; [exact Hpr|]. split; [exact Hr8|].
      replace (p + r + 8) with (p + s + 8) by lia. exact Hsuf.
    - destruct (Hsplit Hd) as (Hlt & Hsq & _ & Hn1).
      rewrite Hn1. rewrite (wrap64_small (Implicit.nblocks st + 1)) by lia.
      split; [lia|].
      replace (Z.to_nat (Implicit.nblocks st + 1)) with (i + S (S m))%nat by lia.
      apply Hpre. cbn [implicit_chain]. rewrite Hsz', Hsq, Hse.
      split; [exact Hpr|]. split; [exact Hr8|].
      split; [lia|]. split.
      + pose proof (Z.div_mod s 8). pose proof (Z.div_mod r 8).
        pose proof (Z.div_mod (s - r - 8) 8).
        pose proof (Z.mod_pos_bound (s - r - 8) 8). lia.
      + replace (p + r + 8 + (s - r - 8) + 8) with (p + s + 8) by lia.
        exact Hsuf. }
  split; [exact Hl|]. split; [apply implicit_layout_valid, Hl|].
  split; [exists i; split; [exact Hi | exact Hff]|].
  split; [exact Hfree|]. split; [exact Hrs | exact Hfr].
Qed.

Lemma implicit_malloc_keeps_layout_witness :
  implicit_layout (fst implicit_two_holes_malloc24)
  /\ Implicit.validate_heap (fst implicit_two_holes_malloc24) = true.
Proof.
  destruct (implicit_malloc_keeps_layout implicit_two_holes 24
              (fst implicit_two_holes_malloc24) (base0 + 8))
    as (H1 & H2 & _).
  - apply came_back_pair; vm_compute; reflexivity.
  - unfold implicit_layout. vm_compute.
    repeat split; try reflexivity; try discriminate.
  - vm_compute. discriminate.
  - split; assumption.
Defined.

(** ** [mymalloc] taking a whole block off the free list *)

(** X22.  Explicit [mymalloc] that takes a free block whole (less than 24
    bytes would be left over) unlinks it from the free list.  With [np]
    and [nn] the block's list neighbours, both clear of the block and of
    each other: if the block was the list's tail, [np] becomes the tail
    and its next link is null; otherwise the tail stays, the next link of
    [np] becomes [nn] and the previous link of [nn] becomes [np].  [nused]
    grows by one. *)
Theorem explicit_malloc_unlinks_whole_block :
  forall st n,
    let r := Explicit.round_up n in
    let p := snd (Explicit.mymalloc st n) in
    let st' := fst (Explicit.mymalloc st n) in
    let s := Explicit.get_block_size st p in
    let np := Explicit.get_prev_free st p in
    let nn := Explicit.get_next_free st p in
    p <> NULL -> 8 <= p -> p + s <= 2 ^ 64 -> r <= s -> s - r < 24 ->
    block_clear_of np p s -> block_clear_of nn p s ->
    np = NULL \/ nn = NULL \/ np + 24 <= nn \/ nn + 24 <= np ->
    Explicit.nused st' = wrap64 (Explicit.nused st + 1)
    /\ (p = Explicit.last_free_block st ->
        Explicit.last_free_block st' = np
        /\ (np <> NULL -> Explicit.get_next_free st' np = NULL))
    /\ (p <> Explicit.last_free_block st ->
        Explicit.last_free_block st' = Explicit.last_free_block st
        /\ (np <> NULL -> Explicit.get_next_free st' np = nn)
        /\ (nn <> NULL -> Explicit.get_prev_free st' nn = np)).
Proof.
  intros st n.
  intros r p st' s np nn. subst p st' s np nn. unfold Explicit.mymalloc. fold r.
  destruct (n <=? 0); [cbn [fst snd]; congruence|].
  set (b := Explicit.first_fit st r).
  destruct (b =? NULL) eqn:Eb; [cbn [fst snd]; congruence|].
  pose proof (E_round_up_range n) as Hr. fold r in Hr.
  pose proof (E_size_range st b) as Hs.
  set (s := Explicit.get_block_size st b) in *.
  destruct (wrap64 (s - r) <? sizeof_header) eqn:Ediff.
  2:{ destruct (b =? Explicit.last_free_block st); cbn [fst snd]; fold s;
        intros Hp H8 Hend Hrs Hlt; exfalso;
        rewrite (wrap64_small (s - r)) in Ediff by lia;
        apply Z.ltb_ge in Ediff; unfold sizeof_header in Ediff; lia. }
  set (np := Explicit.get_prev_free st b).
  set (nn := Explicit.get_next_free st b).
  destruct (b =? Explicit.last_free_block st) eqn:Elast; cbn [fst snd]; fold s;
    intros Hp H8 Hend Hrs Hlt Hcp Hcn Hsep; fold np in Hcp; fold nn in Hcn.
  - apply Z.eqb_eq in Elast.
    split; [e_norm; reflexivity|]. split; [| intros Hne; congruence].
    intros _. rewrite <- Elast. fold np.
    split; [e_norm; reflexivity|]. intros Hnp.
    apply Z.eqb_neq in Hnp.
    destruct (clear_link_addrs _ _ _ Hcp Hnp) as (P1 & P2 & P3).
    destruct (E_field_addrs b) as (B1 & B2 & B3); [lia | lia |].
    unfold Explicit.get_next_free. rewrite Hnp. e_norm.
    rewrite Hnp, P2, B1. mem_simpl. reflexivity.
  - apply Z.eqb_neq in Elast.
    split; [e_norm; reflexivity|]. split; [intros He; congruence|].
    intros _. split; [e_norm; reflexivity|].
    destruct (E_field_addrs b) as (B1 & B2 & B3); [lia | lia |].
    assert (Hnpr : 0 <= np < 2 ^ 64) by (apply (clear_link_range _ _ _ Hcp)).
    assert (Hnnr : 0 <= nn < 2 ^ 64) by (apply (clear_link_range _ _ _ Hcn)).
    assert (Hrp : Explicit.get_prev_free (Explicit.set_prev_ptr st nn np) b = np).
    { unfold Explicit.get_prev_free. rewrite Eb. e_norm.
      destruct (nn =? NULL) eqn:En.
      - unfold np, Explicit.get_prev_free. rewrite Eb. reflexivity.
      - destruct (clear_link_addrs _ _ _ Hcn En) as (N1 & N2 & N3).
        rewrite N1, B2. mem_simpl.
        unfold np, Explicit.get_prev_free. rewrite Eb, B2. reflexivity. }
    assert (Hrn : Explicit.get_next_free (Explicit.set_prev_ptr st nn np) b = nn).
    { unfold Explicit.get_next_free. rewrite Eb. e_norm.
      destruct (nn =? NULL) eqn:En.
      - unfold nn, Explicit.get_next_free. rewrite Eb. reflexivity.
      - destruct (clear_link_addrs _ _ _ Hcn En) as (N1 & N2 & N3).
        rewrite N1, B3. mem_simpl.
        unfold nn, Explicit.get_next_free. rewrite Eb, B3. reflexivity. }
    rewrite Hrp, Hrn. fold np nn.
    split.
    + intros Hnp. apply Z.eqb_neq in Hnp. fold np in Hnp.
      destruct (clear_link_addrs _ _ _ Hcp Hnp) as (P1 & P2 & P3).
      unfold Explicit.get_next_free. rewrite Hnp. e_norm.
      rewrite Hnp, P2, B1.
      fold np nn in Hsep. apply Z.eqb_neq in Hnp.
      destruct (nn =? NULL) eqn:Enn.
      * mem_simpl. apply wrap64_small. exact Hnnr.
      * destruct (clear_link_addrs _ _ _ Hcn Enn) as (N1 & N2 & N3).
        rewrite N1. apply Z.eqb_neq in Enn. unfold NULL in *.
        mem_simpl. apply wrap64_small. exact Hnnr.
    + intros Hnn. apply Z.eqb_neq in Hnn. fold nn in Hnn. fold np nn in Hsep.
      destruct (clear_link_addrs _ _ _ Hcn Hnn) as (N1 & N2 & N3).
      unfold Explicit.get_prev_free. rewrite Hnn. e_norm.
      rewrite Hnn, N1, B1.
      destruct (np =? NULL) eqn:Enp.
      * mem_simpl. apply wrap64_small. exact Hnpr.
      * destruct (clear_link_addrs _ _ _ Hcp Enp) as (P1 & P2 & P3).
        rewrite P2. apply Z.eqb_neq in Enp, Hnn. unfold NULL in *.
        mem_simpl. apply wrap64_small. exact Hnpr.
Qed.

Lemma explicit_malloc_unlinks_whole_block_witness :
  let st := fst (fst explicit_two_frees) in
  let st' := fst (Explicit.mymalloc st 24) in
  Explicit.last_free_block st'
  = Explicit.get_prev_free st (snd (Explicit.mymalloc st 24))
  /\ Explicit.get_next_free st' (Explicit.last_free_block st') = NULL.
Proof.
  intros st st'.
  destruct (explicit_malloc_unlinks_whole_block st 24) as (_ & H & _).
  - vm_compute; discriminate.
  - vm_compute; discriminate.
  - vm_compute; discriminate.
  - vm_compute; discriminate.
  - vm_compute; reflexivity.
  - right. vm_compute. repeat split; try discriminate. right. discriminate.
  - left. vm_compute; reflexivity.
  - right. left. vm_compute; reflexivity.
  - destruct H as (H1 & H2); [vm_compute; reflexivity|].
    split; [exact H1|]. unfold st'. rewrite H1. apply H2.
    vm_compute; discriminate.
Defined.

(** ** Alignment in the implicit variant *)

Lemma implicit_chain_aligned st :
  Implicit.segment_end st + 8 <= 2 ^ 64 ->
  forall i n p,
    implicit_chain st p n -> (i < n)%nat ->
    (implicit_walk st p i - p) mod 8 = 0.
Proof.
  intros Hend. induction i as [|i IH]; intros n p H Hi.
  - cbn [implicit_walk]. rewrite Z.sub_diag. reflexivity.
  - destruct n as [|[|n]]; try lia.
    cbn [implicit_walk]. rewrite (implicit_chain_next st p n Hend H).
    destruct H as (_ & Hmod & H).
    specialize (IH (S n) _ H ltac:(lia)).
    set (w := implicit_walk st (p + Implicit.get_block_size st p + 8) i) in *.
    set (s := Implicit.get_block_size st p) in *.
    replace (w - p) with (w - (p + s + 8) + s + 1 * 8) by lia.
    rewrite Z.mod_add by lia. rewrite Z.add_mod by lia.
    rewrite IH, Hmod. reflexivity.
Qed.

(** X23.  A pointer that the implicit [mymalloc] hands out on a well laid
    out heap is null or the payload address of a block inside the segment
    whose distance from [start_block] is a multiple of 8: with an 8-byte
    aligned region every pointer handed out is 8-byte aligned. *)
Theorem implicit_malloc_aligned :
  forall st n st' p,
    Implicit.mymalloc st n = Some (st', p) ->
    implicit_layout st -> p <> NULL ->
    (p - Implicit.start_block st) mod 8 = 0
    /\ Implicit.start_block st <= p < Implicit.segment_end st.
Proof.
  intros st n st' p Hm.
  intros (Hend & Hsz & Hnb & H) Hp.
  pose proof (implicit_malloc_result st n st' p Hm Hp) as Hres.
  destruct (implicit_first_fit_loop_spec st (Implicit.round_up n)
              (Z.to_nat (Implicit.nblocks st)) (Implicit.start_block st))
    as [(i & Hi & Hff & _) | (Hnull & _)];
    [| unfold Implicit.first_fit in Hres; congruence].
  fold (Implicit.first_fit st (Implicit.round_up n)) in Hff.
  rewrite <- Hres in Hff.
  destruct (implicit_chain_walk st Hend i _ _ H Hi) as (Hc & Hle).
  rewrite <- Hff in Hc, Hle.
  split.
  - rewrite Hff. apply (implicit_chain_aligned st Hend i _ _ H Hi).
  - destruct (Z.to_nat (Implicit.nblocks st) - i)%nat as [|m] eqn:Em; [lia|].
    destruct Hc as (Hpr & _). lia.
Qed.

Lemma implicit_malloc_aligned_witness :
  let p := snd implicit_two_holes_malloc24 in
  (p - Implicit.start_block implicit_two_holes) mod 8 = 0
  /\ Implicit.start_block implicit_two_holes <= p
     < Implicit.segment_end implicit_two_holes.
Proof.
  apply (implicit_malloc_aligned implicit_two_holes 24
           (fst implicit_two_holes_malloc24)).
  - apply came_back_pair; vm_compute; reflexivity.
  - unfold implicit_layout. vm_compute.
    repeat split; try reflexivity; try discriminate.
  - vm_compute. discriminate.
Defined.

(** ** [mymalloc] followed by [myfree] in the implicit variant *)

Lemma implicit_malloc_counters st n st' p :
  Implicit.mymalloc st n = Some (st', p) ->
  let r := Implicit.round_up n in
  p <> NULL ->
  Implicit.nused st' = wrap_int (Implicit.nused st + 1)
  /\ Implicit.bytes_used st' = wrap64 (Implicit.bytes_used st + (r + WIDTH)).
Proof.
  unfold Implicit.mymalloc. set (r := Implicit.round_up n).
  destruct (n <=? 0); [intros [= <- <-]; cbv zeta; congruence|].
  destruct (Implicit.first_fit st r =? NULL);
    [intros [= <- <-]; cbv zeta; congruence|].
  destruct (0 <? _); [destruct (_ =? NULL); [discriminate|]|];
    intros [= <- <-]; cbv zeta; intros _; i_norm; split; reflexivity.
Qed.

Lemma wrap_int_round_trip x :
  - 2 ^ 31 <= x < 2 ^ 31 -> wrap_int (wrap_int (x + 1) - 1) = x.
Proof.
  intros Hx. unfold wrap_int.
  replace ((x + 1 + 2 ^ 31) mod 2 ^ 32 - 2 ^ 31 - 1 + 2 ^ 31)
    with (x + 2 ^ 31 + (1 + (x + 1 + 2 ^ 31) mod 2 ^ 32 - (x + 1 + 2 ^ 31) - 1))
    by lia.
  pose proof (Z.div_mod (x + 1 + 2 ^ 31) (2 ^ 32)) as Hd.
  replace (1 + (x + 1 + 2 ^ 31) mod 2 ^ 32 - (x + 1 + 2 ^ 31) - 1)
    with (- ((x + 1 + 2 ^ 31) / 2 ^ 32) * 2 ^ 32) by lia.
  rewrite Z.mod_add by lia. rewrite Z.mod_small by lia. lia.
Qed.

(** X24.  Implicit variant: [myfree] right after [mymalloc] gives the
    counters [nused] and [bytes_used] their old values back but does not
    undo a split.  The block [p] is free again with the rounded size [r],
    not its old size; where [mymalloc] split off a remainder, that
    remainder is still a free block of its own next to [p] and [nblocks]
    is one more than before the [mymalloc]. *)
Theorem implicit_free_leaves_split :
  forall st n st1 p,
    Implicit.mymalloc st n = Some (st1, p) ->
    let r := Implicit.round_up n in
    let s := Implicit.get_block_size st p in
    let st2 := Implicit.myfree st1 p in
    p <> NULL -> 8 <= p -> p + s + 8 <= 2 ^ 64 -> r <= s ->
    0 <= Implicit.bytes_used st < 2 ^ 64 ->
    - 2 ^ 31 <= Implicit.nused st < 2 ^ 31 ->
    Implicit.check_alloc st2 p = FREE
    /\ Implicit.get_block_size st2 p = r
    /\ Implicit.nused st2 = Implicit.nused st
    /\ Implicit.bytes_used st2 = Implicit.bytes_used st
    /\ (8 <= s - r ->
        Implicit.get_block_size st2 (p + r + 8) = s - r - 8
        /\ Implicit.check_alloc st2 (p + r + 8) = FREE
        /\ Implicit.nblocks st2 = wrap64 (Implicit.nblocks st + 1)).
Proof.
  intros st n st1 p Hm.
  intros r s st2 Hp H8 Hend Hrs Hbu Hnu.
  pose proof (I_round_up_range n) as Hr. fold r in Hr.
  pose proof (I_size_range st p) as Hs. fold s in Hs.
  destruct (implicit_split_policy st n st1 p Hm Hp H8 Hend Hrs)
    as (_ & Hsz & _ & Hsplit).
  destruct (implicit_malloc_counters st n st1 p Hm Hp) as (Hn1 & Hb1).
  fold r s in Hsz, Hsplit, Hn1, Hb1.
  destruct (proj2 implicit_free_facts st1 p Hp)
    as (Hf & Hs2 & Hnb2 & Hn2 & Hb2 & Hfr).
  fold st2 in Hf, Hs2, Hnb2, Hn2, Hb2, Hfr.
  assert (Hhdr : Implicit.get_hdr p = p - 8).
  { unfold Implicit.get_hdr, WIDTH. apply wrap64_small. lia. }
  rewrite Hhdr in Hfr.
  split; [exact Hf|]. split; [congruence|].
  split; [rewrite Hn2, Hn1; apply wrap_int_round_trip, Hnu|].
  split.
  - rewrite Hb2, Hsz, Hb1.
    destruct (wrap64_decomp (Implicit.bytes_used st + (r + WIDTH))) as [k Ek].
    rewrite Ek. rewrite <- (wrap64_small _ Hbu) at 2.
    apply (wrap64_congr _ _ k). lia.
  - intros Hd. destruct (Hsplit Hd) as (Hlt & Hq & Hfq & Hnb).
    assert (Hload : load64 (Implicit.heap st2) (p + r)
                    = load64 (Implicit.heap st1) (p + r)).
    { apply load64_agree. intros x Hx. apply Hfr. lia. }
    assert (Hh : Implicit.get_hdr (p + r + 8) = p + r).
    { unfold Implicit.get_hdr, WIDTH. rewrite wrap64_small by lia. lia. }
    split; [| split].
    + rewrite <- Hq. unfold Implicit.get_block_size, Implicit.get_ul.
      rewrite Hh, Hload. reflexivity.
    + rewrite <- Hfq. unfold Implicit.check_alloc, Implicit.get_ul.
      rewrite Hh, Hload. reflexivity.
    + rewrite Hnb2. exact Hnb.
Qed.

Lemma implicit_free_leaves_split_witness :
  let p := snd implicit_malloc100 in
  let st2 := Implicit.myfree (fst implicit_malloc100) p in
  Implicit.get_block_size st2 p = 104
  /\ Implicit.get_block_size st2 (p + 104 + 8) = 3976
  /\ Implicit.nblocks st2 = 2.
Proof.
  intros p st2.
  destruct (implicit_free_leaves_split implicit_fresh 100
              (fst implicit_malloc100) p)
    as (_ & H2 & _ & _ & H5).
  - apply came_back_pair; vm_compute; reflexivity.
  - vm_compute; discriminate.
  - vm_compute; discriminate.
  - vm_compute; discriminate.
  - vm_compute; discriminate.
  - vm_compute. split; [discriminate | reflexivity].
  - vm_compute. split; [discriminate | reflexivity].
  - destruct H5 as (H5 & _ & H7).
    + vm_compute; discriminate.
    + split; [exact H2|]. split; [exact H5 | exact H7].
Defined.

(** ** What the explicit [mymalloc] leaves alone *)

(** X25.  Explicit [mymalloc] writes only inside the free block it takes
    (header and old payload) and into the link fields of that block's two
    list neighbours, the next link of [np] and the previous link of [nn]:
    every other byte of memory, so every payload handed out earlier, is
    left as it was. *)
Theorem explicit_malloc_frame :
  forall st n,
    let r := Explicit.round_up n in
    let p := snd (Explicit.mymalloc st n) in
    let st' := fst (Explicit.mymalloc st n) in
    let s := Explicit.get_block_size st p in
    let np := Explicit.get_prev_free st p in
    let nn := Explicit.get_next_free st p in
    p <> NULL -> 8 <= p -> p + s <= 2 ^ 64 -> r <= s ->
    block_clear_of np p s -> block_clear_of nn p s ->
    forall a,
      a < p - 8 \/ p + s <= a ->
      np = NULL \/ a < np + 8 \/ np + 16 <= a ->
      nn = NULL \/ a < nn \/ nn + 8 <= a ->
      Explicit.heap st' a = Explicit.heap st a.
Proof.
  intros st n.
  intros r p st' s np nn. subst p st' s np nn. unfold Explicit.mymalloc. fold r.
  destruct (n <=? 0); [cbn [fst snd]; congruence|].
  set (b := Explicit.first_fit st r).
  destruct (b =? NULL) eqn:Eb; [cbn [fst snd]; congruence|].
  pose proof (E_round_up_range n) as Hr. fold r in Hr.
  pose proof (E_size_range st b) as Hs.
  set (s := Explicit.get_block_size st b) in *.
  set (np := Explicit.get_prev_free st b).
  set (nn := Explicit.get_next_free st b).
  assert (Hlinks : forall (Hcp : block_clear_of np b s)
                          (Hcn : block_clear_of nn b s),
             ((np =? NULL) = true \/
              ((np =? NULL) = false /\ np <> NULL
               /\ Explicit.fld_next_ptr (Explicit.get_hdr np) = np + 8))
             /\ ((nn =? NULL) = true \/
                 ((nn =? NULL) = false /\ nn <> NULL
                  /\ Explicit.fld_prev_ptr (Explicit.get_hdr nn) = nn))).
  { intros Hcp Hcn. split.
    - destruct (np =? NULL) eqn:E; [left; reflexivity | right].
      destruct (clear_link_addrs _ _ _ Hcp E) as (_ & P2 & _).
      apply Z.eqb_neq in E. auto.
    - destruct (nn =? NULL) eqn:E; [left; reflexivity | right].
      destruct (clear_link_addrs _ _ _ Hcn E) as (N1 & _ & _).
      apply Z.eqb_neq in E. auto. }
  destruct (wrap64 (s - r) <? sizeof_header) eqn:Ediff;
    [destruct (b =? Explicit.last_free_block st) eqn:Elast|];
    cbn [fst snd]; fold s np nn;
    intros Hp H8 Hend Hrs Hcp Hcn a Ha Hanp Hann;
    destruct (Hlinks Hcp Hcn) as (Lp & Ln);
    destruct (E_field_addrs b) as (B1 & B2 & B3); try lia.
  - apply Z.eqb_eq in Elast. rewrite <- Elast. fold np. e_norm.
    rewrite B1.
    destruct Lp as [Enp | (Enp & Hnp & P2)]; rewrite Enp.
    + rewrite !store64_out by lia. reflexivity.
    + rewrite P2. rewrite !store64_out by lia. reflexivity.
  - assert (Hrp : Explicit.get_prev_free (Explicit.set_prev_ptr st nn np) b = np).
    { unfold Explicit.get_prev_free. rewrite Eb. e_norm.
      destruct Ln as [En | (En & Hnn & N1)]; rewrite En.
      - unfold np, Explicit.get_prev_free. rewrite Eb. reflexivity.
      - destruct (clear_link_addrs _ _ _ Hcn En) as (_ & _ & N3).
        rewrite N1, B2. mem_simpl.
        unfold np, Explicit.get_prev_free. rewrite Eb, B2. reflexivity. }
    assert (Hrn : Explicit.get_next_free (Explicit.set_prev_ptr st nn np) b = nn).
    { unfold Explicit.get_next_free. rewrite Eb. e_norm.
      destruct Ln as [En | (En & Hnn & N1)]; rewrite En.
      - unfold nn, Explicit.get_next_free. rewrite Eb. reflexivity.
      - destruct (clear_link_addrs _ _ _ Hcn En) as (_ & _ & N3).
        rewrite N1, B3. mem_simpl.
        unfold nn, Explicit.get_next_free. rewrite Eb, B3. reflexivity. }
    rewrite Hrp, Hrn. e_norm. rewrite B1.
    destruct Lp as [Enp | (Enp & Hnp & P2)]; rewrite Enp;
      destruct Ln as [Enn | (Enn & Hnn & N1)]; rewrite Enn;
      rewrite ?P2, ?N1; rewrite !store64_out by lia; reflexivity.
  - rewrite (wrap64_small (s - r)) in * by lia.
    apply Z.ltb_ge in Ediff. unfold sizeof_header in Ediff.
    unfold Explicit.create_partial_fb. fold np nn. e_norm.
    unfold WIDTH. rewrite (wrap64_small (b + r + 8)) by lia.
    destruct (E_field_addrs (b + r + 8)) as (A1 & A2 & A3); [lia | lia |].
    rewrite A1, A2, A3, B1.
    destruct Lp as [Enp | (Enp & Hnp & P2)]; rewrite Enp;
      destruct Ln as [Enn | (Enn & Hnn & N1)]; rewrite Enn;
      rewrite ?P2, ?N1; rewrite !store64_out by lia; reflexivity.
Qed.

Lemma explicit_malloc_frame_witness :
  let st := fst explicit_malloc100 in
  Explicit.heap (fst (Explicit.mymalloc st 50)) (base0 + 8)
  = Explicit.heap st (base0 + 8).
Proof.
  intros st.
  apply (explicit_malloc_frame st 50).
  - vm_compute; discriminate.
  - vm_compute; discriminate.
  - vm_compute; discriminate.
  - vm_compute; discriminate.
  - left. vm_compute; reflexivity.
  - left. vm_compute; reflexivity.
  - left. vm_compute; reflexivity.
  - left. vm_compute; reflexivity.
  - left. vm_compute; reflexivity.
Defined.
